(** * rocHPCG: multi-colouring and the symmetric Gauss-Seidel smoother

    A shallow embedding of [src/MultiColoring.cpp] and [src/ComputeSYMGS.cpp].

    Conventions of the embedding.
    - [local_int_t] values (row ids, column ids, colours, hashes, counters)
      are integers [Z]; the sentinel of an absent ELL entry and of an
      uncoloured row is [-1].  Array positions are [nat].
    - A device array is a [list]; [a !!! i] reads element [i].  The kernels
      guard every read by the bounds the source checks; the remaining reads
      are in range whenever the arrays have the lengths the host code
      allocates.
    - A kernel launch is [launch n thread mem]: [n] logical threads, each of
      which reads the array as it was when the launch started and stores at
      most one element.  Launches on one stream run one after the other.
      This reading is exact when no thread of a launch reads an element
      that another thread of the launch stores.  For the sweep kernels that
      is the case when no row of the launched block stores a column of the
      block; the source has no barrier between the loads of [y[col]] and
      the store of [y[row]], so on other blocks the result depends on the
      schedule, and the statements about single rows carry the condition.
    - [double] arithmetic is kept abstract ([Arith]); laws are assumed only
      where a statement is about exact values ([ExactArith]).
    - [rand()] after [srand(RNG_SEED)] is the stream [rand : nat -> Z] of the
      values of the successive calls; [RNG_SEED] and [MAX_COLORS] come from
      [utils.hpp], which is not part of the sources at hand. *)

From Stdlib Require Import ZArith List Lia Bool Ring Field QArith Qcanon.
From stdpp Require Import base list sorting.

#[local] Open Scope Z_scope.

(** ** Kernel launches *)

Section Launch.
Context {A : Type}.

(** The store of one thread: [None] when the thread returns early. *)
Definition store (acc : list A) (w : option (nat * A)) : list A :=
  match w with
  | Some (i, v) => <[i := v]> acc
  | None => acc
  end.

Definition launch (n : nat) (thread : nat -> list A -> option (nat * A))
    (mem : list A) : list A :=
  fold_left (fun acc gid => store acc (thread gid mem)) (seq 0 n) mem.

(** A launch whose thread [gid] stores [F mem (o + gid)] at [o + gid]:
    the rows [o .. o + s) of one block, computed side by side. *)
Definition block_map (o s : nat) (F : list A -> nat -> A) (mem : list A)
    : list A :=
  launch s (fun gid y0 => Some ((o + gid)%nat, F y0 (o + gid)%nat)) mem.
End Launch.

(** Thread count of a one-dimensional launch [dim3((n - 1) / bs + 1)],
    [dim3(bs)]; the division is C's, which truncates. *)
Definition grid1d (n bs : Z) : nat := Z.to_nat ((Z.quot (n - 1) bs + 1) * bs).

(** ** Floating-point operations used by the kernels *)

Class Arith (R : Type) : Type := {
  zero : R;
  fma : R -> R -> R -> R;
  neg : R -> R;
  mul : R -> R -> R;
  div : R -> R -> R
}.

#[global] Instance Arith_inhabited `{Arith R} : Inhabited R := populate zero.

(** Exact arithmetic: the operations of a field, [fma] without rounding. *)
Class ExactArith (R : Type) `{Arith R} : Type := {
  one : R;
  add : R -> R -> R;
  sub : R -> R -> R;
  exact_ring : ring_theory zero one add mul sub neg eq;
  exact_fma : forall a b c, fma a b c = add (mul a b) c;
  exact_div : forall a b, div a b = mul a (div one b);
  exact_inv : forall b, b <> zero -> mul (div one b) b = one
}.

(** The rational numbers as an instance, used for the examples. *)
#[global] Instance Qc_Arith : Arith Qc :=
  {| zero := Q2Qc 0;
     fma := fun a b c => (a * b + c)%Qc;
     neg := Qcopp;
     mul := Qcmult;
     div := Qcdiv |}.

#[global] Program Instance Qc_ExactArith : ExactArith Qc :=
  {| one := 1%Qc; add := Qcplus; sub := Qcminus |}.
Next Obligation. exact Qcrt. Qed.
Next Obligation. reflexivity. Qed.
Next Obligation. intros a b. cbn. unfold Qcdiv. ring. Qed.
Next Obligation. intros b Hb. cbn. unfold Qcdiv. field. exact Hb. Qed.

(** ** The fields of [SparseMatrix] the two files use

    The struct is declared in [SparseMatrix.hpp]; [sizes] and [offsets] hold
    the entries written so far. *)

Record SparseMatrix (R : Type) : Type := {
  geom_size : Z;
  localNumberOfRows : nat;
  localNumberOfColumns : nat;
  numberOfNonzerosPerRow : nat;
  d_mtxIndL : list Z;
  d_rowHash : list Z;
  perm : list Z;
  nblocks : Z;
  ublocks : Z;
  sizes : list Z;
  offsets : list Z;
  ell_width : nat;
  ell_col_ind : list Z;
  ell_val : list R;
  inv_diag : list R;
  diag_idx : list Z;
  halo_rows : nat;
  halo_row_ind : list Z;
  halo_col_ind : list Z;
  halo_val : list R
}.

Arguments geom_size {R} _.
Arguments localNumberOfRows {R} _.
Arguments localNumberOfColumns {R} _.
Arguments numberOfNonzerosPerRow {R} _.
Arguments d_mtxIndL {R} _.
Arguments d_rowHash {R} _.
Arguments perm {R} _.
Arguments nblocks {R} _.
Arguments ublocks {R} _.
Arguments sizes {R} _.
Arguments offsets {R} _.
Arguments ell_width {R} _.
Arguments ell_col_ind {R} _.
Arguments ell_val {R} _.
Arguments inv_diag {R} _.
Arguments diag_idx {R} _.
Arguments halo_rows {R} _.
Arguments halo_row_ind {R} _.
Arguments halo_col_ind {R} _.
Arguments halo_val {R} _.

(** ** src/MultiColoring.cpp *)

Module MultiColoring.

(** [kernel_identity]: [data[gid] = gid] for [gid < size]. *)
Definition kernel_identity (threads size : nat) (data : list Z) : list Z :=
  launch threads
    (fun gid _ => if (size <=? gid)%nat then None
                  else Some (gid, Z.of_nat gid))
    data.

(** [kernel_create_perm]: [out[in[gid]] = gid] for [gid < size]. *)
Definition kernel_create_perm (threads size : nat) (inp : list Z)
    (out : list Z) : list Z :=
  launch threads
    (fun gid _ => if (size <=? gid)%nat then None
                  else Some (Z.to_nat (inp !!! gid), Z.of_nat gid))
    out.

(** *** Counting the rows of one colour *)

(** One step of [reduce_sum]: the threads [tid < s] with
    [tid + s < BLOCKSIZE] add [data[tid + s]] to [data[tid]]. *)
Definition reduce_step (BLOCKSIZE s : nat) (data : list Z) : list Z :=
  launch BLOCKSIZE
    (fun tid d => if (tid <? s)%nat && (tid + s <? BLOCKSIZE)%nat
                  then Some (tid, d !!! tid + d !!! (tid + s)%nat)
                  else None)
    data.

(** [reduce_sum<BLOCKSIZE>]: the steps 512, 256, ..., 1 that are below
    [BLOCKSIZE], each followed by a barrier. *)
Definition reduce_sum (BLOCKSIZE : nat) (data : list Z) : list Z :=
  fold_left
    (fun d s => if (s <? BLOCKSIZE)%nat then reduce_step BLOCKSIZE s d else d)
    [512; 256; 128; 64; 32; 16; 8; 4; 2; 1]%nat data.

(** The grid-stride loop [for (idx = start; idx < size; idx += stride)]
    adding [f idx]; at most [size] iterations. *)
Fixpoint stride_sum (fuel : nat) (f : nat -> Z) (size stride idx : nat)
    (sum : Z) : Z :=
  match fuel with
  | O => sum
  | S fuel' =>
      if (idx <? size)%nat
      then stride_sum fuel' f size stride (idx + stride) (sum + f idx)
      else sum
  end.

(** [kernel_count_color_part1<BLOCKSIZE>] on a grid of [grid] blocks:
    block [b] leaves the number of its matches in [workspace[b]]. *)
Definition kernel_count_color_part1 (BLOCKSIZE grid size : nat) (color : Z)
    (colors : list Z) (workspace : list Z) : list Z :=
  launch grid
    (fun b _ =>
       let sdata :=
         (fun tid =>
            stride_sum size
              (fun idx => if colors !!! idx =? color then 1 else 0)
              size (grid * BLOCKSIZE) (b * BLOCKSIZE + tid) 0)
           <$> seq 0 BLOCKSIZE in
       Some (b, reduce_sum BLOCKSIZE sdata !!! 0%nat))
    workspace.

(** [kernel_count_color_part2<BLOCKSIZE>], one block: the sum of the
    first [size] workspace entries is left in [workspace[0]]. *)
Definition kernel_count_color_part2 (BLOCKSIZE size : nat)
    (workspace : list Z) : list Z :=
  let sdata :=
    (fun tid =>
       stride_sum size (fun idx => workspace !!! idx) size BLOCKSIZE tid 0)
      <$> seq 0 BLOCKSIZE in
  <[0%nat := reduce_sum BLOCKSIZE sdata !!! 0%nat]> workspace.

(** The two launches of [JPLColoring] that count one colour, and the
    [hipMemcpy] of [tmp[0]] back to the host. *)
Definition count_color (m : nat) (color : Z) (colors : list Z)
    (tmp : list Z) : Z * list Z :=
  let tmp1 := kernel_count_color_part1 256 256 m color colors tmp in
  let tmp2 := kernel_count_color_part2 256 256 tmp1 in
  (tmp2 !!! 0%nat, tmp2).

(** *** The colouring kernel *)

(** Thread [(tx, row)] of [kernel_jpl]: it looks at slot [tx] of the row
    and clears the row's shared [min]/[max] flags. *)
Definition jpl_neighbour (m : nat) (hash : list Z) (color1 color2 : Z)
    (bdx : nat) (mtxIndL colors : list Z) (row tx : nat)
    (flags : bool * bool) : bool * bool :=
  let '(mn, mx) := flags in
  let row_hash := hash !!! row in
  let idx := (row * bdx + tx)%nat in
  let col := mtxIndL !!! idx in
  if (0 <=? col) && (col <? Z.of_nat m) then
    if negb (col =? Z.of_nat row) then
      let color_nb := colors !!! Z.to_nat col in
      if (color_nb =? -1) || (color_nb =? color1) || (color_nb =? color2)
      then
        let col_hash := hash !!! Z.to_nat col in
        (if col_hash <=? row_hash then false else mn,
         if col_hash >=? row_hash then false else mx)
      else (mn, mx)
    else (mn, mx)
  else (mn, mx).

(** The flags of a row once all its slot threads have passed the second
    barrier; both start as [true]. *)
Definition jpl_flags (m : nat) (hash : list Z) (color1 color2 : Z)
    (bdx : nat) (mtxIndL colors : list Z) (row : nat) : bool * bool :=
  fold_left
    (fun fl tx => jpl_neighbour m hash color1 color2 bdx mtxIndL colors row tx fl)
    (seq 0 bdx) (true, true).

(** The store of the thread [tx = 0] of a row. *)
Definition jpl_row (m : nat) (hash : list Z) (color1 color2 : Z)
    (bdx : nat) (mtxIndL : list Z) (row : nat) (colors : list Z)
    : option (nat * Z) :=
  if (m <=? row)%nat then None
  else if negb (colors !!! row =? -1) then None
  else
    let '(mn, mx) := jpl_flags m hash color1 color2 bdx mtxIndL colors row in
    if mx then Some (row, color1)
    else if mn then Some (row, color2)
    else None.

Definition kernel_jpl (rows m : nat) (hash : list Z) (color1 color2 : Z)
    (bdx : nat) (mtxIndL : list Z) (colors : list Z) : list Z :=
  launch rows (jpl_row m hash color1 color2 bdx mtxIndL) colors.

(** *** Host code of [JPLColoring] *)

Definition u32 (z : Z) : Z := z mod 2 ^ 32.

(** [while (blocksize * nnz > 512) blocksize >>= 1;] on [unsigned int]:
    the shift reaches zero after at most 33 steps. *)
Fixpoint shrink_blocksize (fuel : nat) (nnz blocksize : Z) : Z :=
  match fuel with
  | O => blocksize
  | S fuel' =>
      if u32 (blocksize * nnz) >? 512
      then shrink_blocksize fuel' nnz (Z.shiftr blocksize 1)
      else blocksize
  end.

(** "Determine blocksize": rows per thread block of [kernel_jpl]. *)
Definition jpl_blocksize (nnz : Z) : Z :=
  let b := Z.quot 512 nnz in
  let b := Z.lor b (Z.shiftr b 1) in
  let b := Z.lor b (Z.shiftr b 2) in
  let b := Z.lor b (Z.shiftr b 4) in
  let b := Z.lor b (Z.shiftr b 8) in
  let b := Z.lor b (Z.shiftr b 16) in
  let b := u32 (b + 1) in
  shrink_blocksize 33 nnz b.

(** Threads in the row dimension of the [kernel_jpl] grid:
    [((m - 1) / blocksize + 1) * blocksize]. *)
Definition jpl_grid_rows (m : nat) (nnz : Z) : nat :=
  let bs := jpl_blocksize nnz in
  Z.to_nat ((Z.quot (Z.of_nat m - 1) bs + 1) * bs).

(** The variables the round loop changes.  [colors] is [A.perm], which
    holds the colours until the permutation is built; [sizes] and
    [offsets] are the written prefixes of [A.sizes] and [A.offsets];
    [rng] counts the calls of [rand()] so far. *)
Record jpl_state : Type := {
  colors : list Z;
  st_nblocks : Z;
  colored : Z;
  st_sizes : list Z;
  st_offsets : list Z;
  tmp : list Z;
  rng : nat
}.

Section Rounds.
Variable rand : nat -> Z.
Variable MAX_COLORS : Z.
Variable m : nat.
Variable numberOfNonzerosPerRow : nat.
Variable d_rowHash : list Z.
Variable d_mtxIndL : list Z.

(** What [JPLColoring] sets up before the loop. *)
Definition jpl_init (workspace : list Z) : jpl_state :=
  {| colors := replicate m (-1);
     st_nblocks := 0;
     colored := 0;
     st_sizes := [];
     st_offsets := [0];
     tmp := workspace;
     rng := 0%nat |}.

(** The two candidate colours of a round and the number of [rand()]
    calls it makes. *)
Definition round_colors (st : jpl_state) : Z * Z * nat :=
  if st_nblocks st <? 8
  then (Z.rem (rand (rng st)) 8, Z.rem (rand (S (rng st))) 8, 2%nat)
  else (st_nblocks st, st_nblocks st + 1, 0%nat).

(** The body of [while (colored != m)]. *)
Definition jpl_round (st : jpl_state) : jpl_state :=
  let '(color1, color2, draws) := round_colors st in
  let colors' :=
    kernel_jpl (jpl_grid_rows m (Z.of_nat numberOfNonzerosPerRow)) m
      d_rowHash color1 color2 numberOfNonzerosPerRow d_mtxIndL (colors st) in
  let '(size1, tmp1) := count_color m color1 colors' (tmp st) in
  let '(size2, tmp2) := count_color m color2 colors' tmp1 in
  let colored1 := colored st + size1 in
  let colored2 := colored1 + size2 in
  {| colors := colors';
     st_nblocks := st_nblocks st + 2;
     colored := colored2;
     st_sizes := st_sizes st ++ [size1; size2];
     st_offsets := st_offsets st ++ [colored1; colored2];
     tmp := tmp2;
     rng := (rng st + draws)%nat |}.

(** How a run of the loop ends.  [Overrun]: the round about to start
    would store past the [MAX_COLORS] entries of [A.sizes] and
    [A.offsets], where C++ leaves the behaviour undefined.
    [Running]: still in the loop after the given number of rounds. *)
Inductive loop_result : Type :=
| Exited (st : jpl_state)
| Overrun (st : jpl_state)
| Running (st : jpl_state).

Fixpoint jpl_loop (rounds : nat) (st : jpl_state) : loop_result :=
  if colored st =? Z.of_nat m then Exited st
  else
    match rounds with
    | O => Running st
    | S rounds' =>
        if st_nblocks st + 2 <? MAX_COLORS
        then jpl_loop rounds' (jpl_round st)
        else Overrun st
    end.
End Rounds.

(** *** Building the permutation *)

(** One pass of the radix sort on bit [b] of the key: a stable split. *)
Definition radix_pass (b : Z) (kv : list (Z * Z)) : list (Z * Z) :=
  filter (fun p => Z.testbit (fst p) b = false) kv
    ++ filter (fun p => Z.testbit (fst p) b = true) kv.

(** [hipcub::DeviceRadixSort::SortPairs] on the first [num] pairs: the
    keys are ordered by their bits [startbit, endbit), ties keep their
    order. *)
Definition SortPairs (keys vals : list Z) (num : nat) (startbit endbit : Z)
    : list Z * list Z :=
  let kv :=
    fold_left (fun kv b => radix_pass b kv)
      (seqZ startbit (endbit - startbit))
      (zip (take num keys) (take num vals)) in
  (fst <$> kv, snd <$> kv).

(** [__builtin_clz] on a 32-bit value; the builtin is undefined at 0. *)
Definition clz32 (x : Z) : Z := 31 - Z.log2 x.

(** [JPLColoring]: [None] when the round loop has not come to its end
    within [rounds] rounds.  [reference] is [true] when the file is
    compiled with [HPCG_REFERENCE]. *)
Definition JPLColoring {R} (rand : nat -> Z) (MAX_COLORS : Z)
    (reference : bool) (rounds : nat) (workspace : list Z)
    (A : SparseMatrix R) : option (SparseMatrix R) :=
  let m := localNumberOfRows A in
  match jpl_loop rand MAX_COLORS m (numberOfNonzerosPerRow A)
          (d_rowHash A) (d_mtxIndL A) rounds (jpl_init m workspace) with
  | Exited st =>
      let ub := st_nblocks st - 1 in
      let tmp_perm := kernel_identity (grid1d (Z.of_nat m) 1024) m
                        (replicate m 0) in
      let startbit := 0 in
      let endbit := 32 - clz32 (st_nblocks st) in
      let '(_, vals) := SortPairs (colors st) tmp_perm m startbit endbit in
      let perm' := kernel_create_perm (grid1d (Z.of_nat m) 1024) m vals
                     (colors st) in
      Some {| geom_size := geom_size A;
              localNumberOfRows := m;
              localNumberOfColumns := localNumberOfColumns A;
              numberOfNonzerosPerRow := numberOfNonzerosPerRow A;
              d_mtxIndL := d_mtxIndL A;
              d_rowHash := d_rowHash A;
              perm := perm';
              nblocks := st_nblocks st;
              ublocks := if reference then ub else ub - 1;
              sizes := st_sizes st;
              offsets := st_offsets st;
              ell_width := ell_width A;
              ell_col_ind := ell_col_ind A;
              ell_val := ell_val A;
              inv_diag := inv_diag A;
              diag_idx := diag_idx A;
              halo_rows := halo_rows A;
              halo_row_ind := halo_row_ind A;
              halo_col_ind := halo_col_ind A;
              halo_val := halo_val A |}
  | _ => None
  end.

(** *** Notions used to state the properties of the colouring *)

(** [g 0 + ... + g (n - 1)]. *)
Fixpoint bigsum (g : nat -> Z) (n : nat) : Z :=
  match n with
  | O => 0
  | S n' => bigsum g n' + g n'
  end.

(** [j] is visited by the grid-stride loop that starts at [idx]. *)
Definition on_stride (stride idx j : nat) : bool :=
  (idx <=? j)%nat && ((j - idx) mod stride =? 0)%nat.

(** Number of the rows [0 .. m) whose colour is [color]. *)
Definition count_rows (color : Z) (colors : list Z) (m : nat) : Z :=
  bigsum (fun idx => if colors !!! idx =? color then 1 else 0) m.

(** Number of the rows [0 .. m) that carry a colour. *)
Definition coloured_rows (colors : list Z) (m : nat) : Z :=
  bigsum (fun i => if colors !!! i =? -1 then 0 else 1) m.

Definition Zsum (l : list Z) : Z := foldr Z.add 0 l.

Section KernelSpec.
Variable m : nat.
Variable hash : list Z.
Variables color1 color2 : Z.
Variable bdx : nat.
Variable mtxIndL : list Z.

(** [(row, c)] is a stored off-diagonal entry with a local column. *)
Definition neighbour (row c : nat) : Prop :=
  (row < m)%nat /\ (c < m)%nat /\ c <> row /\
  exists tx, (tx < bdx)%nat /\ mtxIndL !!! (row * bdx + tx)%nat = Z.of_nat c.

(** The row [c] takes part in the comparisons of the round: it is
    uncoloured or holds one of the two candidate colours. *)
Definition compared (colors : list Z) (c : nat) : Prop :=
  colors !!! c = -1 \/ colors !!! c = color1 \/ colors !!! c = color2.

Definition strict_local_max (colors : list Z) (row : nat) : Prop :=
  forall c, neighbour row c -> compared colors c -> hash !!! c < hash !!! row.

Definition strict_local_min (colors : list Z) (row : nat) : Prop :=
  forall c, neighbour row c -> compared colors c -> hash !!! row < hash !!! c.

(** The colour of [row] after the launch of [kernel_jpl]. *)
Definition jpl_new_color (colors : list Z) (row : nat) : Z :=
  match jpl_row m hash color1 color2 bdx mtxIndL row colors with
  | Some (_, c) => c
  | None => colors !!! row
  end.
End KernelSpec.

(** The value of the [i]-th call [rand() % 8]. *)
Definition draw (rand : nat -> Z) (i : nat) : Z := Z.rem (rand i) 8.

(** The first [n] palette draws are pairwise different. *)
Definition distinct_draws (rand : nat -> Z) (n : nat) : Prop :=
  NoDup (draw rand <$> seq 0 n).

Section RoundsSpec.
Variable rand : nat -> Z.
Variable m : nat.
Variable nnz : nat.
Variable hash : list Z.
Variable ind : list Z.

(** A colour some earlier round has nominated. *)
Definition used (st : jpl_state) (c : Z) : Prop :=
  8 <= c < st_nblocks st \/ exists i, (i < rng st)%nat /\ c = draw rand i.

(** What holds at the head of the loop as long as no colour has been
    nominated twice. *)
Record jpl_inv (st : jpl_state) : Prop := {
  inv_len : length (colors st) = m;
  inv_tmp : (256 <= length (tmp st))%nat;
  inv_nb : 0 <= st_nblocks st;
  inv_even : Z.even (st_nblocks st) = true;
  inv_rng : rng st = Z.to_nat (Z.min (st_nblocks st) 8);
  inv_used : forall i, (i < m)%nat ->
               colors st !!! i = -1 \/ used st (colors st !!! i);
  inv_colored : colored st = coloured_rows (colors st) m;
  inv_sizes : Zsum (st_sizes st) = colored st
}.

Definition color1_of (st : jpl_state) : Z := fst (fst (round_colors rand st)).
Definition color2_of (st : jpl_state) : Z := snd (fst (round_colors rand st)).

(** Whenever row [r] stores column [c], row [c] stores column [r]. *)
Definition symmetric_adjacency : Prop :=
  forall r c, neighbour m nnz ind r c -> neighbour m nnz ind c r.

(** Coloured rows differ from all their neighbours. *)
Definition proper_so_far (cs : list Z) : Prop :=
  forall r c, neighbour m nnz ind r c -> cs !!! r <> -1 -> cs !!! r <> cs !!! c.

Definition distinct_neighbour_hashes : Prop :=
  forall r c, neighbour m nnz ind r c -> hash !!! r <> hash !!! c.
End RoundsSpec.

Arguments inv_len {rand m st} _.
Arguments inv_tmp {rand m st} _.
Arguments inv_nb {rand m st} _.
Arguments inv_even {rand m st} _.
Arguments inv_rng {rand m st} _.
Arguments inv_used {rand m st} _.
Arguments inv_colored {rand m st} _.
Arguments inv_sizes {rand m st} _.

(** *** Runs of the loop *)

Section RunsSpec.
Variable rand : nat -> Z.
Variable MAX_COLORS : Z.
Variable m : nat.
Variable nnz : nat.
Variable hash : list Z.
Variable ind : list Z.

(** The state at the head of the loop after [k] rounds. *)
Fixpoint jpl_iter (k : nat) (st : jpl_state) : jpl_state :=
  match k with
  | O => st
  | S k' => jpl_iter k' (jpl_round rand m nnz hash ind st)
  end.

(** A round with the two reductions replaced by what they compute; the
    workspace is left alone. *)
Definition jpl_round_counted (st : jpl_state) : jpl_state :=
  let '(color1, color2, draws) := round_colors rand st in
  let colors' :=
    kernel_jpl (jpl_grid_rows m (Z.of_nat nnz)) m hash color1 color2 nnz ind
      (colors st) in
  let size1 := count_rows color1 colors' m in
  let size2 := count_rows color2 colors' m in
  {| colors := colors';
     st_nblocks := st_nblocks st + 2;
     colored := colored st + size1 + size2;
     st_sizes := st_sizes st ++ [size1; size2];
     st_offsets := st_offsets st ++ [colored st + size1; colored st + size1 + size2];
     tmp := tmp st;
     rng := (rng st + draws)%nat |}.

Fixpoint jpl_loop_counted (rounds : nat) (st : jpl_state) : loop_result :=
  if colored st =? Z.of_nat m then Exited st
  else
    match rounds with
    | O => Running st
    | S rounds' =>
        if st_nblocks st + 2 <? MAX_COLORS
        then jpl_loop_counted rounds' (jpl_round_counted st)
        else Overrun st
    end.
End RunsSpec.

(** A state without the contents of the workspace. *)
Definition forget_tmp (st : jpl_state) : jpl_state :=
  {| colors := colors st; st_nblocks := st_nblocks st; colored := colored st;
     st_sizes := st_sizes st; st_offsets := st_offsets st; tmp := [];
     rng := rng st |}.

Definition forget_result (res : loop_result) : loop_result :=
  match res with
  | Exited st => Exited (forget_tmp st)
  | Overrun st => Overrun (forget_tmp st)
  | Running st => Running (forget_tmp st)
  end.

End MultiColoring.

(** ** src/ComputeSYMGS.cpp *)

Module SYMGS.

Section Kernels.
Context {R : Type} `{Arith R}.

(** The loop over the ELL slots of [kernel_symgs_sweep]: starting from
    [x[row]], every stored entry with a column in [0, n) other than the
    row itself subtracts [ell_val * y[col]]. *)
Definition sweep_sum (m n ell_width : nat) (ell_col_ind : list Z)
    (ell_val x y : list R) (row : nat) : R :=
  fold_left
    (fun sum p =>
       let idx := (p * m + row)%nat in
       let col := ell_col_ind !!! idx in
       if (0 <=? col) && (col <? Z.of_nat n) && negb (col =? Z.of_nat row)
       then fma (neg (ell_val !!! idx)) (y !!! Z.to_nat col) sum
       else sum)
    (seq 0 ell_width) (x !!! row).

(** [kernel_symgs_sweep] for one block.  Every thread reads [y0], the
    vector at the start of the launch: exact when no row of the block
    stores a column of the block. *)
Definition kernel_symgs_sweep (threads m n : nat) (block_nrow offset : Z)
    (ell_width : nat) (ell_col_ind : list Z) (ell_val inv_diag x : list R)
    (y : list R) : list R :=
  launch threads
    (fun gid y0 =>
       if block_nrow <=? Z.of_nat gid then None
       else
         let row := Z.to_nat (Z.of_nat gid + offset) in
         let sum := sweep_sum m n ell_width ell_col_ind ell_val x y0 row in
         Some (row, mul sum (inv_diag !!! row)))
    y.

(** [kernel_symgs_interior]: the same loop with the column test
    [col < m], on the rows [0 .. block_nrow); exact, as above, when the
    rows of block 0 do not store each other. *)
Definition kernel_symgs_interior (threads m : nat) (block_nrow : Z)
    (ell_width : nat) (ell_col_ind : list Z) (ell_val inv_diag x : list R)
    (y : list R) : list R :=
  launch threads
    (fun row y0 =>
       if block_nrow <=? Z.of_nat row then None
       else
         let sum := sweep_sum m m ell_width ell_col_ind ell_val x y0 row in
         Some (row, mul sum (inv_diag !!! row)))
    y.

(** The loop over the halo slots of [kernel_symgs_halo], from [0.0]. *)
Definition halo_sum (m n halo_width : nat) (halo_col_ind : list Z)
    (halo_val y : list R) (row : nat) : R :=
  fold_left
    (fun sum p =>
       let idx := (p * m + row)%nat in
       let col := halo_col_ind !!! idx in
       if (0 <=? col) && (col <? Z.of_nat n)
       then fma (neg (halo_val !!! idx)) (y !!! Z.to_nat col) sum
       else sum)
    (seq 0 halo_width) zero.

(** [kernel_symgs_halo]; here [m] is the number of halo rows. *)
Definition kernel_symgs_halo (threads m n : nat) (block_nrow : Z)
    (halo_width : nat) (halo_row_ind halo_col_ind : list Z)
    (halo_val inv_diag : list R) (perm : list Z) (x : list R)
    (y : list R) : list R :=
  launch threads
    (fun row y0 =>
       if (m <=? row)%nat then None
       else
         let halo_idx := halo_row_ind !!! row in
         let perm_idx := perm !!! Z.to_nat halo_idx in
         if block_nrow <=? perm_idx then None
         else
           let sum := halo_sum m n halo_width halo_col_ind halo_val y0 row in
           Some (Z.to_nat perm_idx,
                 fma sum (inv_diag !!! Z.to_nat halo_idx)
                   (y0 !!! Z.to_nat perm_idx)))
    y.

Definition kernel_pointwise_mult (threads : nat) (size : Z)
    (x y : list R) (out : list R) : list R :=
  launch threads
    (fun gid _ =>
       if size <=? Z.of_nat gid then None
       else Some (gid, mul (x !!! gid) (y !!! gid)))
    out.

(** The loop of [kernel_forward_sweep_0] over the slots below the
    diagonal slot; only columns below [offset] contribute. *)
Definition forward_sum_0 (m : nat) (offset : Z) (ell_col_ind : list Z)
    (ell_val x y : list R) (diag : Z) (row : nat) : R :=
  fold_left
    (fun sum p =>
       let idx := (p * m + row)%nat in
       let col := ell_col_ind !!! idx in
       if (0 <=? col) && (col <? offset)
       then fma (neg (ell_val !!! idx)) (y !!! Z.to_nat col) sum
       else sum)
    (seq 0 (Z.to_nat diag)) (x !!! row).

Definition kernel_forward_sweep_0 (threads m : nat) (block_nrow offset : Z)
    (ell_width : nat) (ell_col_ind : list Z) (ell_val : list R)
    (diag_idx : list Z) (x : list R) (y : list R) : list R :=
  launch threads
    (fun gid y0 =>
       if block_nrow <=? Z.of_nat gid then None
       else
         let row := Z.to_nat (Z.of_nat gid + offset) in
         let diag := diag_idx !!! row in
         let diag_val := ell_val !!! (Z.to_nat diag * m + row)%nat in
         let sum := forward_sum_0 m offset ell_col_ind ell_val x y0 diag row in
         Some (row, div sum diag_val))
    y.

(** The loop of [kernel_backward_sweep_0] over the slots above the
    diagonal slot, from [x[row] * diag_val]; only local columns at or
    above [offset] contribute. *)
Definition backward_sum_0 (m : nat) (offset : Z) (ell_width : nat)
    (ell_col_ind : list Z) (ell_val x : list R) (diag : Z) (row : nat)
    (diag_val : R) : R :=
  fold_left
    (fun sum p =>
       let idx := (p * m + row)%nat in
       let col := ell_col_ind !!! idx in
       if (offset <=? col) && (col <? Z.of_nat m)
       then fma (neg (ell_val !!! idx)) (x !!! Z.to_nat col) sum
       else sum)
    (seq (Z.to_nat (diag + 1)) (ell_width - Z.to_nat (diag + 1)))
    (mul (x !!! row) diag_val).

(** [kernel_backward_sweep_0] for one block.  The columns it reads,
    those in [offset, m), include the rows of the block: the reading of
    [x0], the vector at the start of the launch, is exact when no row of
    the block stores a column of the block. *)
Definition kernel_backward_sweep_0 (threads m : nat) (block_nrow offset : Z)
    (ell_width : nat) (ell_col_ind : list Z) (ell_val : list R)
    (diag_idx : list Z) (x : list R) : list R :=
  launch threads
    (fun gid x0 =>
       if block_nrow <=? Z.of_nat gid then None
       else
         let row := Z.to_nat (Z.of_nat gid + offset) in
         let diag := diag_idx !!! row in
         let diag_val := ell_val !!! (Z.to_nat diag * m + row)%nat in
         let sum := backward_sum_0 m offset ell_width ell_col_ind ell_val
                      x0 diag row diag_val in
         Some (row, div sum diag_val))
    x.

(** *** Host code *)

(** The launch of [kernel_symgs_sweep] for block [i]. *)
Definition sweep_block (A : SparseMatrix R) (r : list R) (y : list R)
    (i : nat) : list R :=
  kernel_symgs_sweep (grid1d (sizes A !!! i) 1024)
    (localNumberOfRows A) (localNumberOfColumns A)
    (sizes A !!! i) (offsets A !!! i)
    (ell_width A) (ell_col_ind A) (ell_val A) (inv_diag A) r y.

(** Block indices of [for (i = 1; i < nblocks; ++i)]. *)
Definition forward_blocks (A : SparseMatrix R) : list nat :=
  seq 1 (Z.to_nat (nblocks A) - 1).

(** Block indices of [for (i = ublocks; i >= 0; --i)]. *)
Definition backward_blocks (A : SparseMatrix R) : list nat :=
  rev (seq 0 (Z.to_nat (ublocks A + 1))).

(** [ComputeSYMGS].  [exchange x0 x1] stands for the halo exchange of
    [ExchangeHalo.hpp]: [PrepareSendBuffer] sees the vector [x0] of the
    call, [ObtainRecvBuffer] returns [x1] with the ghost entries
    received.  The branch is taken when [A.geom->size > 1]; without MPI
    ([HPCG_NO_MPI]) it does not exist. *)
Definition ComputeSYMGS (exchange : list R -> list R -> list R)
    (A : SparseMatrix R) (r x : list R) : list R :=
  let x1 :=
    kernel_symgs_interior (grid1d (sizes A !!! 0%nat) 1024)
      (localNumberOfRows A) (sizes A !!! 0%nat)
      (ell_width A) (ell_col_ind A) (ell_val A) (inv_diag A) r x in
  let x2 :=
    if 1 <? geom_size A then
      kernel_symgs_halo (grid1d (Z.of_nat (halo_rows A)) 128)
        (halo_rows A) (localNumberOfColumns A) (sizes A !!! 0%nat)
        (ell_width A) (halo_row_ind A) (halo_col_ind A) (halo_val A)
        (inv_diag A) (perm A) r (exchange x x1)
    else x1 in
  let x3 := fold_left (sweep_block A r) (forward_blocks A) x2 in
  fold_left (sweep_block A r) (backward_blocks A) x3.

(** The forward sweep of [ComputeSYMGSZeroGuess]. *)
Definition zero_guess_forward (A : SparseMatrix R) (r x : list R) : list R :=
  let x1 :=
    kernel_pointwise_mult (grid1d (sizes A !!! 0%nat) 1024)
      (sizes A !!! 0%nat) r (inv_diag A) x in
  fold_left
    (fun y i =>
       kernel_forward_sweep_0 (grid1d (sizes A !!! i) 1024)
         (localNumberOfRows A) (sizes A !!! i) (offsets A !!! i)
         (ell_width A) (ell_col_ind A) (ell_val A) (diag_idx A) r y)
    (forward_blocks A) x1.

(** The backward sweep of [ComputeSYMGSZeroGuess]. *)
Definition zero_guess_backward (A : SparseMatrix R) (x : list R) : list R :=
  fold_left
    (fun y i =>
       kernel_backward_sweep_0 (grid1d (sizes A !!! i) 1024)
         (localNumberOfRows A) (sizes A !!! i) (offsets A !!! i)
         (ell_width A) (ell_col_ind A) (ell_val A) (diag_idx A) y)
    (backward_blocks A) x.

Definition ComputeSYMGSZeroGuess (A : SparseMatrix R) (r x : list R)
    : list R :=
  zero_guess_backward A (zero_guess_forward A r x).

(** *** The sequential sweep the coloured one stands for

    One row of Gauss-Seidel: [x[row]] becomes
    [(r[row] - sum of A[row,col] * x[col] over the stored off-diagonal
    entries) * invDiag[row]], with the current [x]. *)
Fixpoint gs_residual (A : SparseMatrix R) (x : list R) (row : nat)
    (slots : list nat) (sum : R) : R :=
  match slots with
  | [] => sum
  | p :: slots' =>
      let idx := (p * localNumberOfRows A + row)%nat in
      let col := ell_col_ind A !!! idx in
      let sum' :=
        if (0 <=? col) && (col <? Z.of_nat (localNumberOfColumns A))
           && negb (col =? Z.of_nat row)
        then fma (neg (ell_val A !!! idx)) (x !!! Z.to_nat col) sum
        else sum in
      gs_residual A x row slots' sum'
  end.

Definition gs_row (A : SparseMatrix R) (r x : list R) (row : nat) : list R :=
  <[row := mul (gs_residual A x row (seq 0 (ell_width A)) (r !!! row))
             (inv_diag A !!! row)]> x.

(** Rows [0 .. m-1] in order, then rows [m-1 .. 0]. *)
Definition sequential_symgs (A : SparseMatrix R) (r x : list R) : list R :=
  let m := localNumberOfRows A in
  let xf := fold_left (gs_row A r) (seq 0 m) x in
  fold_left (gs_row A r) (rev (seq 0 m)) xf.
End Kernels.

(** *** Notions used to state the properties of the sweeps *)

Section SweepSpec.
Context {R : Type} `{Arith R}.

(** The value [kernel_symgs_sweep] stores for [row]. *)
Definition sweep_value (m n w : nat) (ci : list Z) (cv inv x y : list R)
    (row : nat) : R :=
  mul (sweep_sum m n w ci cv x y row) (inv !!! row).

Definition block_lo (A : SparseMatrix R) (i : nat) : nat :=
  Z.to_nat (offsets A !!! i).
Definition block_len (A : SparseMatrix R) (i : nat) : nat :=
  Z.to_nat (sizes A !!! i).

(** The block tables tile the rows [0 .. m) in increasing order. *)
Record valid_layout (A : SparseMatrix R) : Prop := {
  layout_nblocks : 1 <= nblocks A;
  layout_sizes : forall i, (i < Z.to_nat (nblocks A))%nat -> 0 <= sizes A !!! i;
  layout_first : offsets A !!! 0%nat = 0;
  layout_next : forall i, (i < Z.to_nat (nblocks A))%nat ->
      offsets A !!! S i = offsets A !!! i + sizes A !!! i;
  layout_last :
    offsets A !!! Z.to_nat (nblocks A) = Z.of_nat (localNumberOfRows A);
  layout_ublocks : ublocks A = nblocks A - 1 \/ ublocks A = nblocks A - 2
}.

(** Row [row] stores an off-diagonal entry in column [c]. *)
Definition stored (A : SparseMatrix R) (row c : nat) : Prop :=
  c <> row /\ exists p, (p < ell_width A)%nat /\
    ell_col_ind A !!! (p * localNumberOfRows A + row)%nat = Z.of_nat c.

(** No block holds two rows that are coupled by a stored entry. *)
Definition independent_blocks (A : SparseMatrix R) : Prop :=
  forall i row c, (i < Z.to_nat (nblocks A))%nat ->
    (block_lo A i <= row < block_lo A i + block_len A i)%nat ->
    (block_lo A i <= c < block_lo A i + block_len A i)%nat ->
    ~ stored A row c.
End SweepSpec.

Section ZeroGuessSpec.
Context {R : Type} {HA : Arith R} {HE : ExactArith R}.

(** The diagonal value of a row, as the zero-guess kernels load it. *)
Definition diag_val (A : SparseMatrix R) (row : nat) : R :=
  ell_val A !!! (Z.to_nat (diag_idx A !!! row) * localNumberOfRows A + row)%nat.

(** [diag_idx] names the slot of the diagonal; the slots before it hold
    lower columns, the slots after it upper columns or padding; every
    stored column is a local row. *)
Record ell_ordered (A : SparseMatrix R) : Prop := {
  ord_diag : forall row, (row < localNumberOfRows A)%nat ->
    0 <= diag_idx A !!! row < Z.of_nat (ell_width A) /\
    ell_col_ind A !!! (Z.to_nat (diag_idx A !!! row) * localNumberOfRows A + row)%nat
    = Z.of_nat row;
  ord_lower : forall row p, (row < localNumberOfRows A)%nat ->
    (p < Z.to_nat (diag_idx A !!! row))%nat ->
    ell_col_ind A !!! (p * localNumberOfRows A + row)%nat < Z.of_nat row;
  ord_upper : forall row p, (row < localNumberOfRows A)%nat ->
    (Z.to_nat (diag_idx A !!! row) < p < ell_width A)%nat ->
    ell_col_ind A !!! (p * localNumberOfRows A + row)%nat < 0 \/
    Z.of_nat row < ell_col_ind A !!! (p * localNumberOfRows A + row)%nat;
  ord_range : forall row p, (row < localNumberOfRows A)%nat ->
    (p < ell_width A)%nat ->
    ell_col_ind A !!! (p * localNumberOfRows A + row)%nat
    < Z.of_nat (localNumberOfRows A)
}.

(** [inv_diag] holds the reciprocals of the non-zero diagonal values. *)
Definition reciprocal_diag (A : SparseMatrix R) : Prop :=
  forall row, (row < localNumberOfRows A)%nat ->
    diag_val A row <> zero /\ inv_diag A !!! row = div one (diag_val A row).

(** The values the zero-guess kernels store for [row]. *)
Definition forward_value_0 (m : nat) (off : Z) (ci : list Z) (cv : list R)
    (di : list Z) (x y : list R) (row : nat) : R :=
  div (forward_sum_0 m off ci cv x y (di !!! row) row)
      (cv !!! (Z.to_nat (di !!! row) * m + row)%nat).

Definition backward_value_0 (m : nat) (off : Z) (w : nat) (ci : list Z)
    (cv : list R) (di : list Z) (x : list R) (row : nat) : R :=
  div (backward_sum_0 m off w ci cv x (di !!! row) row
         (cv !!! (Z.to_nat (di !!! row) * m + row)%nat))
      (cv !!! (Z.to_nat (di !!! row) * m + row)%nat).

(** The rows of the blocks [0 .. k) still carry their forward sums. *)
Definition forward_kept (A : SparseMatrix R) (r X : list R) (k : nat) : Prop :=
  forall b row, (b < k)%nat ->
    (block_lo A b <= row < block_lo A b + block_len A b)%nat ->
    mul (X !!! row) (diag_val A row)
    = forward_sum_0 (localNumberOfRows A) (offsets A !!! b) (ell_col_ind A)
        (ell_val A) r X (diag_idx A !!! row) row.

(** After the blocks [0 .. k): the general vector [G] and the zero-guess
    vector [Z] agree on the rows done, and [G] is still zero elsewhere. *)
Definition forward_rel (A : SparseMatrix R) (G Z : list R) (k : nat) : Prop :=
  length G = localNumberOfColumns A /\ length Z = localNumberOfColumns A /\
  (forall c, (c < block_lo A k)%nat -> G !!! c = Z !!! c) /\
  (forall c, (block_lo A k <= c)%nat -> G !!! c = zero).

(** The rows of the blocks [0 .. k) hold their zero-guess forward values. *)
Definition forward_done (A : SparseMatrix R) (r X : list R) (k : nat) : Prop :=
  forall b row, (b < k)%nat ->
    (block_lo A b <= row < block_lo A b + block_len A b)%nat ->
    X !!! row
    = if decide (b = 0%nat) then mul (r !!! row) (inv_diag A !!! row)
      else forward_value_0 (localNumberOfRows A) (offsets A !!! b)
             (ell_col_ind A) (ell_val A) (diag_idx A) r X row.

Definition Rsum (l : list R) : R := foldr add zero l.

(** [sum over the slots p of val[p * m + row] * y[col[p * m + row]]]. *)
Definition slot_dot (m : nat) (ci : list Z) (cv y : list R) (row : nat)
    (slots : list nat) : R :=
  Rsum (map (fun p => mul (cv !!! (p * m + row)%nat)
                          (y !!! Z.to_nat (ci !!! (p * m + row)%nat))) slots).

(** The slots of a row that hold an off-diagonal entry with a column in
    [0, n). *)
Definition offdiag_slots (A : SparseMatrix R) (row : nat) : list nat :=
  List.filter
    (fun p => let col := ell_col_ind A !!! (p * localNumberOfRows A + row)%nat in
              (0 <=? col) && (col <? Z.of_nat (localNumberOfColumns A))
              && negb (col =? Z.of_nat row))
    (seq 0 (ell_width A)).

(** The off-diagonal slots whose column is below [off]: the reading in
    which a row of a block takes only the columns before its block. *)
Definition offdiag_slots_below (A : SparseMatrix R) (off : Z) (row : nat)
    : list nat :=
  List.filter
    (fun p => ell_col_ind A !!! (p * localNumberOfRows A + row)%nat <? off)
    (offdiag_slots A row).

(** The slots below the diagonal slot whose column is in [0, off). *)
Definition lower_slots (A : SparseMatrix R) (off : Z) (row : nat) : list nat :=
  List.filter
    (fun p => let col := ell_col_ind A !!! (p * localNumberOfRows A + row)%nat in
              (0 <=? col) && (col <? off))
    (seq 0 (Z.to_nat (diag_idx A !!! row))).

End ZeroGuessSpec.

End SYMGS.

(** ** Example inputs *)

Module Examples.
Import MultiColoring SYMGS.

(** A stream of [rand()] values: the listed values, then zeros. *)
Definition stream (values : list Z) (i : nat) : Z := nth i values 0.

(** Eight draws that name every palette colour once. *)
Definition palette_order : nat -> Z := stream [0; 7; 1; 2; 4; 3; 5; 6].

(** Two draws of the same palette colour. *)
Definition repeated_draw : nat -> Z := stream [3; 3].

Definition workspace0 : list Z := replicate 256 0.

(** Four rows, entries (0,1), (0,3), (1,2) and their mirror images, the
    diagonal at its place; three slots per row, row-major. *)
Definition grid_ind : list Z := [0; 1; 3;  0; 1; 2;  1; 2; -1;  0; 3; -1].
Definition grid_hash : list Z := [3; 1; 0; 2].

(** Three rows in a one-way cycle: row 0 stores column 1, row 1 column 2,
    row 2 column 0; two slots per row, no padding. *)
Definition cycle_ind : list Z := [0; 1;  1; 2;  2; 0].
Definition cycle_hash : list Z := [9; 5; 1].

(** Four rows, each storing all four columns. *)
Definition complete_ind : list Z :=
  [0; 1; 2; 3;  0; 1; 2; 3;  0; 1; 2; 3;  0; 1; 2; 3].
Definition complete_hash : list Z := [9; 1; 4; 5].

(** Twelve rows in a ring, each storing its two neighbours and itself,
    with hashes that grow along the ring: a round colours the two ends of
    what is left, so the loop runs six rounds. *)
Definition ring_ind : list Z :=
  [11; 0; 1;  0; 1; 2;  1; 2; 3;  2; 3; 4;  3; 4; 5;  4; 5; 6;
   5; 6; 7;  6; 7; 8;  7; 8; 9;  8; 9; 10;  9; 10; 11;  10; 11; 0].
Definition ring_hash : list Z := [1; 2; 3; 4; 5; 6; 7; 8; 9; 10; 11; 12].

(** Two joined rows with one hash. *)
Definition tie_ind : list Z := [0; 1;  0; 1].
Definition tie_hash : list Z := [5; 5].

Definition q (z : Z) : Qc := Q2Qc (inject_Z z).
Definition half : Qc := Q2Qc (1 # 2).

(** The matrix of [grid_ind] in ELL layout, 2 on the diagonal and -1
    elsewhere, with the given block tables. *)
Definition grid_matrix (perm0 : list Z) (nb ub : Z) (bsizes boffsets : list Z)
    : SparseMatrix Qc :=
  {| geom_size := 1;
     localNumberOfRows := 4;
     localNumberOfColumns := 4;
     numberOfNonzerosPerRow := 3;
     d_mtxIndL := grid_ind;
     d_rowHash := grid_hash;
     perm := perm0;
     nblocks := nb;
     ublocks := ub;
     sizes := bsizes;
     offsets := boffsets;
     ell_width := 3;
     ell_col_ind := [0; 0; 1; 0;  1; 1; 2; 3;  3; 2; -1; -1];
     ell_val := q <$> [2; -1; -1; -1;  -1; 2; 2; 2;  -1; -1; 0; 0];
     inv_diag := [half; half; half; half];
     diag_idx := [0; 1; 1; 1];
     halo_rows := 0;
     halo_row_ind := [];
     halo_col_ind := [];
     halo_val := [] |}.

(** Before colouring; as [JPLColoring] leaves it (see
    [JPLColoring_grid]); with the blocks {0}, {1}, {2, 3}. *)
Definition grid_uncoloured : SparseMatrix Qc := grid_matrix [] 0 0 [] [].
Definition grid_coloured : SparseMatrix Qc :=
  grid_matrix [0; 1; 2; 3] 4 2 [1; 2; 1; 0] [0; 1; 3; 4; 4].
Definition grid_blocked : SparseMatrix Qc :=
  grid_matrix [0; 1; 2; 3] 3 1 [1; 1; 2] [0; 1; 2; 4].

Definition ones : list Qc := q <$> [1; 1; 1; 1].
Definition zeros : list Qc := replicate 4 (Q2Qc 0).

(** Two local rows and one ghost column; halo row 0 belongs to local row
    [hrow], which stores the ghost column 2 with value -1. *)
Definition halo_matrix (hrow : Z) : SparseMatrix Qc :=
  {| geom_size := 2;
     localNumberOfRows := 2;
     localNumberOfColumns := 3;
     numberOfNonzerosPerRow := 1;
     d_mtxIndL := [0; 1];
     d_rowHash := [1; 2];
     perm := [0; 1];
     nblocks := 2;
     ublocks := 0;
     sizes := [1; 1];
     offsets := [0; 1; 2];
     ell_width := 1;
     ell_col_ind := [0; 1];
     ell_val := q <$> [2; 2];
     inv_diag := [half; half];
     diag_idx := [0; 0];
     halo_rows := 1;
     halo_row_ind := [hrow];
     halo_col_ind := [2];
     halo_val := [q (-1)] |}.

Definition halo_x : list Qc := q <$> [0; 0; 4].
End Examples.

(** ** Notions used to state further properties *)

(** The part of a key the radix sort looks at: its bits [0 .. n). *)
Definition key_bits (n : Z) (key : Z) : Z := key mod 2 ^ n.

(** The order of the sorted pairs: by the bits [0 .. n) of the key, pairs
    with the same bits by their value. *)
Definition sorts_before (n : Z) (p q : Z * Z) : Prop :=
  key_bits n p.1 < key_bits n q.1
  \/ (key_bits n p.1 = key_bits n q.1 /\ p.2 < q.2).

Section SlotSets.
Context {R : Type}.

(** The slots of a row that hold an off-diagonal entry with a local
    column, one in [0, m). *)
Definition local_offdiag_slots (A : SparseMatrix R) (row : nat) : list nat :=
  List.filter
    (fun p => let col := ell_col_ind A !!! (p * localNumberOfRows A + row)%nat in
              (0 <=? col) && (col <? Z.of_nat (localNumberOfRows A))
              && negb (col =? Z.of_nat row))
    (seq 0 (ell_width A)).

(** The slots above the diagonal slot whose column is in [off, m). *)
Definition upper_slots (A : SparseMatrix R) (off : Z) (row : nat) : list nat :=
  List.filter
    (fun p => let col := ell_col_ind A !!! (p * localNumberOfRows A + row)%nat in
              (off <=? col) && (col <? Z.of_nat (localNumberOfRows A)))
    (seq (Z.to_nat (diag_idx A !!! row + 1))
       (ell_width A - Z.to_nat (diag_idx A !!! row + 1))).
End SlotSets.

(** The slots below the diagonal slot that hold an entry, padding left
    out. *)
Definition below_diag_slots {R : Type} (A : SparseMatrix R) (row : nat) : list nat :=
  List.filter
    (fun p => 0 <=? ell_col_ind A !!! (p * localNumberOfRows A + row)%nat)
    (seq 0 (Z.to_nat (diag_idx A !!! row))).

(** * Properties *)

Import MultiColoring SYMGS.

Section LaunchFacts.
Context {A : Type} `{!Inhabited A}.
Implicit Types (mem acc : list A) (thread : nat -> list A -> option (nat * A)).

Lemma store_length acc w : length (store acc w) = length acc.
Proof. destruct w as [[i v]|]; simpl; [apply length_insert | reflexivity]. Qed.

Lemma launch_S n thread mem :
  launch (S n) thread mem = store (launch n thread mem) (thread n mem).
Proof. unfold launch. rewrite seq_S, fold_left_app. reflexivity. Qed.

Lemma launch_length n thread mem : length (launch n thread mem) = length mem.
Proof.
  induction n as [|n IH]; [reflexivity |].
  rewrite launch_S, store_length. exact IH.
Qed.

(** An element no thread stores to keeps its value. *)
Lemma launch_lookup_other n thread mem i :
  (forall gid v, (gid < n)%nat -> thread gid mem <> Some (i, v)) ->
  launch n thread mem !!! i = mem !!! i.
Proof.
  induction n as [|n IH]; intros Hno; [reflexivity |].
  rewrite launch_S.
  destruct (thread n mem) as [[j v]|] eqn:E; simpl.
  - rewrite list_lookup_total_insert_ne.
    + apply IH. intros gid v' Hlt. apply Hno. lia.
    + intros ->. apply (Hno n v); [lia | exact E].
  - apply IH. intros gid v' Hlt. apply Hno. lia.
Qed.

(** The element stored by exactly one thread holds that thread's value. *)
Lemma launch_lookup_stored n thread mem gid i v :
  (gid < n)%nat -> (i < length mem)%nat ->
  thread gid mem = Some (i, v) ->
  (forall gid' v', (gid' < n)%nat -> thread gid' mem = Some (i, v') -> gid' = gid) ->
  launch n thread mem !!! i = v.
Proof.
  induction n as [|n IH]; intros Hlt Hi Hth Huniq; [lia |].
  rewrite launch_S.
  destruct (Nat.eq_dec gid n) as [->|Hne].
  - rewrite Hth. simpl. apply list_lookup_total_insert_eq.
    rewrite launch_length. exact Hi.
  - destruct (thread n mem) as [[j w]|] eqn:E; simpl.
    + rewrite list_lookup_total_insert_ne.
      * apply IH; [lia | exact Hi | exact Hth |].
        intros gid' v' Hlt' Hth'. apply (Huniq gid' v'); [lia | exact Hth'].
      * intros ->. apply Hne. symmetry. apply (Huniq n w); [lia | exact E].
    + apply IH; [lia | exact Hi | exact Hth |].
      intros gid' v' Hlt' Hth'. apply (Huniq gid' v'); [lia | exact Hth'].
Qed.

(** Threads past a guard [gid >= k] that return at once can be dropped. *)
Lemma launch_guard n k thread mem :
  (k <= n)%nat ->
  (forall gid, (k <= gid)%nat -> thread gid mem = None) ->
  launch n thread mem = launch k thread mem.
Proof.
  intros Hle Hnone. induction n as [|n IH].
  - replace k with 0%nat by lia. reflexivity.
  - destruct (Nat.eq_dec k (S n)) as [->|Hne]; [reflexivity |].
    rewrite launch_S, Hnone by lia. simpl. apply IH. lia.
Qed.

Lemma launch_ext n thread thread' mem :
  (forall gid, (gid < n)%nat -> thread gid mem = thread' gid mem) ->
  launch n thread mem = launch n thread' mem.
Proof.
  induction n as [|n IH]; intros Hext; [reflexivity |].
  rewrite !launch_S, IH, Hext by (intros; apply Hext || idtac; lia). reflexivity.
Qed.
End LaunchFacts.

Lemma bigsum_ext g h n :
  (forall i, (i < n)%nat -> g i = h i) -> bigsum g n = bigsum h n.
Proof.
  induction n as [|n IH]; intros E; simpl; [reflexivity |].
  rewrite IH, E by (intros; try apply E; lia). reflexivity.
Qed.

Lemma bigsum_plus g h n :
  bigsum (fun i => g i + h i) n = bigsum g n + bigsum h n.
Proof. induction n as [|n IH]; simpl; lia. Qed.

Lemma bigsum_0 n : bigsum (fun _ => 0) n = 0.
Proof. induction n as [|n IH]; simpl; lia. Qed.

Lemma bigsum_app g n k :
  bigsum g (n + k) = bigsum g n + bigsum (fun i => g (n + i)%nat) k.
Proof.
  induction k as [|k IH]; simpl.
  - rewrite Nat.add_0_r. lia.
  - rewrite Nat.add_succ_r. simpl. rewrite IH. lia.
Qed.

(** A sum with one non-zero term. *)
Lemma bigsum_single g n j :
  (j < n)%nat -> bigsum (fun i => if (i =? j)%nat then g i else 0) n = g j.
Proof.
  induction n as [|n IH]; intros Hj; [lia |]. simpl.
  destruct (Nat.eqb_spec n j) as [->|Hne].
  - rewrite (bigsum_ext _ (fun _ => 0)), bigsum_0; [lia |].
    intros i Hi. destruct (Nat.eqb_spec i j); [lia | reflexivity].
  - rewrite IH by lia. lia.
Qed.

Lemma bigsum_swap (g : nat -> nat -> Z) n k :
  bigsum (fun i => bigsum (fun j => g i j) k) n
  = bigsum (fun j => bigsum (fun i => g i j) n) k.
Proof.
  induction n as [|n IH]; simpl.
  - symmetry. apply bigsum_0.
  - rewrite IH, <- bigsum_plus. reflexivity.
Qed.

(** Rows of a rectangle, one after the other. *)
Lemma bigsum_flatten g n k :
  bigsum (fun b => bigsum (fun t => g (b * k + t)%nat) k) n = bigsum g (n * k).
Proof.
  induction n as [|n IH]; simpl; [reflexivity |].
  rewrite IH. replace (k + n * k)%nat with (n * k + k)%nat by lia.
  rewrite bigsum_app. reflexivity.
Qed.


Lemma stride_sum_spec f size stride :
  (0 < stride)%nat ->
  forall fuel idx sum,
    (size <= idx + fuel * stride)%nat ->
    stride_sum fuel f size stride idx sum
    = sum + bigsum (fun j => if on_stride stride idx j then f j else 0) size.
Proof.
  intros Hs. induction fuel as [|fuel IH]; intros idx sum Hfuel; simpl.
  - rewrite (bigsum_ext _ (fun _ => 0)), bigsum_0; [lia |].
    intros j Hj. unfold on_stride.
    destruct (Nat.leb_spec idx j); [lia | reflexivity].
  - destruct (Nat.ltb_spec idx size) as [Hlt|Hge].
    + rewrite IH by lia.
      rewrite (bigsum_ext (fun j => if on_stride stride idx j then f j else 0)
                 (fun j => (if (j =? idx)%nat then f j else 0)
                           + (if on_stride stride (idx + stride) j then f j else 0))).
      * rewrite bigsum_plus, bigsum_single by lia. lia.
      * intros j Hj. unfold on_stride.
        destruct (Nat.eqb_spec j idx) as [->|Hne].
        -- rewrite Nat.leb_refl, Nat.sub_diag, Nat.Div0.mod_0_l. simpl.
           destruct (Nat.leb_spec (idx + stride) idx); [lia |]. simpl. lia.
        -- destruct (Nat.leb_spec idx j) as [Hle|Hgt]; simpl.
           ++ destruct (Nat.leb_spec (idx + stride) j) as [Hle'|Hgt']; simpl.
              ** replace (j - idx)%nat with ((j - (idx + stride)) + 1 * stride)%nat by lia.
                 rewrite Nat.Div0.mod_add. reflexivity.
              ** rewrite Nat.mod_small by lia.
                 destruct (Nat.eqb_spec (j - idx) 0); [lia | reflexivity].
           ++ destruct (Nat.leb_spec (idx + stride) j); [lia | reflexivity].
    + rewrite (bigsum_ext _ (fun _ => 0)), bigsum_0; [lia |].
      intros j Hj. unfold on_stride.
      destruct (Nat.leb_spec idx j); [lia | reflexivity].
Qed.

(** Every index lies on the stride of exactly one start below [stride]. *)
Lemma on_stride_unique stride j s :
  (0 < stride)%nat -> (s < stride)%nat ->
  on_stride stride s j = (s =? j mod stride)%nat.
Proof.
  intros Hs Hlt. unfold on_stride.
  destruct (Nat.eqb_spec s (j mod stride)) as [->|Hne].
  - pose proof (Nat.Div0.mod_le j stride) as Hle.
    destruct (Nat.leb_spec (j mod stride) j); [simpl | lia].
    apply Nat.eqb_eq.
    rewrite (Nat.div_mod_eq j stride) at 1.
    replace (stride * (j / stride) + j mod stride - j mod stride)%nat
      with ((j / stride) * stride)%nat by lia.
    apply Nat.Div0.mod_mul.
  - destruct (Nat.leb_spec s j) as [Hle|Hgt]; [simpl | reflexivity].
    apply Nat.eqb_neq. intros Hm. apply Hne.
    apply Nat.Lcm0.mod_divide in Hm. destruct Hm as [q Hq].
    replace j with (s + q * stride)%nat by lia.
    rewrite Nat.Div0.mod_add, Nat.mod_small by lia. reflexivity.
Qed.

Lemma stride_partition f size stride :
  (0 < stride)%nat ->
  bigsum (fun s => bigsum (fun j => if on_stride stride s j then f j else 0) size) stride
  = bigsum f size.
Proof.
  intros Hs. rewrite bigsum_swap. apply bigsum_ext. intros j Hj.
  rewrite (bigsum_ext _ (fun s => if (s =? j mod stride)%nat then f j else 0)).
  - apply (bigsum_single (fun _ => f j)). apply Nat.mod_upper_bound. lia.
  - intros s Hlt. rewrite on_stride_unique by lia. reflexivity.
Qed.

(** *** The block reduction *)

Lemma reduce_step_lookup B s (data : list Z) t :
  length data = B -> (t < B)%nat ->
  reduce_step B s data !!! t
  = if (t <? s)%nat && (t + s <? B)%nat
    then data !!! t + data !!! (t + s)%nat else data !!! t.
Proof.
  intros Hlen Ht. unfold reduce_step.
  destruct ((t <? s)%nat && (t + s <? B)%nat) eqn:E.
  - apply (launch_lookup_stored _ _ _ t); [exact Ht | lia | rewrite E; reflexivity |].
    intros gid' v' _ H.
    destruct ((gid' <? s)%nat && (gid' + s <? B)%nat); [| discriminate].
    congruence.
  - apply launch_lookup_other. intros gid v _ H.
    destruct ((gid <? s)%nat && (gid + s <? B)%nat) eqn:E'; [| discriminate].
    injection H as -> _. congruence.
Qed.

Lemma reduce_step_length B s (data : list Z) :
  length (reduce_step B s data) = length data.
Proof. apply launch_length. Qed.

Lemma reduce_step_sum B s (data : list Z) :
  length data = B -> (s + s <= B)%nat ->
  bigsum (fun t => reduce_step B s data !!! t) s
  = bigsum (fun t => data !!! t) (s + s).
Proof.
  intros Hlen Hs. rewrite bigsum_app, <- bigsum_plus.
  apply bigsum_ext. intros t Ht.
  rewrite reduce_step_lookup by lia.
  destruct (Nat.ltb_spec t s); [| lia].
  destruct (Nat.ltb_spec (t + s) B); [| lia].
  simpl. f_equal. f_equal. lia.
Qed.

Lemma reduce_sum_256 (data : list Z) :
  length data = 256%nat ->
  reduce_sum 256 data !!! 0%nat = bigsum (fun t => data !!! t) 256.
Proof.
  intros Hlen. unfold reduce_sum.
  assert (Hstep : forall s d, length d = 256%nat -> (s + s <= 256)%nat ->
            length (reduce_step 256 s d) = 256%nat /\
            bigsum (fun t => reduce_step 256 s d !!! t) s
            = bigsum (fun t => d !!! t) (s + s)).
  { intros s d Hd Hs. split; [rewrite reduce_step_length; exact Hd |].
    apply reduce_step_sum; assumption. }
  cbn [fold_left].
  change (512 <? 256)%nat with false. change (256 <? 256)%nat with false.
  change (128 <? 256)%nat with true. change (64 <? 256)%nat with true.
  change (32 <? 256)%nat with true. change (16 <? 256)%nat with true.
  change (8 <? 256)%nat with true. change (4 <? 256)%nat with true.
  change (2 <? 256)%nat with true. change (1 <? 256)%nat with true.
  cbv iota.
  destruct (Hstep 128%nat data Hlen ltac:(lia)) as [L1 S1].
  set (d1 := reduce_step 256 128 data) in *.
  destruct (Hstep 64%nat d1 L1 ltac:(lia)) as [L2 S2].
  set (d2 := reduce_step 256 64 d1) in *.
  destruct (Hstep 32%nat d2 L2 ltac:(lia)) as [L3 S3].
  set (d3 := reduce_step 256 32 d2) in *.
  destruct (Hstep 16%nat d3 L3 ltac:(lia)) as [L4 S4].
  set (d4 := reduce_step 256 16 d3) in *.
  destruct (Hstep 8%nat d4 L4 ltac:(lia)) as [L5 S5].
  set (d5 := reduce_step 256 8 d4) in *.
  destruct (Hstep 4%nat d5 L5 ltac:(lia)) as [L6 S6].
  set (d6 := reduce_step 256 4 d5) in *.
  destruct (Hstep 2%nat d6 L6 ltac:(lia)) as [L7 S7].
  set (d7 := reduce_step 256 2 d6) in *.
  destruct (Hstep 1%nat d7 L7 ltac:(lia)) as [L8 S8].
  set (d8 := reduce_step 256 1 d7) in *.
  change (d8 !!! 0%nat) with (0 + d8 !!! 0%nat).
  change (0 + d8 !!! 0%nat) with (bigsum (fun t => d8 !!! t) 1).
  rewrite S8. change (1 + 1)%nat with 2%nat. rewrite S7.
  change (2 + 2)%nat with 4%nat. rewrite S6.
  change (4 + 4)%nat with 8%nat. rewrite S5.
  change (8 + 8)%nat with 16%nat. rewrite S4.
  change (16 + 16)%nat with 32%nat. rewrite S3.
  change (32 + 32)%nat with 64%nat. rewrite S2.
  change (64 + 64)%nat with 128%nat. rewrite S1.
  reflexivity.
Qed.

(** *** The two counting launches *)


Lemma part1_lookup m color colors (ws : list Z) b :
  (256 <= length ws)%nat -> (b < 256)%nat ->
  kernel_count_color_part1 256 256 m color colors ws !!! b
  = bigsum (fun tid =>
      bigsum (fun j => if on_stride (256 * 256) (b * 256 + tid) j
                       then (if colors !!! j =? color then 1 else 0) else 0) m) 256.
Proof.
  intros Hws Hb. unfold kernel_count_color_part1.
  erewrite (launch_lookup_stored _ _ _ b); [| exact Hb | lia | reflexivity |].
  - rewrite reduce_sum_256 by (rewrite length_fmap, length_seq; reflexivity).
    apply bigsum_ext. intros tid Htid.
    rewrite (list_lookup_total_fmap _ (seq 0 256) tid)
      by (rewrite length_seq; exact Htid).
    rewrite lookup_total_seq_lt by exact Htid.
    rewrite stride_sum_spec by lia. rewrite Nat.add_0_l. lia.
  - intros gid' v' _ H. congruence.
Qed.

Lemma part1_length m color colors (ws : list Z) :
  length (kernel_count_color_part1 256 256 m color colors ws) = length ws.
Proof. apply launch_length. Qed.

Lemma part2_lookup (ws : list Z) :
  (256 <= length ws)%nat ->
  kernel_count_color_part2 256 256 ws !!! 0%nat = bigsum (fun t => ws !!! t) 256.
Proof.
  intros Hws. unfold kernel_count_color_part2.
  rewrite list_lookup_total_insert_eq by lia.
  rewrite reduce_sum_256 by (rewrite length_fmap, length_seq; reflexivity).
  apply bigsum_ext. intros tid Htid.
  rewrite (list_lookup_total_fmap _ (seq 0 256) tid)
    by (rewrite length_seq; exact Htid).
  rewrite lookup_total_seq_lt by exact Htid.
  rewrite stride_sum_spec by lia. rewrite Nat.add_0_l, Z.add_0_l.
  rewrite (bigsum_ext _ (fun j => if (j =? tid)%nat then ws !!! j else 0)).
  - apply bigsum_single. exact Htid.
  - intros j Hj. rewrite on_stride_unique by lia.
    rewrite (Nat.mod_small j) by lia. rewrite Nat.eqb_sym. reflexivity.
Qed.

Lemma count_color_spec m color colors (ws : list Z) :
  (256 <= length ws)%nat ->
  fst (count_color m color colors ws) = count_rows color colors m
  /\ length (snd (count_color m color colors ws)) = length ws.
Proof.
  intros Hws. unfold count_color. cbn [fst snd]. split.
  - rewrite part2_lookup by (rewrite part1_length; exact Hws).
    rewrite (bigsum_ext _ _ 256 (fun b Hb => part1_lookup m color colors ws b Hws Hb)).
    rewrite (bigsum_flatten
               (fun gid => bigsum (fun j => if on_stride (256 * 256) gid j
                  then (if colors !!! j =? color then 1 else 0) else 0) m) 256 256).
    apply stride_partition. lia.
  - unfold kernel_count_color_part2. rewrite length_insert, part1_length.
    reflexivity.
Qed.

(** *** The colouring kernel, row by row *)

Section Kernel.
Variable m : nat.
Variable hash : list Z.
Variables color1 color2 : Z.
Variable bdx : nat.
Variable mtxIndL : list Z.

#[local] Abbreviation neighbour := (neighbour m bdx mtxIndL).
#[local] Abbreviation compared := (compared color1 color2).
#[local] Abbreviation strict_local_max :=
  (strict_local_max m hash color1 color2 bdx mtxIndL).
#[local] Abbreviation strict_local_min :=
  (strict_local_min m hash color1 color2 bdx mtxIndL).

Lemma jpl_flags_prefix colors row k :
  (row < m)%nat ->
  let fl := fold_left
              (fun fl tx => jpl_neighbour m hash color1 color2 bdx mtxIndL colors row tx fl)
              (seq 0 k) (true, true) in
  (fl.1 = true <->
     forall tx c, (tx < k)%nat -> mtxIndL !!! (row * bdx + tx)%nat = Z.of_nat c ->
       (c < m)%nat -> c <> row -> compared colors c -> hash !!! row < hash !!! c)
  /\ (fl.2 = true <->
     forall tx c, (tx < k)%nat -> mtxIndL !!! (row * bdx + tx)%nat = Z.of_nat c ->
       (c < m)%nat -> c <> row -> compared colors c -> hash !!! c < hash !!! row).
Proof.
  intros Hrow. induction k as [|k IH].
  - simpl. split; (split; [intros _ tx c Hlt; lia | reflexivity]).
  - rewrite seq_S, fold_left_app. cbn [fold_left]. cbn zeta in IH.
    destruct (fold_left _ (seq 0 k) (true, true)) as [mn mx].
    cbn [fst snd] in IH. destruct IH as [IHmn IHmx].
    rewrite Nat.add_0_l. unfold jpl_neighbour.
    set (col := mtxIndL !!! (row * bdx + k)%nat).
    assert (Hstep : forall (P : nat -> Prop) (b : bool),
              (b = true <-> forall tx c, (tx < k)%nat ->
                 mtxIndL !!! (row * bdx + tx)%nat = Z.of_nat c ->
                 (c < m)%nat -> c <> row -> compared colors c -> P c) ->
              forall b' : bool,
              (b' = true <-> (b = true /\
                 forall c, col = Z.of_nat c -> (c < m)%nat -> c <> row ->
                           compared colors c -> P c)) ->
              (b' = true <-> forall tx c, (tx < S k)%nat ->
                 mtxIndL !!! (row * bdx + tx)%nat = Z.of_nat c ->
                 (c < m)%nat -> c <> row -> compared colors c -> P c)).
    { intros P b Hb b' Hb'. rewrite Hb'. rewrite Hb. split.
      - intros [Hk Hlast] tx c Htx. destruct (Nat.eq_dec tx k) as [->|Hne].
        + apply Hlast.
        + apply Hk. lia.
      - intros Hall. split.
        + intros tx c Htx. apply Hall. lia.
        + intros c. apply (Hall k c). lia. }
    destruct ((0 <=? col) && (col <? Z.of_nat m)) eqn:Erange.
    + apply andb_true_iff in Erange. destruct Erange as [H0 Hm].
      apply Z.leb_le in H0. apply Z.ltb_lt in Hm.
      destruct (Z.eqb_spec col (Z.of_nat row)) as [Hdiag|Hoff]; cbn [negb].
      * cbn [fst snd]. split.
        -- apply (Hstep _ mn IHmn). split; [intros ->; split; [reflexivity|] | tauto].
           intros c Hc _ Hne. exfalso. apply Hne. lia.
        -- apply (Hstep _ mx IHmx). split; [intros ->; split; [reflexivity|] | tauto].
           intros c Hc _ Hne. exfalso. apply Hne. lia.
      * set (cn := colors !!! Z.to_nat col).
        destruct ((cn =? -1) || (cn =? color1) || (cn =? color2)) eqn:Ecmp.
        -- assert (Hcmp : compared colors (Z.to_nat col)).
           { unfold compared. fold cn.
             apply orb_true_iff in Ecmp. destruct Ecmp as [Ecmp|Ecmp].
             - apply orb_true_iff in Ecmp. destruct Ecmp as [E|E];
                 apply Z.eqb_eq in E; tauto.
             - apply Z.eqb_eq in Ecmp. tauto. }
           cbn [fst snd]. split.
           ++ apply (Hstep _ mn IHmn).
              destruct (Z.leb_spec (hash !!! Z.to_nat col) (hash !!! row)) as [Hle|Hgt].
              ** split; [discriminate |]. intros [_ Hlast]. exfalso.
                 specialize (Hlast (Z.to_nat col)).
                 rewrite Z2Nat.id in Hlast by lia.
                 specialize (Hlast eq_refl ltac:(lia) ltac:(lia) Hcmp). lia.
              ** split; [intros ->; split; [reflexivity|] | tauto].
                 intros c Hc _ _ _. replace c with (Z.to_nat col) by lia. lia.
           ++ apply (Hstep _ mx IHmx).
              destruct (Z.geb_spec (hash !!! Z.to_nat col) (hash !!! row)) as [Hge|Hlt].
              ** split; [discriminate |]. intros [_ Hlast]. exfalso.
                 specialize (Hlast (Z.to_nat col)).
                 rewrite Z2Nat.id in Hlast by lia.
                 specialize (Hlast eq_refl ltac:(lia) ltac:(lia) Hcmp). lia.
              ** split; [intros ->; split; [reflexivity|] | tauto].
                 intros c Hc _ _ _. replace c with (Z.to_nat col) by lia. lia.
        -- assert (Hcmp : ~ compared colors (Z.to_nat col)).
           { unfold compared. fold cn.
             apply orb_false_iff in Ecmp. destruct Ecmp as [Ecmp E3].
             apply orb_false_iff in Ecmp. destruct Ecmp as [E1 E2].
             apply Z.eqb_neq in E1, E2, E3. tauto. }
           cbn [fst snd]. split.
           ++ apply (Hstep _ mn IHmn). split; [intros ->; split; [reflexivity|] | tauto].
              intros c Hc _ _ Hc'. exfalso. apply Hcmp.
              replace (Z.to_nat col) with c by lia. exact Hc'.
           ++ apply (Hstep _ mx IHmx). split; [intros ->; split; [reflexivity|] | tauto].
              intros c Hc _ _ Hc'. exfalso. apply Hcmp.
              replace (Z.to_nat col) with c by lia. exact Hc'.
    + cbn [fst snd].
      assert (Hout : forall c, col = Z.of_nat c -> (c < m)%nat -> False).
      { intros c Hc Hlt. apply andb_false_iff in Erange.
        destruct Erange as [E|E]; [apply Z.leb_gt in E | apply Z.ltb_ge in E]; lia. }
      split.
      * apply (Hstep _ mn IHmn). split; [intros ->; split; [reflexivity|] | tauto].
        intros c Hc Hlt. exfalso. eauto.
      * apply (Hstep _ mx IHmx). split; [intros ->; split; [reflexivity|] | tauto].
        intros c Hc Hlt. exfalso. eauto.
Qed.

Lemma jpl_flags_spec colors row :
  (row < m)%nat ->
  ((jpl_flags m hash color1 color2 bdx mtxIndL colors row).1 = true
     <-> strict_local_min colors row)
  /\ ((jpl_flags m hash color1 color2 bdx mtxIndL colors row).2 = true
     <-> strict_local_max colors row).
Proof.
  intros Hrow. destruct (jpl_flags_prefix colors row bdx Hrow) as [Hmn Hmx].
  unfold jpl_flags. split.
  - rewrite Hmn. unfold strict_local_min, neighbour. split.
    + intros H c (_ & Hc & Hne & tx & Htx & Hcol). eauto.
    + intros H tx c Htx Hcol Hc Hne. apply H. eauto 10.
  - rewrite Hmx. unfold strict_local_max, neighbour. split.
    + intros H c (_ & Hc & Hne & tx & Htx & Hcol). eauto.
    + intros H tx c Htx Hcol Hc Hne. apply H. eauto 10.
Qed.
End Kernel.

(** *** The launch geometry of [kernel_jpl] *)

Lemma jpl_blocksize_pos nnz : 1 <= nnz <= 512 -> 1 <= jpl_blocksize nnz.
Proof.
  intros Hn.
  assert (Hall : forallb (fun k => 1 <=? jpl_blocksize k) (seqZ 1 512) = true)
    by (vm_compute; reflexivity).
  rewrite forallb_forall in Hall.
  apply Z.leb_le, Hall, list_elem_of_In, elem_of_seqZ. lia.
Qed.

Lemma jpl_grid_rows_ge m nnz : 1 <= nnz <= 512 -> (m <= jpl_grid_rows m nnz)%nat.
Proof.
  intros Hn. pose proof (jpl_blocksize_pos nnz Hn) as Hb.
  unfold jpl_grid_rows. set (bs := jpl_blocksize nnz) in *.
  destruct m as [|m]; [lia |].
  assert (Hq : Z.of_nat (S m) - 1 < (Z.quot (Z.of_nat (S m) - 1) bs + 1) * bs).
  { rewrite Z.quot_div_nonneg by lia.
    pose proof (Z.div_mod (Z.of_nat (S m) - 1) bs ltac:(lia)).
    pose proof (Z.mod_pos_bound (Z.of_nat (S m) - 1) bs ltac:(lia)). nia. }
  lia.
Qed.

Section KernelLaunch.
Variable m : nat.
Variable hash : list Z.
Variables color1 color2 : Z.
Variable bdx : nat.
Variable mtxIndL : list Z.

Lemma jpl_row_index row colors i v :
  jpl_row m hash color1 color2 bdx mtxIndL row colors = Some (i, v) -> i = row.
Proof.
  unfold jpl_row. destruct (m <=? row)%nat; [discriminate |].
  destruct (negb _); [discriminate |].
  destruct (jpl_flags _ _ _ _ _ _ _ _) as [mn mx].
  destruct mx; [congruence |]. destruct mn; [congruence | discriminate].
Qed.

Lemma kernel_jpl_lookup rows colors row :
  (m <= rows)%nat -> length colors = m ->
  kernel_jpl rows m hash color1 color2 bdx mtxIndL colors !!! row
  = jpl_new_color m hash color1 color2 bdx mtxIndL colors row.
Proof.
  intros Hrows Hlen. unfold kernel_jpl, jpl_new_color.
  destruct (jpl_row m hash color1 color2 bdx mtxIndL row colors) as [[i v]|] eqn:E.
  - pose proof (jpl_row_index _ _ _ _ E) as ->.
    assert (Hlt : (row < m)%nat).
    { unfold jpl_row in E. destruct (Nat.leb_spec m row); [discriminate | lia]. }
    apply (launch_lookup_stored _ _ _ row); [lia | lia | exact E |].
    intros gid' v' _ H. apply jpl_row_index in H. congruence.
  - apply launch_lookup_other. intros gid v _ H.
    pose proof (jpl_row_index _ _ _ _ H) as <-. congruence.
Qed.

Lemma kernel_jpl_length rows colors :
  length (kernel_jpl rows m hash color1 color2 bdx mtxIndL colors) = length colors.
Proof. apply launch_length. Qed.

(** The new colour of a row in terms of the two local extremum tests. *)
Lemma jpl_new_color_cases colors row :
  (row < m)%nat ->
  let c' := jpl_new_color m hash color1 color2 bdx mtxIndL colors row in
  (colors !!! row <> -1 /\ c' = colors !!! row)
  \/ (colors !!! row = -1 /\
      ((strict_local_max m hash color1 color2 bdx mtxIndL colors row /\ c' = color1)
       \/ (~ strict_local_max m hash color1 color2 bdx mtxIndL colors row /\
           strict_local_min m hash color1 color2 bdx mtxIndL colors row /\ c' = color2)
       \/ (~ strict_local_max m hash color1 color2 bdx mtxIndL colors row /\
           ~ strict_local_min m hash color1 color2 bdx mtxIndL colors row /\ c' = -1))).
Proof.
  intros Hrow. unfold jpl_new_color, jpl_row.
  destruct (Nat.leb_spec m row); [lia |].
  destruct (Z.eqb_spec (colors !!! row) (-1)) as [Hun|Hcol]; cbn [negb].
  - right. split; [exact Hun |].
    destruct (jpl_flags_spec m hash color1 color2 bdx mtxIndL colors row Hrow)
      as [Hmn Hmx].
    destruct (jpl_flags _ _ _ _ _ _ _ _) as [mn mx]. cbn [fst snd] in *.
    destruct mx.
    + left. split; [apply Hmx | ]; reflexivity.
    + right. assert (Hnmax : ~ strict_local_max m hash color1 color2 bdx mtxIndL colors row)
        by (intros H'; apply Hmx in H'; discriminate).
      destruct mn.
      * left. split; [exact Hnmax |]. split; [apply Hmn |]; reflexivity.
      * right. split; [exact Hnmax |]. split; [| exact Hun].
        intros H'; apply Hmn in H'; discriminate.
  - left. split; [exact Hcol | reflexivity].
Qed.
End KernelLaunch.

(** *** Invariants of the round loop *)

Lemma Zsum_app l k : Zsum (l ++ k) = Zsum l + Zsum k.
Proof. induction l as [|a l IH]; simpl; [reflexivity | rewrite IH; lia]. Qed.

Lemma distinct_draws_le rand n k :
  (k <= n)%nat -> distinct_draws rand n -> distinct_draws rand k.
Proof.
  unfold distinct_draws. intros Hle Hn.
  replace n with (k + (n - k))%nat in Hn by lia.
  rewrite seq_app, fmap_app in Hn. apply NoDup_app in Hn. tauto.
Qed.

Lemma distinct_draws_ne rand n i j :
  distinct_draws rand n -> (i < n)%nat -> (j < n)%nat -> i <> j ->
  draw rand i <> draw rand j.
Proof.
  unfold distinct_draws. intros Hn Hi Hj Hne Heq. apply Hne.
  apply (NoDup_lookup _ i j (draw rand i) Hn).
  - rewrite list_lookup_fmap, lookup_seq_lt by lia. reflexivity.
  - rewrite list_lookup_fmap, lookup_seq_lt by lia. simpl. congruence.
Qed.

Lemma draw_range rand i : 0 <= rand i -> 0 <= draw rand i < 8.
Proof. intros H. unfold draw. apply Z.rem_bound_pos; lia. Qed.

(** *** Counting coloured rows *)

Lemma coloured_rows_le (cs : list Z) k : coloured_rows cs k <= Z.of_nat k.
Proof.
  unfold coloured_rows. induction k as [|k IH]; cbn [bigsum]; [lia |].
  destruct (cs !!! k =? -1); lia.
Qed.

Lemma coloured_rows_all (cs : list Z) k :
  coloured_rows cs k = Z.of_nat k -> forall i, (i < k)%nat -> cs !!! i <> -1.
Proof.
  unfold coloured_rows. induction k as [|k IH]; cbn [bigsum]; intros E i Hi; [lia |].
  pose proof (coloured_rows_le cs k) as Hle. unfold coloured_rows in Hle.
  destruct (Z.eqb_spec (cs !!! k) (-1)) as [E1|E1]; [lia |].
  destruct (Nat.eq_dec i k) as [->|Hne]; [exact E1 |].
  apply IH; lia.
Qed.

Lemma bigsum_le g h k :
  (forall i, (i < k)%nat -> g i <= h i) -> bigsum g k <= bigsum h k.
Proof.
  induction k as [|k IH]; intros H; cbn [bigsum]; [lia |].
  specialize (H k ltac:(lia)) as Hk.
  assert (bigsum g k <= bigsum h k) by (apply IH; intros; apply H; lia). lia.
Qed.

Lemma bigsum_lt g h k r :
  (forall i, (i < k)%nat -> g i <= h i) -> (r < k)%nat -> g r < h r ->
  bigsum g k < bigsum h k.
Proof.
  induction k as [|k IH]; intros H Hr Hlt; cbn [bigsum]; [lia |].
  specialize (H k ltac:(lia)) as Hk.
  destruct (Nat.eq_dec r k) as [->|Hne].
  - assert (bigsum g k <= bigsum h k) by (apply bigsum_le; intros; apply H; lia). lia.
  - assert (bigsum g k < bigsum h k) by (apply IH; [intros; apply H |..]; lia). lia.
Qed.

Lemma uncoloured_exists (cs : list Z) k :
  coloured_rows cs k <> Z.of_nat k -> exists i, (i < k)%nat /\ cs !!! i = -1.
Proof.
  unfold coloured_rows. induction k as [|k IH]; cbn [bigsum]; intros H; [lia |].
  destruct (Z.eqb_spec (cs !!! k) (-1)) as [E|E].
  - exists k. split; [lia | exact E].
  - destruct IH as (i & Hi & Ei); [lia |]. exists i. split; [lia | exact Ei].
Qed.

Lemma classic_uncoloured (cs : list Z) k :
  (exists i, (i < k)%nat /\ cs !!! i = -1)
  \/ (forall i, (i < k)%nat -> cs !!! i = -1 -> False).
Proof.
  induction k as [|k IH].
  - right. intros i Hi. lia.
  - destruct IH as [(i & Hi & Ei)|Hnone].
    + left. exists i. split; [lia | exact Ei].
    + destruct (Z.eqb_spec (cs !!! k) (-1)) as [E|E].
      * left. exists k. split; [lia | exact E].
      * right. intros i Hi Ei. destruct (Nat.eq_dec i k) as [->|Hne]; [tauto |].
        apply (Hnone i); [lia | exact Ei].
Qed.

Section Rounds.
Variable rand : nat -> Z.
Variable MAX_COLORS : Z.
Variable m : nat.
Variable nnz : nat.
Variable hash : list Z.
Variable ind : list Z.

Hypothesis nnz_range : 1 <= Z.of_nat nnz <= 512.
Hypothesis rand_nonneg : forall i, 0 <= rand i.

#[local] Abbreviation round := (jpl_round rand m nnz hash ind).
#[local] Abbreviation rcolors := (round_colors rand).

#[local] Abbreviation used := (used rand).
#[local] Abbreviation jpl_inv := (jpl_inv rand m).
#[local] Abbreviation color1_of := (color1_of rand).
#[local] Abbreviation color2_of := (color2_of rand).
#[local] Abbreviation symmetric_adjacency := (symmetric_adjacency m nnz ind).
#[local] Abbreviation proper_so_far := (proper_so_far m nnz ind).
#[local] Abbreviation distinct_neighbour_hashes :=
  (distinct_neighbour_hashes m nnz hash ind).

Lemma round_fields st :
  let c1 := color1_of st in
  let c2 := color2_of st in
  let colors' := kernel_jpl (jpl_grid_rows m (Z.of_nat nnz)) m hash c1 c2 nnz ind
                   (colors st) in
  let cc1 := count_color m c1 colors' (tmp st) in
  let cc2 := count_color m c2 colors' cc1.2 in
  round st =
  {| colors := colors';
     st_nblocks := st_nblocks st + 2;
     colored := colored st + cc1.1 + cc2.1;
     st_sizes := st_sizes st ++ [cc1.1; cc2.1];
     st_offsets := st_offsets st ++ [colored st + cc1.1; colored st + cc1.1 + cc2.1];
     tmp := cc2.2;
     rng := (rng st + (rcolors st).2)%nat |}.
Proof.
  unfold jpl_round, color1_of, color2_of.
  destruct (rcolors st) as [[c1 c2] d]. cbn [fst snd].
  destruct (count_color m c1 _ (tmp st)) as [s1 t1]. cbn [fst snd].
  destruct (count_color m c2 _ t1) as [s2 t2]. reflexivity.
Qed.

Lemma round_rng_le st : (rng st <= rng (round st))%nat.
Proof. rewrite round_fields. cbn [rng]. lia. Qed.

Lemma round_colors_fresh st :
  jpl_inv st -> distinct_draws rand (rng (round st)) ->
  color1_of st <> color2_of st /\ 0 <= color1_of st /\ 0 <= color2_of st
  /\ ~ used st (color1_of st) /\ ~ used st (color2_of st)
  /\ used (round st) (color1_of st) /\ used (round st) (color2_of st).
Proof.
  intros Hinv Hd. rewrite round_fields in *. cbn [rng st_nblocks] in *.
  unfold color1_of, color2_of, used, round_colors in *. cbn [rng st_nblocks].
  pose proof (inv_rng Hinv) as Hrng. pose proof (inv_nb Hinv) as Hnb.
  destruct (Z.ltb_spec (st_nblocks st) 8) as [Hlt|Hge]; cbn [fst snd] in *.
  - fold (draw rand (rng st)). fold (draw rand (S (rng st))).
    pose proof (draw_range rand (rng st) (rand_nonneg _)).
    pose proof (draw_range rand (S (rng st)) (rand_nonneg _)).
    repeat split; try lia.
    + apply (distinct_draws_ne rand _ _ _ Hd); lia.
    + intros [Hc|(i & Hi & Hc)]; [lia |].
      revert Hc. apply (distinct_draws_ne rand _ _ _ Hd); lia.
    + intros [Hc|(i & Hi & Hc)]; [lia |].
      revert Hc. apply (distinct_draws_ne rand _ _ _ Hd); lia.
    + right. exists (rng st). split; [lia | reflexivity].
    + right. exists (S (rng st)). split; [lia | reflexivity].
  - repeat split; try lia.
    + intros [Hc|(i & Hi & Hc)]; [lia |].
      pose proof (draw_range rand i (rand_nonneg _)). lia.
    + intros [Hc|(i & Hi & Hc)]; [lia |].
      pose proof (draw_range rand i (rand_nonneg _)). lia.
Qed.

Lemma used_mono st c : used st c -> used (round st) c.
Proof.
  rewrite round_fields. unfold used. cbn [rng st_nblocks].
  intros [Hc|(i & Hi & Hc)]; [left; lia | right; exists i; split; [lia | exact Hc]].
Qed.

Lemma round_color_lookup st i :
  length (colors st) = m ->
  colors (round st) !!! i
  = jpl_new_color m hash (color1_of st) (color2_of st) nnz ind (colors st) i.
Proof.
  intros Hlen. rewrite round_fields. cbn [colors].
  apply kernel_jpl_lookup; [apply jpl_grid_rows_ge; exact nnz_range | exact Hlen].
Qed.

(** What a round does to the colour of one row. *)
Lemma round_color_cases st i :
  jpl_inv st -> (i < m)%nat ->
  let c' := colors (round st) !!! i in
  (colors st !!! i <> -1 /\ c' = colors st !!! i)
  \/ (colors st !!! i = -1 /\
      ((strict_local_max m hash (color1_of st) (color2_of st) nnz ind (colors st) i
        /\ c' = color1_of st)
       \/ (~ strict_local_max m hash (color1_of st) (color2_of st) nnz ind (colors st) i
           /\ strict_local_min m hash (color1_of st) (color2_of st) nnz ind (colors st) i
           /\ c' = color2_of st)
       \/ (~ strict_local_max m hash (color1_of st) (color2_of st) nnz ind (colors st) i
           /\ ~ strict_local_min m hash (color1_of st) (color2_of st) nnz ind (colors st) i
           /\ c' = -1))).
Proof.
  intros Hinv Hi. cbn zeta. rewrite round_color_lookup by apply Hinv.
  apply jpl_new_color_cases. exact Hi.
Qed.

Lemma round_inv st :
  jpl_inv st -> distinct_draws rand (rng (round st)) -> jpl_inv (round st).
Proof.
  intros Hinv Hd.
  destruct (round_colors_fresh st Hinv Hd)
    as (Hne & H1 & H2 & Hf1 & Hf2 & Hu1 & Hu2).
  assert (Hcases := fun i => round_color_cases st i Hinv).
  assert (Hold : forall i, (i < m)%nat -> colors st !!! i <> color1_of st
                                         /\ colors st !!! i <> color2_of st).
  { intros i Hi. destruct (inv_used Hinv i Hi) as [E|E].
    - rewrite E. lia.
    - split; intros E'; rewrite E' in E; tauto. }
  assert (Hlen' : length (colors (round st)) = m).
  { rewrite round_fields. cbn [colors]. rewrite kernel_jpl_length. apply Hinv. }
  assert (Hcnt : colored (round st) = coloured_rows (colors (round st)) m).
  { rewrite round_fields at 1. cbn [colored].
    destruct (count_color_spec m (color1_of st) (colors (round st)) (tmp st)
                (inv_tmp Hinv)) as [E1 L1].
    rewrite round_fields in E1, L1 at 1. cbn [colors] in E1, L1.
    rewrite E1.
    match goal with |- context [count_color m (color2_of st) ?cs ?t] =>
      destruct (count_color_spec m (color2_of st) cs t) as [E2 L2] end.
    { rewrite L1. apply Hinv. }
    rewrite E2. fold (colors (round st)).
    replace (kernel_jpl (jpl_grid_rows m (Z.of_nat nnz)) m hash
               (color1_of st) (color2_of st) nnz ind (colors st))
      with (colors (round st)) by (rewrite round_fields; reflexivity).
    rewrite (inv_colored Hinv). unfold coloured_rows, count_rows.
    rewrite <- !bigsum_plus. apply bigsum_ext. intros i Hi.
    specialize (Hcases i Hi). cbn zeta in Hcases.
    specialize (Hold i Hi).
    destruct Hcases as [[Hc E]|[Hc [[_ E]|[(_ & _ & E)|(_ & _ & E)]]]];
      rewrite E.
    all: try rewrite Hc.
    all: repeat match goal with
                | |- context [Z.eqb ?a ?b] => destruct (Z.eqb_spec a b)
                end; lia. }
  split.
  - exact Hlen'.
  - rewrite round_fields. cbn [tmp].
    match goal with |- context [count_color m (color2_of st) ?cs ?t] =>
      destruct (count_color_spec m (color2_of st) cs t) as [_ L2] end.
    + destruct (count_color_spec m (color1_of st)
                  (kernel_jpl (jpl_grid_rows m (Z.of_nat nnz)) m hash
                     (color1_of st) (color2_of st) nnz ind (colors st)) (tmp st)
                  (inv_tmp Hinv)) as [_ L1].
      rewrite L1. apply Hinv.
    + rewrite L2.
      destruct (count_color_spec m (color1_of st)
                  (kernel_jpl (jpl_grid_rows m (Z.of_nat nnz)) m hash
                     (color1_of st) (color2_of st) nnz ind (colors st)) (tmp st)
                  (inv_tmp Hinv)) as [_ L1].
      rewrite L1. apply Hinv.
  - rewrite round_fields. cbn [st_nblocks]. pose proof (inv_nb Hinv). lia.
  - rewrite round_fields. cbn [st_nblocks].
    rewrite Z.even_add, (inv_even Hinv). reflexivity.
  - rewrite round_fields. cbn [st_nblocks rng].
    pose proof (inv_nb Hinv). rewrite (inv_rng Hinv).
    unfold round_colors.
    destruct (Z.ltb_spec (st_nblocks st) 8); cbn [snd].
    + assert (Hev : st_nblocks st <> 7).
      { intros E7. pose proof (inv_even Hinv) as Hev. rewrite E7 in Hev.
        discriminate. }
      lia.
    + lia.
  - intros i Hi. specialize (Hcases i Hi). cbn zeta in Hcases.
    destruct Hcases as [[Hc E]|[Hc [[_ E]|[(_ & _ & E)|(_ & _ & E)]]]];
      rewrite E.
    + right. destruct (inv_used Hinv i Hi); [tauto |]. apply used_mono. assumption.
    + right. exact Hu1.
    + right. exact Hu2.
    + left. reflexivity.
  - exact Hcnt.
  - rewrite round_fields. cbn [st_sizes colored]. rewrite Zsum_app.
    rewrite (inv_sizes Hinv). unfold Zsum. cbn [foldr]. lia.
Qed.

Lemma init_inv ws : (256 <= length ws)%nat -> jpl_inv (jpl_init m ws).
Proof.
  clear nnz_range rand_nonneg. intros Hws. split; cbn [jpl_init colors tmp st_nblocks rng colored st_sizes].
  - apply length_replicate.
  - exact Hws.
  - lia.
  - reflexivity.
  - reflexivity.
  - intros i Hi. left.
    rewrite (list_lookup_total_correct _ _ (-1)); [reflexivity |].
    apply lookup_replicate_2. exact Hi.
  - unfold coloured_rows. rewrite (bigsum_ext _ (fun _ => 0)), bigsum_0; [reflexivity |].
    intros i Hi. rewrite (list_lookup_total_correct _ _ (-1)); [reflexivity |].
    apply lookup_replicate_2. exact Hi.
  - reflexivity.
Qed.

#[local] Abbreviation loop := (jpl_loop rand MAX_COLORS m nnz hash ind).

Lemma loop_rng_le rounds : forall st st',
  loop rounds st = Exited st' -> (rng st <= rng st')%nat.
Proof.
  induction rounds as [|n IH]; intros st st' H; cbn [jpl_loop] in H.
  - destruct (colored st =? Z.of_nat m); [injection H as <-; lia | discriminate].
  - destruct (colored st =? Z.of_nat m); [injection H as <-; lia |].
    destruct (st_nblocks st + 2 <? MAX_COLORS); [| discriminate].
    apply IH in H. pose proof (round_rng_le st). lia.
Qed.

(** The invariant holds when the loop is left, and the counter has
    reached the number of rows. *)
Lemma loop_exit_inv rounds : forall st st',
  jpl_inv st -> loop rounds st = Exited st' ->
  distinct_draws rand (rng st') ->
  jpl_inv st' /\ colored st' = Z.of_nat m.
Proof.
  induction rounds as [|n IH]; intros st st' Hinv H Hd; cbn [jpl_loop] in H.
  - destruct (Z.eqb_spec (colored st) (Z.of_nat m)); [| discriminate].
    injection H as <-. split; assumption.
  - destruct (Z.eqb_spec (colored st) (Z.of_nat m)).
    + injection H as <-. split; assumption.
    + destruct (st_nblocks st + 2 <? MAX_COLORS); [| discriminate].
      apply (IH (round st)); [| exact H | exact Hd].
      apply round_inv; [exact Hinv |].
      apply (distinct_draws_le rand (rng st')); [| exact Hd].
      apply (loop_rng_le n). exact H.
Qed.



(** *** Proper colouring *)

Lemma round_proper st :
  symmetric_adjacency ->
  jpl_inv st -> distinct_draws rand (rng (round st)) ->
  proper_so_far (colors st) -> proper_so_far (colors (round st)).
Proof.
  intros Hsym Hinv Hd Hp r c Hrc Hr.
  destruct (round_colors_fresh st Hinv Hd)
    as (Hne & H1 & H2 & Hf1 & Hf2 & _ & _).
  assert (Hold : forall i, (i < m)%nat -> colors st !!! i <> color1_of st
                                         /\ colors st !!! i <> color2_of st).
  { intros i Hi. destruct (inv_used Hinv i Hi) as [E|E].
    - rewrite E. lia.
    - split; intros E'; rewrite E' in E; tauto. }
  pose proof (Hsym r c Hrc) as Hcr.
  assert (Hrm : (r < m)%nat) by apply Hrc.
  assert (Hcm : (c < m)%nat) by apply Hrc.
  pose proof (round_color_cases st r Hinv Hrm) as Cr.
  pose proof (round_color_cases st c Hinv Hcm) as Cc.
  cbn zeta in Cr, Cc.
  pose proof (Hold r Hrm) as [Hr1 Hr2]. pose proof (Hold c Hcm) as [Hc1 Hc2].
  destruct Cr as [[Hrc0 Er]|[Hr0 [[Hmax Er]|[(_ & Hmin & Er)|(_ & _ & Er)]]]];
    rewrite Er in *.
  - destruct Cc as [[_ Ec]|[Hc0 [[_ Ec]|[(_ & _ & Ec)|(_ & _ & Ec)]]]];
      rewrite Ec; try congruence.
    apply Hp; assumption.
  - destruct Cc as [[_ Ec]|[Hc0 [[Hmax' Ec]|[(_ & _ & Ec)|(_ & _ & Ec)]]]];
      rewrite Ec; try congruence; try lia.
    assert (hash !!! c < hash !!! r) by (apply Hmax; [exact Hrc | left; exact Hc0]).
    assert (hash !!! r < hash !!! c) by (apply Hmax'; [exact Hcr | left; exact Hr0]).
    lia.
  - destruct Cc as [[_ Ec]|[Hc0 [[_ Ec]|[(_ & Hmin' & Ec)|(_ & _ & Ec)]]]];
      rewrite Ec; try congruence; try lia.
    assert (hash !!! r < hash !!! c) by (apply Hmin; [exact Hrc | left; exact Hc0]).
    assert (hash !!! c < hash !!! r) by (apply Hmin'; [exact Hcr | left; exact Hr0]).
    lia.
  - congruence.
Qed.

Lemma init_proper ws : proper_so_far (colors (jpl_init m ws)).
Proof.
  intros r c (Hr & _) Hne. exfalso. apply Hne. cbn [jpl_init colors].
  rewrite (list_lookup_total_correct _ _ (-1)); [reflexivity |].
  apply lookup_replicate_2. exact Hr.
Qed.

Lemma loop_exit_proper rounds : forall st st',
  symmetric_adjacency ->
  jpl_inv st -> proper_so_far (colors st) ->
  loop rounds st = Exited st' ->
  distinct_draws rand (rng st') ->
  proper_so_far (colors st').
Proof.
  induction rounds as [|n IH]; intros st st' Hsym Hinv Hp H Hd; cbn [jpl_loop] in H.
  - destruct (colored st =? Z.of_nat m); [| discriminate].
    injection H as <-. exact Hp.
  - destruct (colored st =? Z.of_nat m).
    + injection H as <-. exact Hp.
    + destruct (st_nblocks st + 2 <? MAX_COLORS); [| discriminate].
      assert (Hd' : distinct_draws rand (rng (round st))).
      { apply (distinct_draws_le rand (rng st')); [| exact Hd].
        apply (loop_rng_le n). exact H. }
      apply (IH (round st)); [exact Hsym | | | exact H | exact Hd].
      * apply round_inv; assumption.
      * apply round_proper; assumption.
Qed.

(** *** Progress *)





Lemma max_uncoloured (cs : list Z) k :
  (exists i, (i < k)%nat /\ cs !!! i = -1) ->
  exists r, (r < k)%nat /\ cs !!! r = -1 /\
    forall i, (i < k)%nat -> cs !!! i = -1 -> hash !!! i <= hash !!! r.
Proof.
  induction k as [|k IH]; intros (i & Hi & Ei); [lia |].
  destruct (Z.eqb_spec (cs !!! k) (-1)) as [Ek|Ek].
  - destruct (classic_uncoloured cs k) as [Hsome|Hnone].
    + destruct (IH Hsome) as (r & Hr & Er & Hmax).
      destruct (Z.le_gt_cases (hash !!! k) (hash !!! r)) as [Hle|Hgt].
      * exists r. split; [lia |]. split; [exact Er |].
        intros j Hj Ej. destruct (Nat.eq_dec j k) as [->|Hne]; [exact Hle |].
        apply Hmax; [lia | exact Ej].
      * exists k. split; [lia |]. split; [exact Ek |].
        intros j Hj Ej. destruct (Nat.eq_dec j k) as [->|Hne]; [lia |].
        specialize (Hmax j ltac:(lia) Ej). lia.
    + exists k. split; [lia |]. split; [exact Ek |].
      intros j Hj Ej. destruct (Nat.eq_dec j k) as [->|Hne]; [lia |].
      exfalso. apply (Hnone j); [lia | exact Ej].
  - destruct IH as (r & Hr & Er & Hmax).
    + exists i. split; [| exact Ei].
      destruct (Nat.eq_dec i k) as [->|Hne]; [congruence | lia].
    + exists r. split; [lia |]. split; [exact Er |].
      intros j Hj Ej. destruct (Nat.eq_dec j k) as [->|Hne]; [congruence |].
      apply Hmax; [lia | exact Ej].
Qed.

Lemma round_progress st :
  distinct_neighbour_hashes ->
  jpl_inv st -> distinct_draws rand (rng (round st)) ->
  colored st <> Z.of_nat m ->
  colored st < colored (round st).
Proof.
  intros Hh Hinv Hd Hne.
  pose proof (round_inv st Hinv Hd) as Hinv'.
  rewrite (inv_colored Hinv'), (inv_colored Hinv).
  rewrite (inv_colored Hinv) in Hne.
  destruct (max_uncoloured (colors st) m (uncoloured_exists _ _ Hne))
    as (r & Hr & Er & Hmax).
  destruct (round_colors_fresh st Hinv Hd)
    as (Hc12 & H1 & H2 & Hf1 & Hf2 & _ & _).
  assert (Hold : forall i, (i < m)%nat -> colors st !!! i <> color1_of st
                                         /\ colors st !!! i <> color2_of st).
  { intros i Hi. destruct (inv_used Hinv i Hi) as [E|E].
    - rewrite E. lia.
    - split; intros E'; rewrite E' in E; tauto. }
  assert (Hrmax : strict_local_max m hash (color1_of st) (color2_of st) nnz ind
                    (colors st) r).
  { intros c Hrc Hcmp. pose proof (Hh r c Hrc) as Hdiff.
    assert (Hcm : (c < m)%nat) by apply Hrc.
    destruct (Hold c Hcm) as [Hn1 Hn2].
    destruct Hcmp as [E|[E|E]]; [| tauto | tauto].
    specialize (Hmax c Hcm E). lia. }
  unfold coloured_rows. apply (bigsum_lt _ _ m r); [| exact Hr |].
  - intros i Hi.
    destruct (round_color_cases st i Hinv Hi)
      as [[Hc E]|[Hc [[_ E]|[(_ & _ & E)|(_ & _ & E)]]]]; rewrite E.
    + lia.
    + rewrite Hc. destruct (Z.eqb_spec (color1_of st) (-1)); simpl; lia.
    + rewrite Hc. destruct (Z.eqb_spec (color2_of st) (-1)); simpl; lia.
    + rewrite Hc. simpl. lia.
  - destruct (round_color_cases st r Hinv Hr)
      as [[Hc E]|[Hc [[_ E]|[(Hn & _)|(Hn & _)]]]]; try tauto.
    rewrite E, Er. destruct (Z.eqb_spec (color1_of st) (-1)); simpl; lia.
Qed.

(** Within as many rounds as there are uncoloured rows the loop is left,
    unless the block tables are full before. *)
Lemma loop_terminates rounds : forall st,
  distinct_neighbour_hashes -> distinct_draws rand 8 ->
  jpl_inv st -> Z.of_nat m - colored st <= Z.of_nat rounds ->
  match loop rounds st with
  | Exited st' => jpl_inv st' /\ colored st' = Z.of_nat m
  | Overrun st' => jpl_inv st' /\ MAX_COLORS <= st_nblocks st' + 2
  | Running _ => False
  end.
Proof.
  induction rounds as [|n IH]; intros st Hh Hd Hinv Hfuel; cbn [jpl_loop].
  - pose proof (coloured_rows_le (colors st) m) as Hle.
    rewrite <- (inv_colored Hinv) in Hle.
    destruct (Z.eqb_spec (colored st) (Z.of_nat m)); [| lia].
    split; assumption.
  - destruct (Z.eqb_spec (colored st) (Z.of_nat m)) as [E|E]; [split; assumption |].
    destruct (Z.ltb_spec (st_nblocks st + 2) MAX_COLORS) as [Hroom|Hfull].
    + assert (Hd' : distinct_draws rand (rng (round st))).
      { apply (distinct_draws_le rand 8); [| exact Hd].
        pose proof (round_fields st) as F. cbn zeta in F. rewrite F. cbn [rng].
        rewrite (inv_rng Hinv). unfold round_colors.
        pose proof (inv_nb Hinv). pose proof (inv_even Hinv) as Hev.
        destruct (Z.ltb_spec (st_nblocks st) 8); cbn [snd]; [| lia].
        assert (st_nblocks st <> 7) by (intros E7; rewrite E7 in Hev; discriminate).
        lia. }
      apply IH; [exact Hh | exact Hd | apply round_inv; assumption |].
      pose proof (round_progress st Hh Hinv Hd' E). lia.
    + split; [exact Hinv | lia].
Qed.
End Rounds.

Section LaunchFacts2.
Context {A : Type} `{!Inhabited A}.
Implicit Types (mem : list A) (F : list A -> nat -> A).

Lemma list_eq_total (l k : list A) :
  length l = length k ->
  (forall i, (i < length l)%nat -> l !!! i = k !!! i) -> l = k.
Proof.
  intros Hlen Hlk. apply list_eq. intros i.
  destruct (Nat.lt_ge_cases i (length l)) as [Hi|Hi].
  - rewrite (list_lookup_lookup_total_lt l i Hi).
    rewrite (list_lookup_lookup_total_lt k i) by lia.
    f_equal. apply Hlk. exact Hi.
  - rewrite !lookup_ge_None_2 by lia. reflexivity.
Qed.


Lemma block_map_lookup o s F mem i :
  (o + s <= length mem)%nat ->
  block_map o s F mem !!! i
  = if decide (o <= i < o + s)%nat then F mem i else mem !!! i.
Proof.
  intros Hlen. unfold block_map. destruct (decide (o <= i < o + s)%nat) as [Hin|Hout].
  - apply (launch_lookup_stored _ _ _ (i - o)); [lia | lia | |].
    + replace (o + (i - o))%nat with i by lia. reflexivity.
    + intros gid' v' _ E. injection E as E _. lia.
  - apply launch_lookup_other. intros gid v Hlt E. injection E as E _. lia.
Qed.

Lemma block_map_length o s F mem : length (block_map o s F mem) = length mem.
Proof. apply launch_length. Qed.
End LaunchFacts2.

Lemma elem_of_rev {X} (x : X) (l : list X) : x ∈ rev l <-> x ∈ l.
Proof. rewrite !list_elem_of_In. symmetry. apply in_rev. Qed.

Lemma NoDup_rev_2 {X} (l : list X) : NoDup l -> NoDup (rev l).
Proof. rewrite !NoDup_ListNoDup. apply List.NoDup_rev. Qed.

Lemma grid1d_ge n bs : 0 <= n -> 1 <= bs -> (Z.to_nat n <= grid1d n bs)%nat.
Proof.
  intros Hn Hb. unfold grid1d.
  destruct (Z.eq_dec n 0) as [->|Hne].
  - simpl. lia.
  - assert (Hq : n - 1 < (Z.quot (n - 1) bs + 1) * bs).
    { rewrite Z.quot_div_nonneg by lia.
      pose proof (Z.div_mod (n - 1) bs ltac:(lia)).
      pose proof (Z.mod_pos_bound (n - 1) bs ltac:(lia)). nia. }
    lia.
Qed.

Section Blocks.
Context {R : Type} `{Arith R}.


Lemma kernel_symgs_sweep_block threads m n bn off w ci cv inv x y :
  0 <= bn -> 0 <= off -> (Z.to_nat bn <= threads)%nat ->
  kernel_symgs_sweep threads m n bn off w ci cv inv x y
  = block_map (Z.to_nat off) (Z.to_nat bn)
      (fun y0 row => sweep_value m n w ci cv inv x y0 row) y.
Proof.
  intros Hbn Hoff Hth. unfold kernel_symgs_sweep, block_map.
  rewrite (launch_guard threads (Z.to_nat bn)); [| exact Hth |].
  - apply launch_ext. intros gid Hgid.
    destruct (Z.leb_spec bn (Z.of_nat gid)); [lia |].
    replace (Z.to_nat (Z.of_nat gid + off)) with (Z.to_nat off + gid)%nat by lia.
    reflexivity.
  - intros gid Hgid. destruct (Z.leb_spec bn (Z.of_nat gid)); [reflexivity | lia].
Qed.

Lemma kernel_symgs_interior_block threads m bn w ci cv inv x y :
  0 <= bn -> (Z.to_nat bn <= threads)%nat ->
  kernel_symgs_interior threads m bn w ci cv inv x y
  = block_map 0 (Z.to_nat bn)
      (fun y0 row => sweep_value m m w ci cv inv x y0 row) y.
Proof.
  intros Hbn Hth. unfold kernel_symgs_interior, block_map.
  rewrite (launch_guard threads (Z.to_nat bn)); [| exact Hth |].
  - apply launch_ext. intros gid Hgid.
    destruct (Z.leb_spec bn (Z.of_nat gid)); [lia |]. reflexivity.
  - intros gid Hgid. destruct (Z.leb_spec bn (Z.of_nat gid)); [reflexivity | lia].
Qed.

(** The sum of a row reads [y] only at the stored off-diagonal columns. *)
Lemma sweep_sum_ext m n w ci cv x (y y' : list R) row :
  (forall p c, (p < w)%nat -> ci !!! (p * m + row)%nat = Z.of_nat c ->
               (c < n)%nat -> c <> row -> y !!! c = y' !!! c) ->
  sweep_sum m n w ci cv x y row = sweep_sum m n w ci cv x y' row.
Proof.
  intros Hy. unfold sweep_sum. generalize (x !!! row) as s.
  induction w as [|w IH]; intros s; [reflexivity |].
  rewrite seq_S, !fold_left_app. cbn [fold_left]. rewrite Nat.add_0_l.
  rewrite IH by (intros p c Hp; apply Hy; lia).
  set (col := ci !!! (w * m + row)%nat).
  destruct ((0 <=? col) && (col <? Z.of_nat n) && negb (col =? Z.of_nat row)) eqn:E;
    [| reflexivity].
  apply andb_true_iff in E. destruct E as [E E3].
  apply andb_true_iff in E. destruct E as [E1 E2].
  apply Z.leb_le in E1. apply Z.ltb_lt in E2.
  apply negb_true_iff, Z.eqb_neq in E3.
  rewrite (Hy w (Z.to_nat col)); [reflexivity | lia | | lia | lia].
  unfold col. lia.
Qed.
End Blocks.

Section Refinement.
Context {R : Type} `{Arith R}.
Variable A : SparseMatrix R.
Variable r : list R.

#[local] Abbreviation m := (localNumberOfRows A).
#[local] Abbreviation n := (localNumberOfColumns A).
#[local] Abbreviation F :=
  (fun y row => sweep_value m n (ell_width A) (ell_col_ind A) (ell_val A)
                  (inv_diag A) r y row).

Lemma gs_residual_fold (x : list R) row slots s :
  gs_residual A x row slots s
  = fold_left
      (fun sum p =>
         let idx := (p * m + row)%nat in
         let col := ell_col_ind A !!! idx in
         if (0 <=? col) && (col <? Z.of_nat n) && negb (col =? Z.of_nat row)
         then fma (neg (ell_val A !!! idx)) (x !!! Z.to_nat col) sum
         else sum) slots s.
Proof. revert s. induction slots as [|p slots IH]; intros s; [reflexivity |].
       cbn [gs_residual fold_left]. apply IH. Qed.

Lemma gs_row_eq (y : list R) row : gs_row A r y row = <[row := F y row]> y.
Proof. unfold gs_row, sweep_value, sweep_sum. rewrite gs_residual_fold. reflexivity. Qed.

Lemma gs_rows_length rows : forall y : list R,
  length (fold_left (gs_row A r) rows y) = length y.
Proof.
  induction rows as [|row rows IH]; intros y; [reflexivity |].
  cbn [fold_left]. rewrite IH, gs_row_eq, length_insert. reflexivity.
Qed.

(** Rows of one independent block: visiting them one after the other, in
    any order, gives each the value it gets from the vector before. *)
Lemma gs_rows_lookup (o s : nat) (y : list R) :
  (forall row c, (o <= row < o + s)%nat -> (o <= c < o + s)%nat -> ~ stored A row c) ->
  (o + s <= length y)%nat ->
  forall rows ycur,
    NoDup rows -> (forall row, row ∈ rows -> (o <= row < o + s)%nat) ->
    length ycur = length y ->
    (forall i, ~ (o <= i < o + s)%nat -> ycur !!! i = y !!! i) ->
    forall i, fold_left (gs_row A r) rows ycur !!! i
              = if decide (i ∈ rows) then F y i else ycur !!! i.
Proof.
  intros Hind Hlen. induction rows as [|row rows IH];
    intros ycur Hnd Hin Hlc Hout i.
  - cbn [fold_left]. destruct (decide (i ∈ [])) as [Hi|_]; [| reflexivity].
    apply elem_of_nil in Hi. destruct Hi.
  - cbn [fold_left]. apply NoDup_cons in Hnd. destruct Hnd as [Hnotin Hnd].
    assert (Hrow : (o <= row < o + s)%nat) by (apply Hin; left).
    assert (HF : F ycur row = F y row).
    { unfold sweep_value. f_equal. apply sweep_sum_ext.
      intros p c Hp Hc Hcn Hne. apply Hout. intros Hcb.
      apply (Hind row c Hrow Hcb). split; [exact Hne |]. exists p. split; assumption. }
    rewrite gs_row_eq, HF.
    rewrite IH; [| exact Hnd | intros; apply Hin; right; assumption
                 | rewrite length_insert; exact Hlc |].
    + destruct (decide (i ∈ rows)) as [Hi|Hi].
      * rewrite decide_True by (right; exact Hi). reflexivity.
      * destruct (decide (i = row)) as [->|Hne].
        -- rewrite decide_True by left.
           apply list_lookup_total_insert_eq. lia.
        -- rewrite decide_False.
           ++ apply list_lookup_total_insert_ne. congruence.
           ++ intros Hi'. apply elem_of_cons in Hi'. tauto.
    + intros j Hj. rewrite list_lookup_total_insert_ne by (intros ->; tauto).
      apply Hout. exact Hj.
Qed.

Lemma gs_rows_block (o s : nat) (y : list R) rows :
  (forall row c, (o <= row < o + s)%nat -> (o <= c < o + s)%nat -> ~ stored A row c) ->
  (o + s <= length y)%nat ->
  NoDup rows -> (forall row, row ∈ rows <-> (o <= row < o + s)%nat) ->
  fold_left (gs_row A r) rows y = block_map o s F y.
Proof.
  intros Hind Hlen Hnd Hrows. apply list_eq_total.
  - rewrite gs_rows_length, block_map_length. reflexivity.
  - intros i _.
    rewrite (gs_rows_lookup o s y Hind Hlen rows y Hnd);
      [| intros; apply Hrows; assumption | reflexivity | reflexivity].
    rewrite block_map_lookup by exact Hlen.
    destruct (decide (i ∈ rows)) as [Hi|Hi].
    + rewrite decide_True by (apply Hrows; exact Hi). reflexivity.
    + rewrite decide_False by (intros Hi'; apply Hi, Hrows; exact Hi'). reflexivity.
Qed.

(** Doing an independent block again changes nothing. *)
Lemma block_map_again (o s : nat) (y : list R) :
  (forall row c, (o <= row < o + s)%nat -> (o <= c < o + s)%nat -> ~ stored A row c) ->
  (o + s <= length y)%nat ->
  block_map o s F (block_map o s F y) = block_map o s F y.
Proof.
  intros Hind Hlen. apply list_eq_total.
  - rewrite !block_map_length. reflexivity.
  - intros i _. rewrite (block_map_lookup o s F (block_map o s F y))
      by (rewrite block_map_length; exact Hlen).
    destruct (decide (o <= i < o + s)%nat) as [Hi|Hi]; [| reflexivity].
    rewrite block_map_lookup, decide_True by assumption.
    unfold sweep_value. f_equal. apply sweep_sum_ext.
    intros p c Hp Hc Hcn Hne. rewrite block_map_lookup by exact Hlen.
    rewrite decide_False; [reflexivity |]. intros Hcb.
    apply (Hind i c Hi Hcb). split; [exact Hne |]. exists p. split; assumption.
Qed.
End Refinement.

Section Layout.
Context {R : Type} `{Arith R}.
Variable A : SparseMatrix R.
Variable r : list R.
Hypothesis Hlayout : valid_layout A.

#[local] Abbreviation nb := (Z.to_nat (nblocks A)).

Lemma block_lo_S i : (i < nb)%nat -> block_lo A (S i) = (block_lo A i + block_len A i)%nat.
Proof.
  intros Hi. unfold block_lo, block_len.
  rewrite (layout_next A Hlayout i Hi).
  pose proof (layout_sizes A Hlayout i Hi) as Hs.
  assert (Ho : 0 <= offsets A !!! i).
  { clear Hs. induction i as [|i IH].
    - rewrite (layout_first A Hlayout). lia.
    - rewrite (layout_next A Hlayout i) by lia.
      pose proof (layout_sizes A Hlayout i ltac:(lia)).
      specialize (IH ltac:(lia)). lia. }
  lia.
Qed.

Lemma block_lo_0 : block_lo A 0 = 0%nat.
Proof. unfold block_lo. rewrite (layout_first A Hlayout). reflexivity. Qed.

Lemma block_lo_nb : block_lo A nb = localNumberOfRows A.
Proof. unfold block_lo. rewrite (layout_last A Hlayout). lia. Qed.

Lemma block_lo_mono i j : (i <= j <= nb)%nat -> (block_lo A i <= block_lo A j)%nat.
Proof.
  intros [Hij Hj]. induction j as [|j IH].
  - replace i with 0%nat by lia. lia.
  - destruct (Nat.eq_dec i (S j)) as [->|Hne]; [lia |].
    rewrite block_lo_S by lia. specialize (IH ltac:(lia) ltac:(lia)). lia.
Qed.

Lemma block_end_le i :
  (i < nb)%nat -> (block_lo A i + block_len A i <= localNumberOfRows A)%nat.
Proof.
  intros Hi. rewrite <- block_lo_S by exact Hi. rewrite <- block_lo_nb.
  apply block_lo_mono. lia.
Qed.

(** The rows of the blocks [a .. a + k), block after block. *)
Lemma blocks_rows a k :
  (a + k <= nb)%nat ->
  flat_map (fun i => seq (block_lo A i) (block_len A i)) (seq a k)
  = seq (block_lo A a) (block_lo A (a + k) - block_lo A a).
Proof.
  intros Hk. induction k as [|k IH].
  - rewrite Nat.add_0_r, Nat.sub_diag. reflexivity.
  - rewrite seq_S, flat_map_app. cbn [flat_map]. rewrite app_nil_r.
    rewrite IH by lia. rewrite Nat.add_succ_r, block_lo_S by lia.
    pose proof (block_lo_mono a (a + k) ltac:(lia)).
    replace (block_lo A (a + k) + block_len A (a + k) - block_lo A a)%nat
      with ((block_lo A (a + k) - block_lo A a) + block_len A (a + k))%nat by lia.
    rewrite seq_app. f_equal. f_equal. lia.
Qed.

Lemma fold_left_flat_map {X Y} (f : Y -> X -> Y) (g : nat -> list X) l : forall y,
  fold_left f (flat_map g l) y = fold_left (fun y i => fold_left f (g i) y) l y.
Proof.
  induction l as [|i l IH]; intros y; [reflexivity |].
  cbn [flat_map fold_left]. rewrite fold_left_app. apply IH.
Qed.

Lemma rev_flat_map {X} (g : nat -> list X) l :
  rev (flat_map g l) = flat_map (fun i => rev (g i)) (rev l).
Proof.
  induction l as [|i l IH]; [reflexivity |].
  cbn [flat_map rev]. rewrite rev_app_distr, IH, flat_map_app.
  cbn [flat_map]. rewrite app_nil_r. reflexivity.
Qed.

Hypothesis Hind : independent_blocks A.

#[local] Abbreviation F :=
  (fun y row => sweep_value (localNumberOfRows A) (localNumberOfColumns A)
                  (ell_width A) (ell_col_ind A) (ell_val A) (inv_diag A) r y row).

Lemma block_independent i :
  (i < nb)%nat ->
  forall row c,
    (block_lo A i <= row < block_lo A i + block_len A i)%nat ->
    (block_lo A i <= c < block_lo A i + block_len A i)%nat -> ~ stored A row c.
Proof. intros Hi row c. apply Hind. exact Hi. Qed.

(** The launch for block [i] is the sequential visit of its rows. *)
Lemma sweep_block_rows i (y : list R) rows :
  (i < nb)%nat -> (localNumberOfRows A <= length y)%nat ->
  NoDup rows ->
  (forall row, row ∈ rows <-> (block_lo A i <= row < block_lo A i + block_len A i)%nat) ->
  sweep_block A r y i = fold_left (gs_row A r) rows y.
Proof.
  intros Hi Hlen Hnd Hrows. unfold sweep_block.
  pose proof (layout_sizes A Hlayout i Hi) as Hs.
  pose proof (block_end_le i Hi) as Hend.
  assert (Ho : 0 <= offsets A !!! i).
  { pose proof (block_lo_mono 0 i ltac:(lia)) as Hm. unfold block_lo in Hm.
    destruct (Z.le_gt_cases 0 (offsets A !!! i)) as [|Hneg]; [assumption |].
    exfalso. destruct i as [|i].
    - rewrite (layout_first A Hlayout) in Hneg. lia.
    - rewrite (layout_next A Hlayout i) in Hneg by lia.
      pose proof (layout_sizes A Hlayout i ltac:(lia)).
      assert (0 <= offsets A !!! i).
      { clear -Hlayout Hi. induction i as [|i IH].
        - rewrite (layout_first A Hlayout). lia.
        - rewrite (layout_next A Hlayout i) by lia.
          pose proof (layout_sizes A Hlayout i ltac:(lia)).
          specialize (IH ltac:(lia)). lia. }
      lia. }
  rewrite kernel_symgs_sweep_block; [| exact Hs | exact Ho | apply grid1d_ge; lia].
  symmetry. apply (gs_rows_block A r); [apply block_independent; exact Hi | | exact Hnd | exact Hrows].
  fold (block_lo A i) (block_len A i). lia.
Qed.

#[local] Abbreviation seqblock := (fun i => seq (block_lo A i) (block_len A i)).

Lemma sweep_blocks_rows (g : nat -> list nat) blocks :
  (forall i, i ∈ blocks ->
     (i < nb)%nat /\ NoDup (g i) /\
     forall row, row ∈ g i <-> (block_lo A i <= row < block_lo A i + block_len A i)%nat) ->
  forall y : list R, (localNumberOfRows A <= length y)%nat ->
    fold_left (sweep_block A r) blocks y
    = fold_left (gs_row A r) (flat_map g blocks) y.
Proof.
  induction blocks as [|i blocks IH]; intros Hg y Hlen; [reflexivity |].
  cbn [fold_left flat_map]. rewrite fold_left_app.
  destruct (Hg i ltac:(left)) as (Hi & Hnd & Hrows).
  rewrite (sweep_block_rows i y (g i) Hi Hlen Hnd Hrows).
  apply IH.
  - intros j Hj. apply Hg. right. exact Hj.
  - rewrite gs_rows_length. exact Hlen.
Qed.

Lemma seqblock_ok i :
  (i < nb)%nat ->
  NoDup (seqblock i) /\
  forall row, row ∈ seqblock i <-> (block_lo A i <= row < block_lo A i + block_len A i)%nat.
Proof.
  intros Hi. split; [apply NoDup_seq |]. intros row. rewrite elem_of_seq. lia.
Qed.

Lemma revblock_ok i :
  (i < nb)%nat ->
  NoDup (rev (seqblock i)) /\
  forall row, row ∈ rev (seqblock i)
    <-> (block_lo A i <= row < block_lo A i + block_len A i)%nat.
Proof.
  intros Hi. split.
  - apply NoDup_rev_2, NoDup_seq.
  - intros row. rewrite elem_of_rev, elem_of_seq. lia.
Qed.

Hypothesis Hsingle : geom_size A <= 1.
Hypothesis Hsquare : localNumberOfColumns A = localNumberOfRows A.

Lemma interior_rows (x : list R) :
  (localNumberOfRows A <= length x)%nat ->
  kernel_symgs_interior (grid1d (sizes A !!! 0%nat) 1024) (localNumberOfRows A)
    (sizes A !!! 0%nat) (ell_width A) (ell_col_ind A) (ell_val A) (inv_diag A) r x
  = fold_left (gs_row A r) (seqblock 0%nat) x.
Proof.
  intros Hlen. pose proof (layout_nblocks A Hlayout) as Hnb.
  pose proof (layout_sizes A Hlayout 0%nat ltac:(lia)) as Hs.
  rewrite kernel_symgs_interior_block; [| exact Hs | apply grid1d_ge; lia].
  rewrite block_lo_0 by assumption.
  rewrite (gs_rows_block A r 0 (block_len A 0) x (seq 0 (block_len A 0))).
  - rewrite Hsquare. reflexivity.
  - pose proof (block_independent 0%nat ltac:(lia)) as Hb.
    rewrite block_lo_0 in Hb by assumption. exact Hb.
  - pose proof (block_end_le 0%nat ltac:(lia)) as Hend.
    rewrite block_lo_0 in Hend by assumption. lia.
  - apply NoDup_seq.
  - intros row. rewrite elem_of_seq. lia.
Qed.

Lemma forward_rows (x : list R) :
  (localNumberOfRows A <= length x)%nat ->
  fold_left (sweep_block A r) (forward_blocks A)
    (fold_left (gs_row A r) (seqblock 0%nat) x)
  = fold_left (gs_row A r) (seq 0 (localNumberOfRows A)) x.
Proof.
  intros Hlen. pose proof (layout_nblocks A Hlayout) as Hnb.
  unfold forward_blocks.
  rewrite (sweep_blocks_rows seqblock).
  - assert (E : seq 0 (localNumberOfRows A)
                = seqblock 0%nat ++ flat_map seqblock (seq 1 (nb - 1))).
    { pose proof (blocks_rows 0 nb ltac:(lia)) as E.
      rewrite Nat.add_0_l, block_lo_0, block_lo_nb, Nat.sub_0_r in E by assumption.
      rewrite <- E. replace nb with (S (nb - 1)) at 1 by lia. reflexivity. }
    rewrite E, fold_left_app. reflexivity.
  - intros i Hi. apply elem_of_seq in Hi.
    split; [lia |]. apply seqblock_ok. lia.
  - rewrite gs_rows_length. exact Hlen.
Qed.

Lemma backward_rows k (y : list R) :
  (k <= nb)%nat -> (localNumberOfRows A <= length y)%nat ->
  fold_left (sweep_block A r) (rev (seq 0 k)) y
  = fold_left (gs_row A r) (rev (seq 0 (block_lo A k))) y.
Proof.
  intros Hk Hlen.
  rewrite (sweep_blocks_rows (fun i => rev (seqblock i))).
  - rewrite <- rev_flat_map. rewrite (blocks_rows 0 k) by lia.
    rewrite Nat.add_0_l, block_lo_0, Nat.sub_0_r by assumption. reflexivity.
  - intros i Hi. apply elem_of_rev, elem_of_seq in Hi.
    split; [lia |]. apply revblock_ok. lia.
  - exact Hlen.
Qed.

(** X18.  In a run on one process, for a square matrix whose block tables
    tile the rows in order and whose blocks hold no two rows that store
    each other, [ComputeSYMGS] returns the vector of the sequential sweep
    over the rows in their stored order, forward then backward, for every
    right-hand side and every initial guess; the operations are the same,
    so this holds for any arithmetic. *)
Theorem symgs_blocks_sequential exchange (x : list R) :
  length x = localNumberOfColumns A ->
  ComputeSYMGS exchange A r x = sequential_symgs A r x.
Proof.
  intros Hx. pose proof (layout_nblocks A Hlayout) as Hnb.
  assert (Hlen : (localNumberOfRows A <= length x)%nat) by lia.
  unfold ComputeSYMGS, sequential_symgs.
  destruct (Z.ltb_spec 1 (geom_size A)) as [Hmpi|_]; [lia |].
  rewrite interior_rows by exact Hlen.
  rewrite forward_rows by exact Hlen.
  set (xf := fold_left (gs_row A r) (seq 0 (localNumberOfRows A)) x).
  assert (Hxf : (localNumberOfRows A <= length xf)%nat)
    by (unfold xf; rewrite gs_rows_length; exact Hlen).
  unfold backward_blocks.
  destruct (layout_ublocks A Hlayout) as [Hub|Hub]; rewrite Hub.
  - replace (Z.to_nat (nblocks A - 1 + 1)) with nb by lia.
    rewrite backward_rows by (try exact Hxf; lia).
    rewrite block_lo_nb by assumption. reflexivity.
  - replace (Z.to_nat (nblocks A - 2 + 1)) with (nb - 1)%nat by lia.
    rewrite backward_rows by (try exact Hxf; lia).
    set (K := (nb - 1)%nat).
    assert (HK : (K < nb)%nat) by (unfold K; lia).
    assert (Hm : localNumberOfRows A = (block_lo A K + block_len A K)%nat).
    { rewrite <- block_lo_S by assumption.
      replace (S K) with nb by (unfold K; lia). symmetry. apply block_lo_nb; assumption. }
    assert (Hsplit : seq 0 (localNumberOfRows A) = seq 0 (block_lo A K) ++ seqblock K).
    { rewrite Hm at 1. rewrite seq_app. reflexivity. }
    rewrite Hsplit at 1. rewrite rev_app_distr, fold_left_app. f_equal.
    unfold xf. rewrite Hsplit, fold_left_app.
    set (xpre := fold_left (gs_row A r) (seq 0 (block_lo A K)) x).
    assert (Hxpre : (block_lo A K + block_len A K <= length xpre)%nat).
    { unfold xpre. rewrite gs_rows_length. lia. }
    pose proof (block_independent K HK) as HindK.
    destruct (seqblock_ok K HK) as [Hnd1 Hr1].
    destruct (revblock_ok K HK) as [Hnd2 Hr2].
    rewrite (gs_rows_block A r _ _ xpre (seqblock K) HindK Hxpre Hnd1 Hr1).
    rewrite (gs_rows_block A r _ _ _ (rev (seqblock K)) HindK
               ltac:(rewrite block_map_length; exact Hxpre) Hnd2 Hr2).
    symmetry. apply (block_map_again A r); assumption.
Qed.
End Layout.

Section ExactFacts.
Context {R : Type} {HA : Arith R} {HE : ExactArith R}.

Add Ring exact_ring_R : exact_ring.

Lemma fma_neg_zero a s : fma (neg a) zero s = s.
Proof. rewrite exact_fma. ring. Qed.

Lemma fma_zero_l a s : fma zero a s = s.
Proof. rewrite exact_fma. ring. Qed.

Lemma fma_neg_sub a b s : fma (neg a) b s = sub s (mul a b).
Proof. rewrite exact_fma. ring. Qed.

Lemma div_mul_cancel s d : d <> zero -> mul (div s d) d = s.
Proof.
  intros Hd. rewrite exact_div.
  transitivity (mul s (mul (div one d) d)); [ring |].
  rewrite exact_inv by exact Hd. ring.
Qed.

Lemma mul_recip_mul r d : d <> zero -> mul (mul r (div one d)) d = r.
Proof. intros Hd. rewrite <- exact_div. apply div_mul_cancel. exact Hd. Qed.
End ExactFacts.

Section FoldFacts.
Context {X Y : Type}.

Lemma fold_left_ext_in (f g : Y -> X -> Y) l : forall s,
  (forall p s', p ∈ l -> f s' p = g s' p) ->
  fold_left f l s = fold_left g l s.
Proof.
  induction l as [|p l IH]; intros s E; [reflexivity |].
  cbn [fold_left]. rewrite E by left. apply IH.
  intros q s' Hq. apply E. right. exact Hq.
Qed.

Lemma fold_left_noop (f : Y -> X -> Y) l : forall s,
  (forall p s', p ∈ l -> f s' p = s') -> fold_left f l s = s.
Proof.
  induction l as [|p l IH]; intros s E; [reflexivity |].
  cbn [fold_left]. rewrite E by left. apply IH.
  intros q s' Hq. apply E. right. exact Hq.
Qed.
End FoldFacts.

Section BlockMapExt.
Context {X : Type} `{!Inhabited X}.

Lemma block_map_ext o s (F G : list X -> nat -> X) (mem : list X) :
  (forall row, (o <= row < o + s)%nat -> F mem row = G mem row) ->
  block_map o s F mem = block_map o s G mem.
Proof.
  intros E. unfold block_map. apply launch_ext. intros gid Hgid.
  rewrite E by lia. reflexivity.
Qed.
End BlockMapExt.

Section ZeroGuessKernels.
Context {R : Type} `{Arith R}.

Lemma kernel_forward_sweep_0_block threads m bn off w ci cv di x y :
  0 <= bn -> 0 <= off -> (Z.to_nat bn <= threads)%nat ->
  kernel_forward_sweep_0 threads m bn off w ci cv di x y
  = block_map (Z.to_nat off) (Z.to_nat bn)
      (fun y0 row => forward_value_0 m off ci cv di x y0 row) y.
Proof.
  intros Hbn Hoff Hth. unfold kernel_forward_sweep_0, block_map.
  rewrite (launch_guard threads (Z.to_nat bn)); [| exact Hth |].
  - apply launch_ext. intros gid Hgid.
    destruct (Z.leb_spec bn (Z.of_nat gid)); [lia |].
    replace (Z.to_nat (Z.of_nat gid + off)) with (Z.to_nat off + gid)%nat by lia.
    reflexivity.
  - intros gid Hgid. destruct (Z.leb_spec bn (Z.of_nat gid)); [reflexivity | lia].
Qed.

Lemma kernel_backward_sweep_0_block threads m bn off w ci cv di x :
  0 <= bn -> 0 <= off -> (Z.to_nat bn <= threads)%nat ->
  kernel_backward_sweep_0 threads m bn off w ci cv di x
  = block_map (Z.to_nat off) (Z.to_nat bn)
      (fun x0 row => backward_value_0 m off w ci cv di x0 row) x.
Proof.
  intros Hbn Hoff Hth. unfold kernel_backward_sweep_0, block_map.
  rewrite (launch_guard threads (Z.to_nat bn)); [| exact Hth |].
  - apply launch_ext. intros gid Hgid.
    destruct (Z.leb_spec bn (Z.of_nat gid)); [lia |].
    replace (Z.to_nat (Z.of_nat gid + off)) with (Z.to_nat off + gid)%nat by lia.
    reflexivity.
  - intros gid Hgid. destruct (Z.leb_spec bn (Z.of_nat gid)); [reflexivity | lia].
Qed.

Lemma kernel_pointwise_mult_block threads size (x y out : list R) :
  0 <= size -> (Z.to_nat size <= threads)%nat ->
  kernel_pointwise_mult threads size x y out
  = block_map 0 (Z.to_nat size) (fun _ gid => mul (x !!! gid) (y !!! gid)) out.
Proof.
  intros Hs Hth. unfold kernel_pointwise_mult, block_map.
  rewrite (launch_guard threads (Z.to_nat size)); [| exact Hth |].
  - apply launch_ext. intros gid Hgid.
    destruct (Z.leb_spec size (Z.of_nat gid)); [lia |]. reflexivity.
  - intros gid Hgid. destruct (Z.leb_spec size (Z.of_nat gid)); [reflexivity | lia].
Qed.

(** The forward sum reads [y] only below [off]. *)
Lemma forward_sum_0_ext m off ci cv x (y y' : list R) d row :
  (forall c, Z.of_nat c < off -> y !!! c = y' !!! c) ->
  forward_sum_0 m off ci cv x y d row = forward_sum_0 m off ci cv x y' d row.
Proof.
  intros E. unfold forward_sum_0. apply fold_left_ext_in. intros p s _.
  cbn zeta. set (col := ci !!! (p * m + row)%nat).
  destruct ((0 <=? col) && (col <? off)) eqn:C; [| reflexivity].
  apply andb_true_iff in C. destruct C as [C1 C2].
  apply Z.leb_le in C1. apply Z.ltb_lt in C2.
  rewrite (E (Z.to_nat col)) by lia. reflexivity.
Qed.
End ZeroGuessKernels.

Section ZeroGuess.
Context {R : Type} {HA : Arith R} {HE : ExactArith R}.
Variable A : SparseMatrix R.
Variable r : list R.
Hypothesis Hlayout : valid_layout A.
Hypothesis Hind : independent_blocks A.
Hypothesis Hord : ell_ordered A.
Hypothesis Hrec : reciprocal_diag A.
Hypothesis Hsquare : localNumberOfColumns A = localNumberOfRows A.

#[local] Abbreviation m := (localNumberOfRows A).
#[local] Abbreviation w := (ell_width A).
#[local] Abbreviation ci := (ell_col_ind A).
#[local] Abbreviation cv := (ell_val A).
#[local] Abbreviation di := (diag_idx A).
#[local] Abbreviation nb := (Z.to_nat (nblocks A)).

Lemma offsets_nonneg i : (i <= nb)%nat -> 0 <= offsets A !!! i.
Proof.
  induction i as [|i IH]; intros Hi.
  - rewrite (layout_first A Hlayout). lia.
  - rewrite (layout_next A Hlayout i) by lia.
    pose proof (layout_sizes A Hlayout i ltac:(lia)).
    specialize (IH ltac:(lia)). lia.
Qed.

Lemma offsets_block_lo i : (i <= nb)%nat -> offsets A !!! i = Z.of_nat (block_lo A i).
Proof. intros Hi. unfold block_lo. pose proof (offsets_nonneg i Hi). lia. Qed.

Lemma block_row_lt b row :
  (b < nb)%nat -> (block_lo A b <= row < block_lo A b + block_len A b)%nat ->
  (row < m)%nat.
Proof. intros Hb Hrow. pose proof (block_end_le A Hlayout b Hb). lia. Qed.

Lemma seq_split_diag row :
  (row < m)%nat ->
  seq 0 w = seq 0 (Z.to_nat (di !!! row)) ++ [Z.to_nat (di !!! row)]
            ++ seq (Z.to_nat (di !!! row + 1)) (w - Z.to_nat (di !!! row + 1)).
Proof.
  intros Hrow. destruct (ord_diag A Hord row Hrow) as [Hd _].
  set (d := Z.to_nat (di !!! row)).
  replace (Z.to_nat (di !!! row + 1)) with (S d) by (unfold d; lia).
  replace w with (d + (1 + (w - S d)))%nat at 1 by (unfold d; lia).
  rewrite seq_app, seq_app. cbn [seq]. rewrite Nat.add_0_l.
  replace (d + 1)%nat with (S d) by lia. reflexivity.
Qed.

(** Forward: a row of block [b] gets the same sum from the general kernel,
    run on a vector that is still zero from the block on, as from the
    zero-guess kernel. *)
Lemma forward_row_agree b (G Z : list R) row :
  (b < nb)%nat -> (block_lo A b <= row < block_lo A b + block_len A b)%nat ->
  (forall c, (c < block_lo A b)%nat -> G !!! c = Z !!! c) ->
  (forall c, (block_lo A b <= c)%nat -> G !!! c = zero) ->
  sweep_sum m (localNumberOfColumns A) w ci cv r G row
  = forward_sum_0 m (offsets A !!! b) ci cv r Z (di !!! row) row.
Proof.
  intros Hb Hrow Hlow Hzero.
  pose proof (block_row_lt b row Hb Hrow) as Hrm.
  destruct (ord_diag A Hord row Hrm) as [Hd Hdiag].
  rewrite offsets_block_lo by lia.
  unfold sweep_sum, forward_sum_0. rewrite (seq_split_diag row Hrm).
  rewrite fold_left_app. rewrite fold_left_noop.
  - apply fold_left_ext_in. intros p s Hp. apply elem_of_seq in Hp. cbn zeta.
    pose proof (ord_lower A Hord row p Hrm ltac:(lia)) as Hlt.
    set (col := ci !!! (p * m + row)%nat) in *.
    destruct (Z.leb_spec 0 col) as [Hc0|Hc0]; [| reflexivity]. cbn [andb].
    destruct (Z.ltb_spec col (Z.of_nat (localNumberOfColumns A))); [| lia].
    destruct (Z.eqb_spec col (Z.of_nat row)); [lia |]. cbn [andb negb].
    destruct (Z.ltb_spec col (Z.of_nat (block_lo A b))) as [Hc|Hc].
    + rewrite Hlow by lia. reflexivity.
    + rewrite Hzero by lia. apply fma_neg_zero.
  - intros p s Hp. cbn zeta.
    set (col := ci !!! (p * m + row)%nat).
    assert (Hcases : col = Z.of_nat row \/ col < 0 \/ Z.of_nat row < col).
    { apply elem_of_app in Hp. destruct Hp as [Hp|Hp].
      - apply list_elem_of_singleton in Hp. subst p. left. exact Hdiag.
      - apply elem_of_seq in Hp. right.
        apply (ord_upper A Hord row p Hrm). lia. }
    destruct Hcases as [E|[E|E]].
    + rewrite E, Z.eqb_refl, andb_false_r. reflexivity.
    + destruct (Z.leb_spec 0 col); [lia | reflexivity].
    + rewrite Hzero by lia.
      destruct (_ && _ && _); [apply fma_neg_zero | reflexivity].
Qed.

(** Backward: on a vector whose entry for [row] still carries the forward
    sum, the general kernel and the zero-guess kernel compute one sum. *)
Lemma backward_row_agree b (X : list R) row :
  (b < nb)%nat -> (block_lo A b <= row < block_lo A b + block_len A b)%nat ->
  mul (X !!! row) (diag_val A row)
    = forward_sum_0 m (offsets A !!! b) ci cv r X (di !!! row) row ->
  sweep_sum m (localNumberOfColumns A) w ci cv r X row
  = backward_sum_0 m (offsets A !!! b) w ci cv X (di !!! row) row (diag_val A row).
Proof.
  intros Hb Hrow Hfwd.
  pose proof (block_row_lt b row Hb Hrow) as Hrm.
  destruct (ord_diag A Hord row Hrm) as [Hd Hdiag].
  unfold sweep_sum, backward_sum_0. rewrite Hfwd.
  rewrite offsets_block_lo by lia.
  unfold forward_sum_0. rewrite (seq_split_diag row Hrm).
  rewrite !fold_left_app. cbn [fold_left].
  rewrite Hdiag, Z.eqb_refl, andb_false_r.
  rewrite (fold_left_ext_in _
    (fun sum p =>
       let idx := (p * m + row)%nat in
       let col := ci !!! idx in
       if (0 <=? col) && (col <? Z.of_nat (block_lo A b))
       then fma (neg (cv !!! idx)) (X !!! Z.to_nat col) sum else sum)
    (seq 0 (Z.to_nat (di !!! row)))).
  - apply fold_left_ext_in. intros p s Hp. apply elem_of_seq in Hp. cbn zeta.
    pose proof (ord_range A Hord row p Hrm ltac:(lia)) as Hrange.
    destruct (ord_upper A Hord row p Hrm ltac:(lia)) as [E|E].
    + destruct (Z.leb_spec 0 (ci !!! (p * m + row)%nat)); [lia |].
      destruct (Z.leb_spec (Z.of_nat (block_lo A b)) (ci !!! (p * m + row)%nat));
        [lia | reflexivity].
    + set (col := ci !!! (p * m + row)%nat) in *.
      destruct (Z.leb_spec 0 col); [| lia].
      destruct (Z.ltb_spec col (Z.of_nat (localNumberOfColumns A))); [| lia].
      destruct (Z.eqb_spec col (Z.of_nat row)); [lia |].
      destruct (Z.leb_spec (Z.of_nat (block_lo A b)) col); [| lia].
      destruct (Z.ltb_spec col (Z.of_nat m)); [| lia]. reflexivity.
  - intros p s Hp. apply elem_of_seq in Hp. cbn zeta.
    pose proof (ord_lower A Hord row p Hrm ltac:(lia)) as Hlt.
    set (col := ci !!! (p * m + row)%nat) in *.
    destruct (Z.leb_spec 0 col) as [Hc0|Hc0]; [| reflexivity]. cbn [andb].
    destruct (Z.ltb_spec col (Z.of_nat (localNumberOfColumns A))); [| lia].
    destruct (Z.eqb_spec col (Z.of_nat row)); [lia |]. cbn [andb negb].
    destruct (Z.ltb_spec col (Z.of_nat (block_lo A b))) as [Hc|Hc]; [reflexivity |].
    exfalso. apply (Hind b row (Z.to_nat col) Hb Hrow); [lia |].
    split; [lia |]. exists p. split; [lia |]. unfold col. lia.
Qed.

#[local] Abbreviation n := (localNumberOfColumns A).

#[local] Abbreviation forward_kept := (forward_kept A r).
#[local] Abbreviation forward_rel := (forward_rel A).

#[local] Abbreviation gstep :=
  (fun (G : list R) i =>
     block_map (block_lo A i) (block_len A i)
       (fun y row => sweep_value m n w ci cv (inv_diag A) r y row) G).
#[local] Abbreviation zstep :=
  (fun (Z : list R) i =>
     block_map (block_lo A i) (block_len A i)
       (fun y row => forward_value_0 m (offsets A !!! i) ci cv di r y row) Z).

Lemma inv_diag_div row s :
  (row < m)%nat -> mul s (inv_diag A !!! row) = div s (diag_val A row).
Proof.
  intros Hrow. destruct (Hrec row Hrow) as [_ E]. rewrite E.
  symmetry. apply exact_div.
Qed.

Lemma forward_step i (G Z : list R) :
  (i < nb)%nat -> forward_rel G Z i -> forward_kept Z i ->
  forward_rel (gstep G i) (zstep Z i) (S i) /\ forward_kept (zstep Z i) (S i).
Proof.
  intros Hi (HlG & HlZ & Hlow & Hzero) Hkept.
  pose proof (block_end_le A Hlayout i Hi) as Hend.
  assert (Hval : forall row,
            (block_lo A i <= row < block_lo A i + block_len A i)%nat ->
            sweep_value m n w ci cv (inv_diag A) r G row
            = forward_value_0 m (offsets A !!! i) ci cv di r Z row).
  { intros row Hrow. unfold sweep_value, forward_value_0.
    rewrite (forward_row_agree i G Z row Hi Hrow Hlow Hzero).
    apply inv_diag_div. lia. }
  assert (HZ' : forall c, ~ (block_lo A i <= c < block_lo A i + block_len A i)%nat ->
                          zstep Z i !!! c = Z !!! c).
  { intros c Hc. rewrite block_map_lookup by lia.
    rewrite decide_False by exact Hc. reflexivity. }
  split.
  - split; [rewrite block_map_length; exact HlG |].
    split; [rewrite block_map_length; exact HlZ |].
    rewrite (block_lo_S A Hlayout i Hi). split.
    + intros c Hc. rewrite !block_map_lookup by lia.
      destruct (decide (block_lo A i <= c < block_lo A i + block_len A i)%nat) as [Hin|Hout].
      * apply Hval. exact Hin.
      * apply Hlow. lia.
    + intros c Hc. rewrite block_map_lookup by lia.
      rewrite decide_False by lia. apply Hzero. lia.
  - intros b row Hb Hrow.
    assert (Hext : forward_sum_0 m (offsets A !!! b) ci cv r (zstep Z i) (di !!! row) row
                   = forward_sum_0 m (offsets A !!! b) ci cv r Z (di !!! row) row).
    { apply forward_sum_0_ext. intros c Hc. apply HZ'.
      rewrite offsets_block_lo in Hc by lia.
      pose proof (block_lo_mono A Hlayout b i ltac:(lia)). lia. }
    rewrite Hext.
    destruct (Nat.eq_dec b i) as [->|Hne].
    + rewrite block_map_lookup by lia. rewrite decide_True by exact Hrow.
      unfold forward_value_0. fold (diag_val A row).
      apply div_mul_cancel. apply Hrec. lia.
    + rewrite HZ'.
      * apply Hkept; [lia | exact Hrow].
      * pose proof (block_lo_mono A Hlayout (S b) i ltac:(lia)) as Hm.
        rewrite (block_lo_S A Hlayout b) in Hm by lia. lia.
Qed.

Lemma forward_steps k : forall a (G Z : list R),
  (a + k <= nb)%nat -> forward_rel G Z a -> forward_kept Z a ->
  forward_rel (fold_left gstep (seq a k) G) (fold_left zstep (seq a k) Z) (a + k)
  /\ forward_kept (fold_left zstep (seq a k) Z) (a + k).
Proof.
  induction k as [|k IH]; intros a G Z Hk Hrel Hkept.
  - rewrite Nat.add_0_r. split; assumption.
  - cbn [seq fold_left].
    destruct (forward_step a G Z ltac:(lia) Hrel Hkept) as [Hrel' Hkept'].
    replace (a + S k)%nat with (S a + k)%nat by lia.
    apply IH; [lia | exact Hrel' | exact Hkept'].
Qed.

Lemma backward_agree k : forall X : list R,
  (k <= nb)%nat -> length X = n -> forward_kept X k ->
  fold_left (sweep_block A r) (rev (seq 0 k)) X
  = fold_left
      (fun y i =>
         kernel_backward_sweep_0 (grid1d (sizes A !!! i) 1024) m
           (sizes A !!! i) (offsets A !!! i) w ci cv di y)
      (rev (seq 0 k)) X.
Proof.
  induction k as [|k IH]; intros X Hk HlX Hkept; [reflexivity |].
  rewrite seq_S, rev_app_distr. cbn [rev app fold_left]. rewrite Nat.add_0_l.
  pose proof (layout_sizes A Hlayout k ltac:(lia)) as Hs.
  pose proof (offsets_nonneg k ltac:(lia)) as Ho.
  pose proof (block_end_le A Hlayout k ltac:(lia)) as Hend.
  assert (Hstep : sweep_block A r X k
                  = kernel_backward_sweep_0 (grid1d (sizes A !!! k) 1024) m
                      (sizes A !!! k) (offsets A !!! k) w ci cv di X).
  { unfold sweep_block.
    rewrite kernel_symgs_sweep_block by (try apply grid1d_ge; lia).
    rewrite kernel_backward_sweep_0_block by (try apply grid1d_ge; lia).
    apply block_map_ext. intros row Hrow.
    unfold sweep_value, backward_value_0. fold (diag_val A row).
    rewrite (backward_row_agree k X row ltac:(lia) Hrow).
    - apply inv_diag_div. apply (block_row_lt k); [lia | exact Hrow].
    - apply Hkept; [lia | exact Hrow]. }
  rewrite <- Hstep. apply IH; [lia | | ].
  - unfold sweep_block. rewrite kernel_symgs_sweep_block by (try apply grid1d_ge; lia).
    rewrite block_map_length. exact HlX.
  - intros b row Hb Hrow.
    unfold sweep_block. rewrite kernel_symgs_sweep_block by (try apply grid1d_ge; lia).
    fold (block_lo A k) (block_len A k).
    pose proof (block_lo_mono A Hlayout (S b) k ltac:(lia)) as Hm.
    rewrite (block_lo_S A Hlayout b) in Hm by lia.
    rewrite block_map_lookup by lia. rewrite decide_False by lia.
    rewrite (Hkept b row ltac:(lia) Hrow).
    apply forward_sum_0_ext. intros c Hc.
    rewrite offsets_block_lo in Hc by lia.
    rewrite block_map_lookup by lia. rewrite decide_False by lia. reflexivity.
Qed.

Lemma replicate_zero_lookup k c : (replicate k (zero : R)) !!! c = zero.
Proof.
  destruct (Nat.lt_ge_cases c k) as [Hc|Hc].
  - apply list_lookup_total_correct, lookup_replicate_2. exact Hc.
  - rewrite list_lookup_total_alt, lookup_ge_None_2; [reflexivity |].
    rewrite length_replicate. exact Hc.
Qed.

Hypothesis Hsingle : geom_size A <= 1.

(** C5, as the code has it.  In exact arithmetic and in a run on one
    process, for a square matrix whose block tables tile the rows in order,
    whose blocks hold no two rows that store each other, whose slots are
    ordered around the diagonal slot named by [diag_idx], and whose
    [inv_diag] holds the reciprocals of the diagonal, [ComputeSYMGS] on
    the zero vector and [ComputeSYMGSZeroGuess] return the same vector. *)
Theorem zero_guess_agrees exchange (x0 : list R) :
  length x0 = n ->
  ComputeSYMGS exchange A r (replicate n zero) = ComputeSYMGSZeroGuess A r x0.
Proof.
  intros Hx0. pose proof (layout_nblocks A Hlayout) as Hnb.
  pose proof (layout_sizes A Hlayout 0%nat ltac:(lia)) as Hs0.
  pose proof (block_end_le A Hlayout 0%nat ltac:(lia)) as Hend0.
  pose proof (block_lo_0 A Hlayout) as Hlo0.
  unfold ComputeSYMGS, ComputeSYMGSZeroGuess, zero_guess_forward, zero_guess_backward.
  destruct (Z.ltb_spec 1 (geom_size A)) as [Hmpi|_]; [lia |].
  set (G0 := replicate n (zero : R)).
  assert (Hrel0 : forward_rel G0 x0 0).
  { split; [apply length_replicate |]. split; [exact Hx0 |]. split.
    - intros c Hc. rewrite Hlo0 in Hc. lia.
    - intros c _. apply replicate_zero_lookup. }
  assert (Hkept0 : forward_kept x0 0) by (intros b row Hb; lia).
  (* block 0 *)
  assert (HG1 : kernel_symgs_interior (grid1d (sizes A !!! 0%nat) 1024) m
                  (sizes A !!! 0%nat) w ci cv (inv_diag A) r G0 = gstep G0 0%nat).
  { rewrite kernel_symgs_interior_block by (try apply grid1d_ge; lia).
    rewrite Hlo0. rewrite Hsquare. reflexivity. }
  assert (HZ1 : kernel_pointwise_mult (grid1d (sizes A !!! 0%nat) 1024)
                  (sizes A !!! 0%nat) r (inv_diag A) x0 = zstep x0 0%nat).
  { rewrite kernel_pointwise_mult_block by (try apply grid1d_ge; lia).
    rewrite Hlo0. apply block_map_ext. intros row Hrow.
    unfold forward_value_0. fold (diag_val A row).
    rewrite <- inv_diag_div by (fold (block_len A 0) in Hrow; lia).
    f_equal. unfold forward_sum_0. symmetry. apply fold_left_noop.
    intros p s _. cbn zeta. rewrite (layout_first A Hlayout).
    destruct (Z.leb_spec 0 (ci !!! (p * m + row)%nat)); [| reflexivity].
    destruct (Z.ltb_spec (ci !!! (p * m + row)%nat) 0); [lia | reflexivity]. }
  rewrite HG1, HZ1.
  (* the other blocks *)
  assert (Hg : forall y : list R,
            fold_left (sweep_block A r) (forward_blocks A) y
            = fold_left gstep (forward_blocks A) y).
  { intros y. apply fold_left_ext_in. intros i s Hi.
    unfold forward_blocks in Hi. apply elem_of_seq in Hi.
    unfold sweep_block. apply kernel_symgs_sweep_block.
    - apply (layout_sizes A Hlayout). lia.
    - apply offsets_nonneg. lia.
    - apply grid1d_ge; [apply (layout_sizes A Hlayout) |]; lia. }
  assert (Hz : forall y : list R,
            fold_left
              (fun y i =>
                 kernel_forward_sweep_0 (grid1d (sizes A !!! i) 1024) m
                   (sizes A !!! i) (offsets A !!! i) w ci cv di r y)
              (forward_blocks A) y
            = fold_left zstep (forward_blocks A) y).
  { intros y. apply fold_left_ext_in. intros i s Hi.
    unfold forward_blocks in Hi. apply elem_of_seq in Hi.
    apply kernel_forward_sweep_0_block.
    - apply (layout_sizes A Hlayout). lia.
    - apply offsets_nonneg. lia.
    - apply grid1d_ge; [apply (layout_sizes A Hlayout) |]; lia. }
  rewrite Hg, Hz.
  assert (Hseq : 0%nat :: forward_blocks A = seq 0 nb).
  { unfold forward_blocks. replace nb with (S (nb - 1)) at 2 by lia. reflexivity. }
  assert (EG : fold_left gstep (forward_blocks A) (gstep G0 0%nat)
               = fold_left gstep (seq 0 nb) G0)
    by (rewrite <- Hseq; reflexivity).
  assert (EZ : fold_left zstep (forward_blocks A) (zstep x0 0%nat)
               = fold_left zstep (seq 0 nb) x0)
    by (rewrite <- Hseq; reflexivity).
  rewrite EG, EZ.
  destruct (forward_steps nb 0 G0 x0 ltac:(lia) Hrel0 Hkept0)
    as [(HlG & HlZ & Hlow & _) Hkept].
  rewrite Nat.add_0_l in Hlow, Hkept.
  set (Gf := fold_left gstep (seq 0 nb) G0) in *.
  set (Zf := fold_left zstep (seq 0 nb) x0) in *.
  assert (HGZ : Gf = Zf).
  { apply list_eq_total; [congruence |].
    intros c Hc. apply Hlow. rewrite (block_lo_nb A Hlayout). lia. }
  rewrite HGZ. unfold backward_blocks.
  apply backward_agree; [| exact HlZ |].
  - destruct (layout_ublocks A Hlayout) as [E|E]; rewrite E; lia.
  - intros b row Hb Hrow. apply Hkept; [| exact Hrow].
    destruct (layout_ublocks A Hlayout) as [E|E]; rewrite E in Hb; lia.
Qed.
End ZeroGuess.

Section ClosedForm.
Context {R : Type} {HA : Arith R} {HE : ExactArith R}.

Add Ring exact_ring_R2 : exact_ring.

Lemma fold_fma_sub (c : nat -> bool) (a b : nat -> R) l : forall s,
  fold_left (fun sum p => if c p then fma (neg (a p)) (b p) sum else sum) l s
  = sub s (Rsum (map (fun p => mul (a p) (b p)) (List.filter c l))).
Proof.
  induction l as [|p l IH]; intros s; cbn [fold_left List.filter].
  - unfold Rsum. cbn [map foldr]. ring.
  - rewrite IH. destruct (c p); [| reflexivity].
    cbn [map]. unfold Rsum. cbn [foldr]. rewrite fma_neg_sub. ring.
Qed.

Lemma sweep_sum_closed (A : SparseMatrix R) (x y : list R) row :
  sweep_sum (localNumberOfRows A) (localNumberOfColumns A) (ell_width A)
    (ell_col_ind A) (ell_val A) x y row
  = sub (x !!! row)
      (slot_dot (localNumberOfRows A) (ell_col_ind A) (ell_val A) y row
         (offdiag_slots A row)).
Proof.
  unfold sweep_sum, slot_dot, offdiag_slots.
  apply (fold_fma_sub
           (fun p => let col := ell_col_ind A !!! (p * localNumberOfRows A + row)%nat in
                     (0 <=? col) && (col <? Z.of_nat (localNumberOfColumns A))
                     && negb (col =? Z.of_nat row))
           (fun p => ell_val A !!! (p * localNumberOfRows A + row)%nat)
           (fun p => y !!! Z.to_nat (ell_col_ind A !!! (p * localNumberOfRows A + row)%nat))).
Qed.

Lemma forward_sum_0_closed (A : SparseMatrix R) off (x y : list R) row :
  forward_sum_0 (localNumberOfRows A) off (ell_col_ind A) (ell_val A) x y
    (diag_idx A !!! row) row
  = sub (x !!! row)
      (slot_dot (localNumberOfRows A) (ell_col_ind A) (ell_val A) y row
         (lower_slots A off row)).
Proof.
  unfold forward_sum_0, slot_dot, lower_slots.
  apply (fold_fma_sub
           (fun p => let col := ell_col_ind A !!! (p * localNumberOfRows A + row)%nat in
                     (0 <=? col) && (col <? off))
           (fun p => ell_val A !!! (p * localNumberOfRows A + row)%nat)
           (fun p => y !!! Z.to_nat (ell_col_ind A !!! (p * localNumberOfRows A + row)%nat))).
Qed.


(** C4, as the code has it.  In the forward pass of [ComputeSYMGS] the
    launch for a block [i] none of whose rows stores a column of the block
    (so that no thread reads what another one of the launch writes) gives
    every row of the block the value
    [(r[row] - sum of A[row,col] * y[col]) * invDiag[row]], the sum running
    over ALL stored off-diagonal columns in [0, n), with [y] the vector
    before the launch; rows outside the block keep their values. *)
Theorem forward_sweep_row (A : SparseMatrix R) (r y : list R) (i row : nat) :
  0 <= sizes A !!! i -> 0 <= offsets A !!! i ->
  (block_lo A i + block_len A i <= length y)%nat ->
  (forall row' c,
     (block_lo A i <= row' < block_lo A i + block_len A i)%nat ->
     (block_lo A i <= c < block_lo A i + block_len A i)%nat -> ~ stored A row' c) ->
  sweep_block A r y i !!! row
  = if decide (block_lo A i <= row < block_lo A i + block_len A i)%nat
    then mul (sub (r !!! row)
                (slot_dot (localNumberOfRows A) (ell_col_ind A) (ell_val A) y row
                   (offdiag_slots A row)))
             (inv_diag A !!! row)
    else y !!! row.
Proof.
  intros Hs Ho Hlen _. unfold sweep_block.
  rewrite kernel_symgs_sweep_block by (try apply grid1d_ge; lia).
  fold (block_lo A i) (block_len A i).
  rewrite block_map_lookup by exact Hlen.
  destruct (decide _); [| reflexivity].
  unfold sweep_value. rewrite sweep_sum_closed. reflexivity.
Qed.

(** *** The forward sweep of the zero-guess variant *)

Section ZeroGuessForward.
Variable A : SparseMatrix R.
Variable r : list R.
Hypothesis Hlayout : valid_layout A.

#[local] Abbreviation m := (localNumberOfRows A).
#[local] Abbreviation nb := (Z.to_nat (nblocks A)).

#[local] Abbreviation forward_done := (forward_done A r).

#[local] Abbreviation zstep :=
  (fun (Z : list R) i =>
     block_map (block_lo A i) (block_len A i)
       (fun y row => forward_value_0 m (offsets A !!! i) (ell_col_ind A)
                       (ell_val A) (diag_idx A) r y row) Z).

Lemma forward_done_step i (X : list R) :
  (1 <= i < nb)%nat -> (m <= length X)%nat ->
  forward_done X i -> forward_done (zstep X i) (S i).
Proof.
  intros Hi Hlen Hdone b row Hb Hrow.
  pose proof (block_end_le A Hlayout i ltac:(lia)) as Hend.
  assert (Hext : forall b', (b' <= i)%nat ->
            forward_value_0 m (offsets A !!! b') (ell_col_ind A) (ell_val A)
              (diag_idx A) r (zstep X i) row
            = forward_value_0 m (offsets A !!! b') (ell_col_ind A) (ell_val A)
                (diag_idx A) r X row).
  { intros b' Hb'. unfold forward_value_0. f_equal.
    apply forward_sum_0_ext. intros c Hc.
    rewrite block_map_lookup by lia. rewrite decide_False; [reflexivity |].
    assert (0 <= offsets A !!! b').
    { clear -Hlayout Hb' Hi. induction b' as [|b' IH].
      - rewrite (layout_first A Hlayout). lia.
      - rewrite (layout_next A Hlayout b') by lia.
        pose proof (layout_sizes A Hlayout b' ltac:(lia)).
        specialize (IH ltac:(lia)). lia. }
    pose proof (block_lo_mono A Hlayout b' i ltac:(lia)) as Hm.
    unfold block_lo in Hm at 1. lia. }
  rewrite block_map_lookup by lia.
  destruct (Nat.eq_dec b i) as [->|Hne].
  - rewrite decide_True by exact Hrow. rewrite decide_False by lia.
    symmetry. apply Hext. lia.
  - pose proof (block_lo_mono A Hlayout (S b) i ltac:(lia)) as Hm.
    rewrite (block_lo_S A Hlayout b) in Hm by lia.
    rewrite decide_False by lia. rewrite (Hdone b row) by (try exact Hrow; lia).
    destruct (decide (b = 0%nat)); [reflexivity |].
    symmetry. apply Hext. lia.
Qed.

Lemma forward_done_steps k : forall a (X : list R),
  (1 <= a)%nat -> (a + k <= nb)%nat -> (m <= length X)%nat ->
  forward_done X a -> forward_done (fold_left zstep (seq a k) X) (a + k).
Proof.
  induction k as [|k IH]; intros a X Ha Hk Hlen Hdone.
  - rewrite Nat.add_0_r. exact Hdone.
  - cbn [seq fold_left]. replace (a + S k)%nat with (S a + k)%nat by lia.
    apply IH; [lia | lia | rewrite block_map_length; exact Hlen |].
    apply forward_done_step; [lia | exact Hlen | exact Hdone].
Qed.

Lemma zero_guess_forward_done (x : list R) :
  (m <= length x)%nat -> forward_done (zero_guess_forward A r x) nb.
Proof.
  intros Hlen. pose proof (layout_nblocks A Hlayout) as Hnb.
  pose proof (layout_sizes A Hlayout 0%nat ltac:(lia)) as Hs0.
  pose proof (block_end_le A Hlayout 0%nat ltac:(lia)) as Hend0.
  pose proof (block_lo_0 A Hlayout) as Hlo0.
  unfold zero_guess_forward.
  rewrite kernel_pointwise_mult_block by (try apply grid1d_ge; lia).
  fold (block_len A 0).
  rewrite (fold_left_ext_in _ zstep).
  - unfold forward_blocks. replace nb with (1 + (nb - 1))%nat at 2 by lia.
    apply forward_done_steps; [lia | lia | rewrite block_map_length; exact Hlen |].
    intros b row Hb Hrow. replace b with 0%nat in * by lia.
    rewrite Hlo0 in Hrow.
    rewrite block_map_lookup by lia. rewrite decide_True by lia.
    rewrite decide_True by reflexivity. reflexivity.
  - intros i s Hi. unfold forward_blocks in Hi. apply elem_of_seq in Hi.
    apply kernel_forward_sweep_0_block.
    + apply (layout_sizes A Hlayout). lia.
    + pose proof (block_lo_mono A Hlayout 0 i ltac:(lia)) as Hm.
      assert (0 <= offsets A !!! i); [| lia].
      { assert (Hi' : (i <= nb)%nat) by lia. clear -Hlayout Hi'.
        induction i as [|i IH].
        - rewrite (layout_first A Hlayout). lia.
        - rewrite (layout_next A Hlayout i) by lia.
          pose proof (layout_sizes A Hlayout i ltac:(lia)).
          specialize (IH ltac:(lia)). lia. }
    + apply grid1d_ge; [apply (layout_sizes A Hlayout) |]; lia.
Qed.
End ZeroGuessForward.

(** C6.  After the forward sweep of [ComputeSYMGSZeroGuess] every row of
    block 0 holds [r[row] * invDiag[row]]; every row of a later block [b]
    holds [(r[row] - sum) / diag_val], where the sum runs over the slots
    strictly below the row's diagonal slot whose column lies below the
    block's offset (rows of earlier blocks, already updated), and the
    divisor is the diagonal value stored in the matrix, not [invDiag]. *)
Theorem zero_guess_forward_rows (A : SparseMatrix R) (r x : list R) (b row : nat) :
  valid_layout A ->
  (localNumberOfRows A <= length x)%nat ->
  (b < Z.to_nat (nblocks A))%nat ->
  (block_lo A b <= row < block_lo A b + block_len A b)%nat ->
  zero_guess_forward A r x !!! row
  = if decide (b = 0%nat) then mul (r !!! row) (inv_diag A !!! row)
    else div (sub (r !!! row)
                (slot_dot (localNumberOfRows A) (ell_col_ind A) (ell_val A)
                   (zero_guess_forward A r x) row
                   (lower_slots A (offsets A !!! b) row)))
             (diag_val A row).
Proof.
  intros Hlayout Hlen Hb Hrow.
  rewrite (zero_guess_forward_done A r Hlayout x Hlen b row Hb Hrow) at 1.
  destruct (decide (b = 0%nat)); [reflexivity |].
  unfold forward_value_0. rewrite forward_sum_0_closed. reflexivity.
Qed.

End ClosedForm.

Section Runs.
Variable rand : nat -> Z.
Variable MAX_COLORS : Z.
Variable m : nat.
Variable nnz : nat.
Variable hash : list Z.
Variable ind : list Z.

#[local] Abbreviation round := (jpl_round rand m nnz hash ind).
#[local] Abbreviation round_counted := (jpl_round_counted rand m nnz hash ind).

Lemma round_counted_forget st st' :
  forget_tmp st = forget_tmp st' ->
  forget_tmp (round_counted st) = forget_tmp (round_counted st').
Proof.
  intros E. unfold forget_tmp in E. injection E as Ec En Ecd Es Eo Er.
  unfold jpl_round_counted, round_colors. rewrite En, Er, Ec.
  destruct (st_nblocks st' <? 8); unfold forget_tmp; cbn [colors st_nblocks colored
    st_sizes st_offsets rng]; rewrite ?Ecd, ?Es, ?Eo; reflexivity.
Qed.

Lemma round_forget st :
  (256 <= length (tmp st))%nat ->
  forget_tmp (round st) = forget_tmp (round_counted st)
  /\ (256 <= length (tmp (round st)))%nat.
Proof.
  intros Htmp. rewrite round_fields.
  unfold jpl_round_counted, color1_of, color2_of.
  destruct (round_colors rand st) as [[c1 c2] d]. cbn [fst snd].
  set (cs := kernel_jpl _ _ _ _ _ _ _ _).
  destruct (count_color_spec m c1 cs (tmp st) Htmp) as [E1 L1].
  destruct (count_color_spec m c2 cs (count_color m c1 cs (tmp st)).2) as [E2 L2];
    [rewrite L1; exact Htmp |].
  cbn [fst snd] in *. unfold forget_tmp. cbn [colors st_nblocks colored st_sizes
    st_offsets rng tmp]. rewrite E1, E2. split; [reflexivity |].
  rewrite L2, L1. exact Htmp.
Qed.

Lemma loop_forget rounds : forall st st',
  (256 <= length (tmp st))%nat -> forget_tmp st = forget_tmp st' ->
  forget_result (jpl_loop rand MAX_COLORS m nnz hash ind rounds st)
  = forget_result (jpl_loop_counted rand MAX_COLORS m nnz hash ind rounds st').
Proof.
  induction rounds as [|n IH]; intros st st' Htmp E;
    cbn [jpl_loop jpl_loop_counted];
    assert (Ecd : colored st = colored st')
      by (apply (f_equal colored) in E; exact E);
    assert (Enb : st_nblocks st = st_nblocks st')
      by (apply (f_equal st_nblocks) in E; exact E);
    rewrite Ecd, ?Enb.
  - destruct (colored st' =? Z.of_nat m); cbn [forget_result]; rewrite E; reflexivity.
  - destruct (colored st' =? Z.of_nat m); [cbn [forget_result]; rewrite E; reflexivity |].
    destruct (st_nblocks st' + 2 <? MAX_COLORS);
      [| cbn [forget_result]; rewrite E; reflexivity].
    destruct (round_forget st Htmp) as [E' Htmp'].
    apply IH; [exact Htmp' |]. rewrite E'. apply round_counted_forget. exact E.
Qed.

(** What the loop does, read off the counted loop. *)
Lemma loop_exited_counted rounds ws stc :
  (256 <= length ws)%nat ->
  jpl_loop_counted rand MAX_COLORS m nnz hash ind rounds (jpl_init m ws) = Exited stc ->
  exists st, jpl_loop rand MAX_COLORS m nnz hash ind rounds (jpl_init m ws) = Exited st
             /\ forget_tmp st = forget_tmp stc.
Proof.
  intros Hws Hc.
  pose proof (loop_forget rounds (jpl_init m ws) (jpl_init m ws) Hws eq_refl) as E.
  rewrite Hc in E. cbn [forget_result] in E.
  destruct (jpl_loop rand MAX_COLORS m nnz hash ind rounds (jpl_init m ws)) as [st|st|st];
    cbn [forget_result] in E; try discriminate.
  exists st. split; [reflexivity | congruence].
Qed.

Lemma loop_running_counted rounds ws stc :
  (256 <= length ws)%nat ->
  jpl_loop_counted rand MAX_COLORS m nnz hash ind rounds (jpl_init m ws) = Running stc ->
  exists st, jpl_loop rand MAX_COLORS m nnz hash ind rounds (jpl_init m ws) = Running st
             /\ forget_tmp st = forget_tmp stc.
Proof.
  intros Hws Hc.
  pose proof (loop_forget rounds (jpl_init m ws) (jpl_init m ws) Hws eq_refl) as E.
  rewrite Hc in E. cbn [forget_result] in E.
  destruct (jpl_loop rand MAX_COLORS m nnz hash ind rounds (jpl_init m ws)) as [st|st|st];
    cbn [forget_result] in E; try discriminate.
  exists st. split; [reflexivity | congruence].
Qed.
End Runs.

Section RowColour.
Variable m : nat.
Variable nnz : nat.
Variable hash : list Z.
Variable ind : list Z.

(** C8, as the code has it.  A row that is uncoloured when the round
    starts is compared with its stored neighbours that are uncoloured or
    hold one of the two candidate colours, and with no others.  It gets
    [color1] exactly when its hash is a strict maximum among them; it gets
    [color2] exactly when its hash is a strict minimum among them and not
    a strict maximum (the two coincide only when there is nothing to compare
    with); a neighbour of equal hash leaves it uncoloured. *)
Theorem kernel_jpl_row (rows : nat) (color1 color2 : Z) (colors : list Z)
    (row : nat) :
  (m <= rows)%nat -> length colors = m -> (row < m)%nat ->
  colors !!! row = -1 ->
  color1 <> color2 -> color1 <> -1 -> color2 <> -1 ->
  let c' := kernel_jpl rows m hash color1 color2 nnz ind colors !!! row in
  let is_max := strict_local_max m hash color1 color2 nnz ind colors row in
  let is_min := strict_local_min m hash color1 color2 nnz ind colors row in
  (c' = color1 <-> is_max)
  /\ (c' = color2 <-> is_min /\ ~ is_max)
  /\ (c' = -1 <-> ~ is_max /\ ~ is_min)
  /\ ((exists c, neighbour m nnz ind row c /\ compared color1 color2 colors c
                 /\ hash !!! c = hash !!! row) -> c' = -1).
Proof.
  intros Hrows Hlen Hrow Hun H12 H1 H2 c' is_max is_min.
  unfold c'. rewrite kernel_jpl_lookup by assumption.
  pose proof (jpl_new_color_cases m hash color1 color2 nnz ind colors row Hrow) as C.
  cbn zeta in C. fold is_max is_min in C.
  set (c := jpl_new_color m hash color1 color2 nnz ind colors row) in *.
  assert (Htie : (exists c0, neighbour m nnz ind row c0 /\ compared color1 color2 colors c0
                    /\ hash !!! c0 = hash !!! row) -> ~ is_max /\ ~ is_min).
  { intros (c0 & Hn & Hc & E). split; intros Hx; specialize (Hx c0 Hn Hc); lia. }
  destruct C as [[Hc _]|[_ [[Hmax E]|[(Hnmax & Hmin & E)|(Hnmax & Hnmin & E)]]]];
    [congruence | | |]; rewrite E.
  all: repeat split; try tauto; try congruence.
Qed.
End RowColour.

Section LoopProperties.
Variable rand : nat -> Z.
Variable MAX_COLORS : Z.
Variable m : nat.
Variable nnz : nat.
Variable hash : list Z.
Variable ind : list Z.

#[local] Abbreviation round := (jpl_round rand m nnz hash ind).
#[local] Abbreviation loop := (jpl_loop rand MAX_COLORS m nnz hash ind).
#[local] Abbreviation iter := (jpl_iter rand m nnz hash ind).

Lemma round_nblocks st : st_nblocks (round st) = st_nblocks st + 2.
Proof. rewrite round_fields. reflexivity. Qed.

Lemma round_rng st :
  rng (round st) = Nat.add (rng st) (if st_nblocks st <? 8 then 2%nat else 0%nat).
Proof.
  rewrite round_fields. cbn [rng]. unfold round_colors.
  destruct (st_nblocks st <? 8); reflexivity.
Qed.

Lemma iter_S k st : iter (S k) st = round (iter k st).
Proof. revert st. induction k as [|k IH]; intros st; [reflexivity |].
       cbn [jpl_iter] in *. rewrite IH. reflexivity. Qed.

Lemma iter_counters k ws :
  st_nblocks (iter k (jpl_init m ws)) = 2 * Z.of_nat k
  /\ rng (iter k (jpl_init m ws)) = Nat.min (2 * k) 8.
Proof.
  induction k as [|k [IHn IHr]]; [split; reflexivity |].
  rewrite iter_S, round_nblocks, round_rng, IHn, IHr. split; [lia |].
  destruct (Z.ltb_spec (2 * Z.of_nat k) 8); lia.
Qed.

(** The loop leaves through a state that some number of rounds reaches. *)
Lemma loop_exit_iter rounds : forall st st',
  loop rounds st = Exited st' -> exists k, (k <= rounds)%nat /\ st' = iter k st.
Proof.
  induction rounds as [|n IH]; intros st st' E; cbn [jpl_loop] in E.
  - destruct (colored st =? Z.of_nat m); [| discriminate].
    injection E as <-. exists 0%nat. split; [lia | reflexivity].
  - destruct (colored st =? Z.of_nat m).
    + injection E as <-. exists 0%nat. split; [lia | reflexivity].
    + destruct (st_nblocks st + 2 <? MAX_COLORS); [| discriminate].
      destruct (IH _ _ E) as (k & Hk & ->). exists (S k). split; [lia | reflexivity].
Qed.

(** C7, as the code has it.  Round [k] (counted from 0) starts with
    [nblocks = 2 k].  In the first 4 rounds, that is for the first 8
    nominated colours, both candidates are values of [rand() % 8], so they
    lie in the palette [0 .. 7]; from the fifth round on the candidates
    are [2 k] and [2 k + 1], two colours that no earlier round
    nominated. *)
Theorem round_candidates (ws : list Z) (k : nat) :
  (forall i, 0 <= rand i) ->
  let c1 := fun j => color1_of rand (iter j (jpl_init m ws)) in
  let c2 := fun j => color2_of rand (iter j (jpl_init m ws)) in
  st_nblocks (iter k (jpl_init m ws)) = 2 * Z.of_nat k
  /\ ((k < 4)%nat ->
      c1 k = draw rand (2 * k) /\ c2 k = draw rand (2 * k + 1)
      /\ 0 <= c1 k < 8 /\ 0 <= c2 k < 8)
  /\ ((4 <= k)%nat ->
      c1 k = 2 * Z.of_nat k /\ c2 k = 2 * Z.of_nat k + 1
      /\ forall j, (j < k)%nat ->
           c1 j <> c1 k /\ c2 j <> c1 k /\ c1 j <> c2 k /\ c2 j <> c2 k).
Proof.
  intros Hrand c1 c2.
  assert (Hc : forall j,
            (j < 4)%nat /\ c1 j = draw rand (2 * j) /\ c2 j = draw rand (2 * j + 1)
            \/ (4 <= j)%nat /\ c1 j = 2 * Z.of_nat j /\ c2 j = 2 * Z.of_nat j + 1).
  { intros j. unfold c1, c2, color1_of, color2_of, round_colors.
    destruct (iter_counters j ws) as [En Er]. rewrite En, Er.
    destruct (Z.ltb_spec (2 * Z.of_nat j) 8); cbn [fst snd].
    - left. split; [lia |]. unfold draw.
      replace (Nat.min (2 * j) 8) with (2 * j)%nat by lia.
      replace (S (2 * j)) with (2 * j + 1)%nat by lia. split; reflexivity.
    - right. split; [lia |]. split; reflexivity. }
  split; [apply iter_counters |]. split.
  - intros Hk. destruct (Hc k) as [(_ & E1 & E2)|(Hge & _)]; [| lia].
    rewrite E1, E2. repeat split; try apply draw_range; apply Hrand.
  - intros Hk. destruct (Hc k) as [(Hlt & _)|(_ & E1 & E2)]; [lia |].
    split; [exact E1 |]. split; [exact E2 |]. intros j Hj. rewrite E1, E2.
    destruct (Hc j) as [(_ & F1 & F2)|(_ & F1 & F2)]; rewrite F1, F2.
    + pose proof (draw_range rand (2 * j) (Hrand _)).
      pose proof (draw_range rand (2 * j + 1) (Hrand _)). lia.
    + lia.
Qed.

Hypothesis nnz_range : 1 <= Z.of_nat nnz <= 512.
Hypothesis rand_nonneg : forall i, 0 <= rand i.

(** C3.  When the round loop is left, every row has a colour other than
    -1, and the recorded block sizes add up to [localNumberOfRows].  The
    values of [rand() % 8] drawn during the run are taken to be pairwise
    different, as those of the seed are. *)
Theorem loop_exit_complete (ws : list Z) (rounds : nat) (st : jpl_state) :
  (256 <= length ws)%nat ->
  loop rounds (jpl_init m ws) = Exited st ->
  distinct_draws rand (rng st) ->
  (forall i, (i < m)%nat -> colors st !!! i <> -1)
  /\ Zsum (st_sizes st) = Z.of_nat m.
Proof.
  intros Hws Hloop Hd.
  destruct (loop_exit_inv rand MAX_COLORS m nnz hash ind nnz_range rand_nonneg
              rounds _ st (init_inv rand m ws Hws) Hloop Hd) as [Hinv Hm].
  split.
  - apply coloured_rows_all. rewrite <- (inv_colored Hinv). exact Hm.
  - rewrite (inv_sizes Hinv). exact Hm.
Qed.

(** C2, as the code has it.  When the round loop is left, the adjacency
    structure is symmetric and the [rand() % 8] values drawn during the run
    were pairwise different, the colours form a proper colouring: the two
    rows of every stored off-diagonal entry with a local column have
    different colours. *)
Theorem loop_exit_proper_colouring (ws : list Z) (rounds : nat) (st : jpl_state) :
  (256 <= length ws)%nat ->
  symmetric_adjacency m nnz ind ->
  loop rounds (jpl_init m ws) = Exited st ->
  distinct_draws rand (rng st) ->
  forall r c, neighbour m nnz ind r c -> colors st !!! r <> colors st !!! c.
Proof.
  intros Hws Hsym Hloop Hd r c Hrc.
  destruct (loop_exit_inv rand MAX_COLORS m nnz hash ind nnz_range rand_nonneg
              rounds _ st (init_inv rand m ws Hws) Hloop Hd) as [Hinv Hm].
  apply (loop_exit_proper rand MAX_COLORS m nnz hash ind nnz_range rand_nonneg
           rounds _ st Hsym (init_inv rand m ws Hws) (init_proper m nnz ind ws)
           Hloop Hd r c Hrc).
  apply (coloured_rows_all (colors st) m); [| apply Hrc].
  rewrite <- (inv_colored Hinv). exact Hm.
Qed.

Lemma loop_terminates_room rounds : forall st B,
  distinct_neighbour_hashes m nnz hash ind -> distinct_draws rand 8 ->
  jpl_inv rand m st -> Z.of_nat m - colored st <= Z.of_nat rounds ->
  st_nblocks st + 2 * Z.of_nat rounds <= B ->
  match loop rounds st with
  | Exited st' => jpl_inv rand m st' /\ colored st' = Z.of_nat m
  | Overrun st' => MAX_COLORS <= st_nblocks st' + 2 <= B
  | Running _ => False
  end.
Proof.
  induction rounds as [|n IH]; intros st B Hh Hd Hinv Hfuel HB; cbn [jpl_loop].
  - pose proof (coloured_rows_le (colors st) m) as Hle.
    rewrite <- (inv_colored Hinv) in Hle.
    destruct (Z.eqb_spec (colored st) (Z.of_nat m)); [| lia].
    split; assumption.
  - destruct (Z.eqb_spec (colored st) (Z.of_nat m)) as [E|E]; [split; assumption |].
    destruct (Z.ltb_spec (st_nblocks st + 2) MAX_COLORS) as [Hroom|Hfull]; [| lia].
    assert (Hd' : distinct_draws rand (rng (round st))).
    { apply (distinct_draws_le rand 8); [| exact Hd].
      rewrite round_rng, (inv_rng Hinv).
      pose proof (inv_nb Hinv). pose proof (inv_even Hinv) as Hev.
      destruct (Z.ltb_spec (st_nblocks st) 8); [| lia].
      assert (st_nblocks st <> 7) by (intros E7; rewrite E7 in Hev; discriminate).
      lia. }
    apply IH; [exact Hh | exact Hd | apply round_inv; assumption | |].
    + pose proof (round_progress rand m nnz hash ind nnz_range rand_nonneg
                    st Hh Hinv Hd' E). lia.
    + rewrite round_nblocks. lia.
Qed.

(** C10, as the code has it.  The loop has no bound on its rounds and no
    failure signal of its own.  When stored neighbours have different
    hashes and the eight palette draws are pairwise different, every round
    colours at least one row: after at most [localNumberOfRows] rounds the
    loop is left with every row coloured, unless the tables of
    [MAX_COLORS] entries are full before, which needs
    [MAX_COLORS <= 2 * localNumberOfRows]. *)
Theorem loop_terminates_within_rows (ws : list Z) :
  (256 <= length ws)%nat ->
  distinct_neighbour_hashes m nnz hash ind ->
  distinct_draws rand 8 ->
  match loop m (jpl_init m ws) with
  | Exited st => forall i, (i < m)%nat -> colors st !!! i <> -1
  | Overrun st => MAX_COLORS <= st_nblocks st + 2 <= 2 * Z.of_nat m
  | Running _ => False
  end.
Proof.
  intros Hws Hh Hd.
  pose proof (loop_terminates_room m (jpl_init m ws) (2 * Z.of_nat m) Hh Hd
                (init_inv rand m ws Hws)) as T.
  cbn [jpl_init colored st_nblocks] in T.
  specialize (T ltac:(lia) ltac:(lia)).
  destruct (loop m (jpl_init m ws)) as [st|st|st]; [| exact T | exact T].
  destruct T as [Hinv Hm]. apply coloured_rows_all.
  rewrite <- (inv_colored Hinv). exact Hm.
Qed.
End LoopProperties.

(** ** The examples *)

Section ExampleFacts.
Import Examples.

Lemma stream_nonneg values :
  Forall (fun v => 0 <= v) values -> forall i, 0 <= stream values i.
Proof.
  intros Hall i. unfold stream. revert i.
  induction Hall as [|v values Hv _ IH]; intros [|i]; cbn [nth]; try lia; apply IH.
Qed.

Lemma palette_order_nonneg i : 0 <= palette_order i.
Proof. apply stream_nonneg. repeat constructor; lia. Qed.

Lemma repeated_draw_nonneg i : 0 <= repeated_draw i.
Proof. apply stream_nonneg. repeat constructor; lia. Qed.

Lemma palette_order_distinct : distinct_draws palette_order 8.
Proof.
  unfold distinct_draws. vm_compute.
  apply NoDup_ListNoDup. repeat constructor; cbn [In]; intuition discriminate.
Qed.

Lemma workspace0_length : (256 <= length workspace0)%nat.
Proof. unfold workspace0. rewrite length_replicate. lia. Qed.
End ExampleFacts.

Section ColouringExamples.
Import Examples.

(** The run on the four-row grid with the palette order: two rounds. *)
Lemma grid_run :
  exists st,
    jpl_loop palette_order 128 4 3 grid_hash grid_ind 2 (jpl_init 4 workspace0)
    = Exited st
    /\ forget_tmp st
       = {| colors := [0; 1; 7; 7]; st_nblocks := 4; colored := 4;
            st_sizes := [1; 2; 1; 0]; st_offsets := [0; 1; 3; 4; 4];
            tmp := []; rng := 4 |}.
Proof.
  destruct (loop_exited_counted palette_order 128 4 3 grid_hash grid_ind 2 workspace0
              {| colors := [0; 1; 7; 7]; st_nblocks := 4; colored := 4;
                 st_sizes := [1; 2; 1; 0]; st_offsets := [0; 1; 3; 4; 4];
                 tmp := workspace0; rng := 4 |} workspace0_length)
    as (st & Hloop & Hf); [vm_compute; reflexivity |].
  exists st. split; [exact Hloop | exact Hf].
Qed.

Lemma grid_symmetric : symmetric_adjacency 4 3 grid_ind.
Proof.
  intros r c (Hr & Hc & Hne & tx & Htx & E).
  do 4 (destruct r as [|r]; [do 3 (destruct tx as [|tx]; [cbn in E;
    try (assert (c = 0%nat) by lia); try (assert (c = 1%nat) by lia);
    try (assert (c = 2%nat) by lia); try (assert (c = 3%nat) by lia);
    try lia; subst c;
    (split; [lia |]; split; [lia |]; split; [lia |];
     first [ exists 0%nat; split; [lia | reflexivity]
           | exists 1%nat; split; [lia | reflexivity]
           | exists 2%nat; split; [lia | reflexivity] ]) |]); lia |]).
  lia.
Qed.

Lemma grid_hashes_distinct : distinct_neighbour_hashes 4 3 grid_hash grid_ind.
Proof.
  intros r c (Hr & Hc & Hne & tx & Htx & E).
  do 4 (destruct r as [|r]; [do 3 (destruct tx as [|tx]; [cbn in E;
    try (assert (c = 0%nat) by lia); try (assert (c = 1%nat) by lia);
    try (assert (c = 2%nat) by lia); try (assert (c = 3%nat) by lia);
    try lia; subst c; vm_compute; discriminate |]); lia |]).
  lia.
Qed.

Lemma grid_rng_distinct (st : jpl_state) :
  forget_tmp st
  = {| colors := [0; 1; 7; 7]; st_nblocks := 4; colored := 4;
       st_sizes := [1; 2; 1; 0]; st_offsets := [0; 1; 3; 4; 4];
       tmp := []; rng := 4 |} ->
  distinct_draws palette_order (rng st).
Proof.
  intros Hf. apply (f_equal rng) in Hf. cbn [forget_tmp rng] in Hf. rewrite Hf.
  apply (distinct_draws_le palette_order 8); [lia | exact palette_order_distinct].
Qed.

Lemma loop_exit_complete_witness :
  exists st,
    jpl_loop palette_order 128 4 3 grid_hash grid_ind 2 (jpl_init 4 workspace0)
    = Exited st
    /\ (forall i, (i < 4)%nat -> colors st !!! i <> -1)
    /\ Zsum (st_sizes st) = 4.
Proof.
  destruct grid_run as (st & Hloop & Hf). exists st. split; [exact Hloop |].
  apply (loop_exit_complete palette_order 128 4 3 grid_hash grid_ind
           ltac:(lia) palette_order_nonneg workspace0 2 st workspace0_length Hloop).
  apply grid_rng_distinct. exact Hf.
Defined.

Lemma complete_symmetric : symmetric_adjacency 4 4 complete_ind.
Proof.
  intros r c (Hr & Hc & Hne & _).
  split; [exact Hc |]. split; [exact Hr |]. split; [lia |].
  exists r. split; [exact Hr |].
  do 4 (destruct c as [|c]; [do 4 (destruct r as [|r]; [reflexivity |]); lia |]).
  lia.
Qed.

(** C2, at two inputs, both with every column index in range and the
    diagonal stored once per row.  (1) A one-way cycle: row 0 stores
    column 1, but row 1 does not store column 0.  Rows 0 and 1 are both
    maxima of what they see and get the same colour, although the two
    draws differ.  (2) Every row stores every column, and both draws of
    the round are 3: the maximum row 0 and the minimum row 1 get colour 3,
    the loop is left, and the entry (0, 1) joins two rows of one colour. *)
Lemma improper_colouring_examples :
  (exists st,
     jpl_loop palette_order 128 3 2 cycle_hash cycle_ind 1 (jpl_init 3 workspace0)
     = Exited st
     /\ neighbour 3 2 cycle_ind 0 1
     /\ colors st !!! 0%nat = colors st !!! 1%nat)
  /\ (exists st,
       jpl_loop repeated_draw 128 4 4 complete_hash complete_ind 1
         (jpl_init 4 workspace0)
       = Exited st
       /\ symmetric_adjacency 4 4 complete_ind
       /\ neighbour 4 4 complete_ind 0 1
       /\ colors st !!! 0%nat = colors st !!! 1%nat).
Proof.
  split.
  - destruct (loop_exited_counted palette_order 128 3 2 cycle_hash cycle_ind 1
                workspace0
                {| colors := [0; 0; 7]; st_nblocks := 2; colored := 3;
                   st_sizes := [2; 1]; st_offsets := [0; 2; 3];
                   tmp := workspace0; rng := 2 |} workspace0_length)
      as (st & Hloop & Hf); [vm_compute; reflexivity |].
    exists st. split; [exact Hloop |]. split.
    + split; [lia |]. split; [lia |]. split; [lia |].
      exists 1%nat. split; [lia | reflexivity].
    + apply (f_equal colors) in Hf. cbn [forget_tmp colors] in Hf. rewrite Hf.
      reflexivity.
  - destruct (loop_exited_counted repeated_draw 128 4 4 complete_hash complete_ind 1
                workspace0
                {| colors := [3; 3; -1; -1]; st_nblocks := 2; colored := 4;
                   st_sizes := [2; 2]; st_offsets := [0; 2; 4];
                   tmp := workspace0; rng := 2 |} workspace0_length)
      as (st & Hloop & Hf); [vm_compute; reflexivity |].
    exists st. split; [exact Hloop |]. split; [exact complete_symmetric |]. split.
    + split; [lia |]. split; [lia |]. split; [lia |].
      exists 1%nat. split; [lia | reflexivity].
    + apply (f_equal colors) in Hf. cbn [forget_tmp colors] in Hf. rewrite Hf.
      reflexivity.
Qed.

Lemma loop_exit_proper_colouring_witness :
  exists st,
    jpl_loop palette_order 128 4 3 grid_hash grid_ind 2 (jpl_init 4 workspace0)
    = Exited st
    /\ forall r c, neighbour 4 3 grid_ind r c -> colors st !!! r <> colors st !!! c.
Proof.
  destruct grid_run as (st & Hloop & Hf). exists st. split; [exact Hloop |].
  apply (loop_exit_proper_colouring palette_order 128 4 3 grid_hash grid_ind
           ltac:(lia) palette_order_nonneg workspace0 2 st workspace0_length
           grid_symmetric Hloop).
  apply grid_rng_distinct. exact Hf.
Defined.

(** The run on the ring of twelve rows: six rounds, of which the last
    two nominate the colours 8, 9 and 10, 11. *)
Lemma ring_run :
  exists st,
    jpl_loop palette_order 128 12 3 ring_hash ring_ind 6 (jpl_init 12 workspace0)
    = Exited st
    /\ colors st = [7; 2; 3; 6; 9; 11; 10; 8; 5; 4; 1; 0]
    /\ st_nblocks st = 12.
Proof.
  destruct (loop_exited_counted palette_order 128 12 3 ring_hash ring_ind 6 workspace0
              {| colors := [7; 2; 3; 6; 9; 11; 10; 8; 5; 4; 1; 0];
                 st_nblocks := 12; colored := 12;
                 st_sizes := [1; 1; 1; 1; 1; 1; 1; 1; 1; 1; 1; 1];
                 st_offsets := [0; 1; 2; 3; 4; 5; 6; 7; 8; 9; 10; 11; 12];
                 tmp := workspace0; rng := 8 |} workspace0_length)
    as (st & Hloop & Hf); [vm_compute; reflexivity |].
  exists st. split; [exact Hloop |]. split.
  - apply (f_equal colors) in Hf. exact Hf.
  - apply (f_equal st_nblocks) in Hf. exact Hf.
Qed.

(** C7, at an input.  On the ring of twelve rows, with the draws of the
    seed, the loop is still running after four rounds, with eight rows
    coloured and room in the tables: the fifth round, one of the first
    eight, runs, and its candidates are 8 and 9, outside the palette. *)
Lemma fifth_round_leaves_palette :
  exists st,
    jpl_loop palette_order 128 12 3 ring_hash ring_ind 4 (jpl_init 12 workspace0)
    = Running st
    /\ colored st = 8 /\ st_nblocks st + 2 < 128
    /\ color1_of palette_order st = 8 /\ color2_of palette_order st = 9.
Proof.
  destruct (loop_running_counted palette_order 128 12 3 ring_hash ring_ind 4 workspace0
              {| colors := [7; 2; 3; 6; -1; -1; -1; -1; 5; 4; 1; 0];
                 st_nblocks := 8; colored := 8;
                 st_sizes := [1; 1; 1; 1; 1; 1; 1; 1];
                 st_offsets := [0; 1; 2; 3; 4; 5; 6; 7; 8];
                 tmp := workspace0; rng := 8 |} workspace0_length)
    as (st & Hloop & Hf); [vm_compute; reflexivity |].
  exists st. split; [exact Hloop |].
  assert (En : st_nblocks st = 8) by (apply (f_equal st_nblocks) in Hf; exact Hf).
  assert (Ecol : colored st = 8) by (apply (f_equal colored) in Hf; exact Hf).
  split; [exact Ecol |]. split; [lia |].
  unfold color1_of, color2_of, round_colors. rewrite En. split; reflexivity.
Qed.

Lemma round_candidates_witness :
  let init := jpl_init 12 workspace0 in
  let c1 := fun j =>
    color1_of palette_order (jpl_iter palette_order 12 3 ring_hash ring_ind j init) in
  let c2 := fun j =>
    color2_of palette_order (jpl_iter palette_order 12 3 ring_hash ring_ind j init) in
  (c1 3%nat = draw palette_order (2 * 3) /\ c2 3%nat = draw palette_order (2 * 3 + 1)
   /\ 0 <= c1 3%nat < 8 /\ 0 <= c2 3%nat < 8)
  /\ (c1 4%nat = 2 * Z.of_nat 4 /\ c2 4%nat = 2 * Z.of_nat 4 + 1
      /\ forall j, (j < 4)%nat ->
           c1 j <> c1 4%nat /\ c2 j <> c1 4%nat /\ c1 j <> c2 4%nat /\ c2 j <> c2 4%nat).
Proof.
  split.
  - exact (proj1 (proj2 (round_candidates palette_order 12 3 ring_hash ring_ind
                           workspace0 3 palette_order_nonneg)) ltac:(lia)).
  - exact (proj2 (proj2 (round_candidates palette_order 12 3 ring_hash ring_ind
                           workspace0 4 palette_order_nonneg)) ltac:(lia)).
Defined.

(** C8, at an input.  A row that stores only its diagonal is a strict
    local minimum of an empty neighbourhood, yet it gets [color1 = 0], not
    [color2 = 7]. *)
Lemma isolated_row_gets_color1 :
  ~ (kernel_jpl (jpl_grid_rows 1 1) 1 [5] 0 7 1 [0] [-1] !!! 0%nat = 7
     <-> strict_local_min 1 [5] 0 7 1 [0] [-1] 0).
Proof.
  intros [_ H].
  assert (Hmin : strict_local_min 1 [5] 0 7 1 [0] [-1] 0).
  { intros c (_ & Hc & Hne & _). lia. }
  specialize (H Hmin). vm_compute in H. discriminate.
Qed.

Lemma kernel_jpl_row_witness :
  let cs := [-1; -1; -1; -1] in
  let c' := kernel_jpl (jpl_grid_rows 4 3) 4 grid_hash 0 7 3 grid_ind cs !!! 0%nat in
  let is_max := strict_local_max 4 grid_hash 0 7 3 grid_ind cs 0 in
  let is_min := strict_local_min 4 grid_hash 0 7 3 grid_ind cs 0 in
  (c' = 0 <-> is_max)
  /\ (c' = 7 <-> is_min /\ ~ is_max)
  /\ (c' = -1 <-> ~ is_max /\ ~ is_min)
  /\ ((exists c, neighbour 4 3 grid_ind 0 c /\ compared 0 7 cs c
                 /\ grid_hash !!! c = grid_hash !!! 0%nat) -> c' = -1).
Proof.
  exact (kernel_jpl_row 4 3 grid_hash grid_ind (jpl_grid_rows 4 3) 0 7
           [-1; -1; -1; -1] 0
           ltac:(vm_compute; lia) ltac:(reflexivity) ltac:(lia)
           ltac:(reflexivity) ltac:(lia) ltac:(lia) ltac:(lia)).
Defined.

(** Two rows that store each other and have the same hash: while both
    are uncoloured, a round colours neither. *)
Lemma tie_round (st : jpl_state) :
  jpl_inv palette_order 2 st ->
  (forall i, (i < 2)%nat -> colors st !!! i = -1) ->
  jpl_inv palette_order 2 (jpl_round palette_order 2 2 tie_hash tie_ind st)
  /\ (forall i, (i < 2)%nat ->
        colors (jpl_round palette_order 2 2 tie_hash tie_ind st) !!! i = -1).
Proof.
  intros Hinv Hun. split.
  - apply round_inv; [lia | exact palette_order_nonneg | exact Hinv |].
    apply (distinct_draws_le palette_order 8); [| exact palette_order_distinct].
    rewrite round_rng, (inv_rng Hinv).
    pose proof (inv_nb Hinv) as Hnb. pose proof (inv_even Hinv) as Hev.
    apply Z.even_spec in Hev. destruct Hev as [h Hh].
    destruct (Z.ltb_spec (st_nblocks st) 8); lia.
  - intros i Hi.
    assert (Hnb : neighbour 2 2 tie_ind i (1 - i)).
    { split; [lia |]. split; [lia |]. split; [lia |].
      exists (1 - i)%nat. split; [lia |].
      destruct i as [|[|i]]; [reflexivity | reflexivity | lia]. }
    assert (Hcmp : compared (color1_of palette_order st) (color2_of palette_order st)
                     (colors st) (1 - i)).
    { left. apply Hun. lia. }
    assert (Htie : tie_hash !!! (1 - i)%nat = tie_hash !!! i).
    { destruct i as [|[|i]]; [reflexivity | reflexivity | lia]. }
    destruct (round_color_cases palette_order 2 2 tie_hash tie_ind ltac:(lia) st i
                Hinv Hi) as [[Hc _]|[_ [[Hmax _]|[(_ & Hmin & _)|(_ & _ & E)]]]].
    + specialize (Hun i Hi). congruence.
    + specialize (Hmax _ Hnb Hcmp). lia.
    + specialize (Hmin _ Hnb Hcmp). lia.
    + exact E.
Qed.

Lemma tie_iter k :
  let st := jpl_iter palette_order 2 2 tie_hash tie_ind k (jpl_init 2 workspace0) in
  jpl_inv palette_order 2 st /\ (forall i, (i < 2)%nat -> colors st !!! i = -1).
Proof.
  induction k as [|k IH]; cbn zeta.
  - split; [apply init_inv, workspace0_length |].
    intros [|[|i]] Hi; [reflexivity | reflexivity | lia].
  - rewrite iter_S. destruct IH as [Hinv Hun]. apply tie_round; assumption.
Qed.

(** C10, at an input.  Rows 0 and 1 store each other and have the same
    hash.  Neither is ever a strict maximum or minimum, so after any number
    of rounds no row is coloured, and the loop is never left, however many
    rounds are run and however large the tables are. *)
Lemma tied_rows_never_coloured :
  (forall k, colored (jpl_iter palette_order 2 2 tie_hash tie_ind k
                        (jpl_init 2 workspace0)) = 0)
  /\ ~ (exists MAX_COLORS rounds st,
         jpl_loop palette_order MAX_COLORS 2 2 tie_hash tie_ind rounds
           (jpl_init 2 workspace0) = Exited st).
Proof.
  assert (Hz : forall k, colored (jpl_iter palette_order 2 2 tie_hash tie_ind k
                                    (jpl_init 2 workspace0)) = 0).
  { intros k. destruct (tie_iter k) as [Hinv Hun]. cbn zeta in Hinv, Hun.
    rewrite (inv_colored Hinv). unfold coloured_rows. cbn [bigsum].
    rewrite (Hun 0%nat), (Hun 1%nat) by lia. reflexivity. }
  split; [exact Hz |].
  intros (MAX_COLORS & rounds & st & Hloop).
  destruct (loop_exit_iter palette_order MAX_COLORS 2 2 tie_hash tie_ind rounds _ _ Hloop)
    as (k & _ & ->).
  assert (Hc : colored (jpl_iter palette_order 2 2 tie_hash tie_ind k
                          (jpl_init 2 workspace0)) = 2).
  { revert Hloop. generalize (jpl_init 2 workspace0) at 1. intros st0.
    generalize (jpl_iter palette_order 2 2 tie_hash tie_ind k (jpl_init 2 workspace0)).
    intros st1. revert st0.
    induction rounds as [|n IH]; intros st0 H; cbn [jpl_loop] in H.
    - destruct (Z.eqb_spec (colored st0) (Z.of_nat 2)); [| discriminate].
      injection H as <-. lia.
    - destruct (Z.eqb_spec (colored st0) (Z.of_nat 2)).
      + injection H as <-. lia.
      + destruct (st_nblocks st0 + 2 <? MAX_COLORS); [| discriminate].
        exact (IH _ H). }
  rewrite Hz in Hc. discriminate.
Qed.

Lemma loop_terminates_within_rows_witness :
  match jpl_loop palette_order 128 4 3 grid_hash grid_ind 4 (jpl_init 4 workspace0) with
  | Exited st => forall i, (i < 4)%nat -> colors st !!! i <> -1
  | Overrun st => 128 <= st_nblocks st + 2 <= 2 * Z.of_nat 4
  | Running _ => False
  end.
Proof.
  exact (loop_terminates_within_rows palette_order 128 4 3 grid_hash grid_ind
           ltac:(lia) palette_order_nonneg workspace0 workspace0_length
           grid_hashes_distinct palette_order_distinct).
Defined.
End ColouringExamples.

Section SweepExamples.
Import Examples.

Lemma grid_blocked_layout : valid_layout grid_blocked.
Proof.
  split; cbn [grid_blocked grid_matrix nblocks sizes offsets ublocks localNumberOfRows].
  - lia.
  - intros [|[|[|i]]] Hi; cbn; lia.
  - reflexivity.
  - intros [|[|[|i]]] Hi; [reflexivity | reflexivity | reflexivity | lia].
  - reflexivity.
  - right. reflexivity.
Qed.

Lemma grid_blocked_independent : independent_blocks grid_blocked.
Proof.
  intros i row c Hi Hrow Hc (Hne & p & Hp & E).
  cbn [grid_blocked grid_matrix nblocks ell_width] in Hi, Hp.
  destruct i as [|[|[|i]]]; [| | | lia];
    unfold block_lo, block_len in Hrow, Hc; cbn in Hrow, Hc; [lia | lia |].
  assert (Hr : row = 2%nat \/ row = 3%nat) by lia.
  destruct Hr as [-> | ->]; destruct p as [|[|[|p]]]; try lia; cbn in E; lia.
Qed.

Lemma grid_blocked_ordered : ell_ordered grid_blocked.
Proof.
  split; cbn [grid_blocked grid_matrix localNumberOfRows ell_width].
  - intros [|[|[|[|row]]]] Hrow; [| | | | lia]; cbn; (split; [lia | reflexivity]).
  - intros [|[|[|[|row]]]] p Hrow Hp; [| | | | lia]; cbn in Hp;
      (destruct p as [|p]; [cbn; lia | lia]).
  - intros [|[|[|[|row]]]] p Hrow Hp; [| | | | lia]; cbn in Hp;
      (destruct p as [|[|[|p]]]; [cbn; lia .. | lia]).
  - intros [|[|[|[|row]]]] p Hrow Hp; [| | | | lia];
      (destruct p as [|[|[|p]]]; [cbn; lia .. | lia]).
Qed.

Lemma grid_blocked_reciprocal : reciprocal_diag grid_blocked.
Proof.
  intros [|[|[|[|row]]]] Hrow;
    [| | | | cbn [grid_blocked grid_matrix localNumberOfRows] in Hrow; lia].
  all: split; [intros E; apply (f_equal this) in E; vm_compute in E; discriminate
              | apply Qc_is_canon; vm_compute; reflexivity].
Qed.

(** [JPLColoring] on the four-row grid: the colours are 0, 1, 7, 7, so the
    sort leaves the rows in place, while the block tables follow the order
    of the draws 0, 7, 1, 2 and give the blocks {0}, {1, 2}, {3}, {}. *)
Lemma JPLColoring_grid :
  JPLColoring palette_order 128 false 2 workspace0 grid_uncoloured = Some grid_coloured.
Proof.
  destruct grid_run as (st & Hloop & Hf).
  unfold JPLColoring.
  cbn [grid_uncoloured grid_matrix localNumberOfRows numberOfNonzerosPerRow
       d_rowHash d_mtxIndL].
  rewrite Hloop.
  destruct st as [cs nb cd ss so tm rg]. cbn [forget_tmp colors st_nblocks colored
    st_sizes st_offsets rng] in Hf.
  injection Hf as -> -> -> -> -> ->.
  vm_compute. reflexivity.
Qed.

(** C1, at an input.  The matrix is the one [JPLColoring] returns for the
    four-row grid with the draws of the seed.  The rows are sorted by
    colour value (0, 1, 7, 7) while the sizes are recorded in the order of
    nomination (0, 7, 1, 2): block 1 holds the rows 1 and 2, of the colours
    1 and 7, which store each other.  With each launch reading the vector
    as it is when the launch starts, row 2 reads in the forward pass the
    value row 1 had before the launch, where the sequential sweep reads the
    new one, and the two results differ. *)
Lemma coloured_symgs_not_sequential :
  JPLColoring palette_order 128 false 2 workspace0 grid_uncoloured = Some grid_coloured
  /\ (block_lo grid_coloured 1 = 1%nat /\ block_len grid_coloured 1 = 2%nat
      /\ stored grid_coloured 1 2)
  /\ ComputeSYMGS (fun _ y => y) grid_coloured ones zeros
     <> sequential_symgs grid_coloured ones zeros.
Proof.
  split; [exact JPLColoring_grid |]. split.
  - split; [reflexivity |]. split; [reflexivity |].
    split; [lia |]. exists 2%nat. split; [cbn; lia | reflexivity].
  - intros E. apply (f_equal (map this)) in E. vm_compute in E. discriminate.
Qed.

Lemma symgs_blocks_sequential_witness :
  ComputeSYMGS (fun _ y => y) grid_blocked ones zeros
  = sequential_symgs grid_blocked ones zeros.
Proof.
  exact (symgs_blocks_sequential grid_blocked ones grid_blocked_layout
           grid_blocked_independent ltac:(cbn; lia) eq_refl (fun _ y => y) zeros eq_refl).
Defined.

(** C4, at an input.  Row 1 is the only row of block 1, which starts at
    offset 1; it stores the columns 0 and 2.  The sweep subtracts the
    entries of both columns, and the value is 3/2; with column 2 left out
    it would be 1. *)
Lemma forward_row_reads_later_columns :
  let A := grid_blocked in
  sweep_block A ones ones 1 !!! 1%nat
  <> mul (sub (ones !!! 1%nat)
            (slot_dot (localNumberOfRows A) (ell_col_ind A) (ell_val A) ones 1
               (offdiag_slots_below A (offsets A !!! 1%nat) 1)))
       (inv_diag A !!! 1%nat).
Proof.
  cbn zeta. intros E. apply (f_equal this) in E. vm_compute in E. discriminate.
Qed.

Lemma forward_sweep_row_witness :
  let A := grid_blocked in
  sweep_block A ones ones 1 !!! 1%nat
  = if decide (block_lo A 1 <= 1 < block_lo A 1 + block_len A 1)%nat
    then mul (sub (ones !!! 1%nat)
                (slot_dot (localNumberOfRows A) (ell_col_ind A) (ell_val A) ones 1
                   (offdiag_slots A 1)))
           (inv_diag A !!! 1%nat)
    else ones !!! 1%nat.
Proof.
  exact (forward_sweep_row grid_blocked ones ones 1 1
           ltac:(cbn; lia) ltac:(cbn; lia)
           ltac:(unfold block_lo, block_len; cbn; lia)
           (fun row c => grid_blocked_independent 1%nat row c ltac:(vm_compute; lia))).
Defined.

(** C5, at an input.  On the matrix [JPLColoring] returns for the
    four-row grid the two routines differ at row 2: 7/8 against 1/2. *)
Lemma zero_guess_differs :
  JPLColoring palette_order 128 false 2 workspace0 grid_uncoloured = Some grid_coloured
  /\ ComputeSYMGS (fun _ y => y) grid_coloured ones (replicate 4 zero)
     <> ComputeSYMGSZeroGuess grid_coloured ones (replicate 4 zero).
Proof.
  split; [exact JPLColoring_grid |].
  intros E. apply (f_equal (map this)) in E. vm_compute in E. discriminate.
Qed.

Lemma zero_guess_agrees_witness :
  ComputeSYMGS (fun _ y => y) grid_blocked ones
    (replicate (localNumberOfColumns grid_blocked) zero)
  = ComputeSYMGSZeroGuess grid_blocked ones ones.
Proof.
  exact (zero_guess_agrees grid_blocked ones grid_blocked_layout
           grid_blocked_independent grid_blocked_ordered grid_blocked_reciprocal
           eq_refl ltac:(cbn; lia) (fun _ y => y) ones eq_refl).
Defined.

Lemma zero_guess_forward_rows_witness :
  let A := grid_blocked in
  zero_guess_forward A ones zeros !!! 1%nat
  = if decide (1 = 0)%nat
    then mul (ones !!! 1%nat) (inv_diag A !!! 1%nat)
    else div (sub (ones !!! 1%nat)
                (slot_dot (localNumberOfRows A) (ell_col_ind A) (ell_val A)
                   (zero_guess_forward A ones zeros) 1
                   (lower_slots A (offsets A !!! 1%nat) 1)))
           (diag_val A 1).
Proof.
  exact (zero_guess_forward_rows grid_blocked ones zeros 1 1 grid_blocked_layout
           ltac:(cbn; lia) ltac:(cbn; lia)
           ltac:(unfold block_lo, block_len; cbn; lia)).
Defined.


End SweepExamples.

(** * Further properties *)

(** ** Further properties of the colouring code *)

Section Counting.
Implicit Types (data colors ws : list Z).

(** X1.  [reduce_sum<256>] leaves the sum of the 256 entries of the
    shared array in entry 0, and the array keeps its length. *)
Theorem reduce_sum_total data :
  length data = 256%nat ->
  reduce_sum 256 data !!! 0%nat = bigsum (fun t => data !!! t) 256
  /\ length (reduce_sum 256 data) = 256%nat.
Proof.
  intros Hlen. split; [apply reduce_sum_256; exact Hlen |].
  unfold reduce_sum. revert data Hlen.
  generalize [512; 256; 128; 64; 32; 16; 8; 4; 2; 1]%nat.
  intros steps. induction steps as [|s steps IH]; intros data Hlen; cbn [fold_left].
  - exact Hlen.
  - apply IH. destruct (s <? 256)%nat; [| exact Hlen].
    rewrite reduce_step_length. exact Hlen.
Qed.

Lemma reduce_sum_total_witness :
  reduce_sum 256 (replicate 256 1) !!! 0%nat
  = bigsum (fun t => replicate 256 1 !!! t) 256
  /\ length (reduce_sum 256 (replicate 256 1)) = 256%nat.
Proof. exact (reduce_sum_total (replicate 256 1) eq_refl). Defined.

(** X2.  The two counting launches and the copy back return the number
    of rows in [0 .. m) that hold the colour, whatever [m] is and whatever
    the workspace held; entry 0 of the workspace holds that number and the
    workspace keeps its length. *)
Theorem count_color_counts (m : nat) (color : Z) colors ws :
  (256 <= length ws)%nat ->
  let res := count_color m color colors ws in
  fst res = count_rows color colors m
  /\ snd res !!! 0%nat = count_rows color colors m
  /\ length (snd res) = length ws.
Proof.
  intros Hws. cbn zeta.
  destruct (count_color_spec m color colors ws Hws) as [E L].
  split; [exact E |]. split; [| exact L].
  rewrite <- E. reflexivity.
Qed.

Lemma count_color_counts_witness :
  let ws := replicate 256 5 in
  let res := count_color 3 7 [7; 2; 7] ws in
  fst res = count_rows 7 [7; 2; 7] 3
  /\ snd res !!! 0%nat = count_rows 7 [7; 2; 7] 3
  /\ length (snd res) = length ws.
Proof.
  exact (count_color_counts 3 7 [7; 2; 7] (replicate 256 5)
           ltac:(rewrite length_replicate; lia)).
Defined.
End Counting.

Section Geometry.
(** X3.  For 1 to 512 nonzeros per row the block size of [kernel_jpl] is
    the largest power of two with [blocksize * nnz <= 512], and the grid
    [(m - 1) / blocksize + 1] of such blocks has a thread row for every
    matrix row. *)
Theorem jpl_blocksize_largest (nnz : Z) (m : nat) :
  1 <= nnz <= 512 ->
  let bs := jpl_blocksize nnz in
  bs = 2 ^ Z.log2 bs
  /\ 1 <= bs
  /\ bs * nnz <= 512 < 2 * bs * nnz
  /\ (m <= jpl_grid_rows m nnz)%nat.
Proof.
  intros Hn. cbn zeta.
  assert (Hall : forallb (fun k => let bs := jpl_blocksize k in
                            (bs =? 2 ^ Z.log2 bs) && (1 <=? bs)
                            && (bs * k <=? 512) && (512 <? 2 * bs * k))
                   (seqZ 1 512) = true)
    by (vm_compute; reflexivity).
  rewrite forallb_forall in Hall.
  specialize (Hall nnz). cbn zeta in Hall.
  rewrite !andb_true_iff in Hall.
  destruct Hall as [[[H1 H2] H3] H4].
  { apply list_elem_of_In, elem_of_seqZ. lia. }
  apply Z.eqb_eq in H1. apply Z.leb_le in H2, H3. apply Z.ltb_lt in H4.
  split; [exact H1 |]. split; [exact H2 |]. split; [lia |].
  apply jpl_grid_rows_ge. exact Hn.
Qed.

Lemma jpl_blocksize_largest_witness :
  let bs := jpl_blocksize 27 in
  bs = 2 ^ Z.log2 bs
  /\ 1 <= bs
  /\ bs * 27 <= 512 < 2 * bs * 27
  /\ (1000 <= jpl_grid_rows 1000 27)%nat.
Proof. exact (jpl_blocksize_largest 27 1000 ltac:(lia)). Defined.

(** X4.  With more than 512 nonzeros per row the block size comes out as
    0: [512 / nnz] is 0, its successor 1 is shifted away by the loop. *)
Theorem jpl_blocksize_zero (nnz : Z) :
  512 < nnz < 2 ^ 32 -> jpl_blocksize nnz = 0.
Proof.
  intros Hn. unfold jpl_blocksize.
  rewrite (Z.quot_small 512 nnz) by lia.
  change (Z.lor 0 (Z.shiftr 0 1)) with 0.
  change (Z.lor 0 (Z.shiftr 0 2)) with 0.
  change (Z.lor 0 (Z.shiftr 0 4)) with 0.
  change (Z.lor 0 (Z.shiftr 0 8)) with 0.
  change (Z.lor 0 (Z.shiftr 0 16)) with 0.
  change (u32 (0 + 1)) with 1.
  cbn [shrink_blocksize]. unfold u32.
  rewrite Z.mul_1_l, (Z.mod_small nnz) by lia.
  destruct (Z.gtb_spec nnz 512) as [_|Hle]; [| lia].
  change (Z.shiftr 1 1) with 0. rewrite Z.mul_0_l.
  reflexivity.
Qed.

Lemma jpl_blocksize_zero_witness : jpl_blocksize 513 = 0.
Proof. exact (jpl_blocksize_zero 513 ltac:(lia)). Defined.
End Geometry.

Section RowsKept.
Variable m : nat.
Variable nnz : nat.
Variable hash : list Z.
Variable ind : list Z.

(** X5.  A launch of [kernel_jpl] never recolours: a row that holds a
    colour keeps it, every entry ends as it was or as one of the two
    candidates, and the array keeps its length. *)
Theorem kernel_jpl_keeps_colours (rows : nat) (color1 color2 : Z)
    (colors : list Z) (row : nat) :
  (m <= rows)%nat -> length colors = m ->
  let cs' := kernel_jpl rows m hash color1 color2 nnz ind colors in
  length cs' = length colors
  /\ (colors !!! row <> -1 -> cs' !!! row = colors !!! row)
  /\ (cs' !!! row = colors !!! row \/ cs' !!! row = color1 \/ cs' !!! row = color2).
Proof.
  intros Hrows Hlen. cbn zeta. split; [apply kernel_jpl_length |].
  rewrite kernel_jpl_lookup by assumption.
  destruct (Nat.lt_ge_cases row m) as [Hrow|Hrow].
  - pose proof (jpl_new_color_cases m hash color1 color2 nnz ind colors row Hrow) as C.
    cbn zeta in C.
    destruct C as [[Hc E]|[Hun [[_ E]|[(_ & _ & E)|(_ & _ & E)]]]]; rewrite E.
    + split; [reflexivity | left; reflexivity].
    + split; [congruence | right; left; reflexivity].
    + split; [congruence | right; right; reflexivity].
    + split; [congruence | left; congruence].
  - unfold jpl_new_color, jpl_row.
    destruct (Nat.leb_spec m row); [| lia].
    split; [reflexivity | left; reflexivity].
Qed.
End RowsKept.

Lemma count_rows_nonneg (c : Z) (cs : list Z) (k : nat) : 0 <= count_rows c cs k.
Proof.
  unfold count_rows. induction k as [|k IH]; cbn [bigsum]; [lia |].
  destruct (cs !!! k =? c); lia.
Qed.

Section BlockTables.
Variable rand : nat -> Z.
Variable m : nat.
Variable nnz : nat.
Variable hash : list Z.
Variable ind : list Z.

#[local] Abbreviation iter := (jpl_iter rand m nnz hash ind).

(** The tables after some rounds: two entries per round, the offsets the
    running sums of the sizes. *)
Lemma iter_tables (ws : list Z) (k : nat) :
  (256 <= length ws)%nat ->
  let st := iter k (jpl_init m ws) in
  (256 <= length (tmp st))%nat
  /\ length (colors st) = m
  /\ length (st_sizes st) = (2 * k)%nat
  /\ length (st_offsets st) = (2 * k + 1)%nat
  /\ st_offsets st !!! 0%nat = 0
  /\ st_offsets st !!! (2 * k)%nat = colored st
  /\ forall i, (i < 2 * k)%nat ->
       0 <= st_sizes st !!! i
       /\ st_offsets st !!! S i = st_offsets st !!! i + st_sizes st !!! i.
Proof.
  intros Hws. induction k as [|k IH]; cbn zeta.
  - cbn [jpl_iter jpl_init tmp colors st_sizes st_offsets colored].
    split; [exact Hws |]. split; [apply length_replicate |].
    split; [reflexivity |]. split; [reflexivity |]. split; [reflexivity |].
    split; [reflexivity |]. intros i Hi. lia.
  - cbn zeta in IH. rewrite iter_S. set (st := iter k (jpl_init m ws)) in *.
    destruct IH as (Htmp & Hlen & Hls & Hlo & H0 & Hlast & Hstep).
    rewrite round_fields. cbn zeta.
    set (c1 := color1_of rand st). set (c2 := color2_of rand st).
    set (cs' := kernel_jpl (jpl_grid_rows m (Z.of_nat nnz)) m hash c1 c2 nnz ind
                  (colors st)).
    destruct (count_color_spec m c1 cs' (tmp st) Htmp) as [E1 L1].
    set (cc1 := count_color m c1 cs' (tmp st)) in *.
    assert (Htmp1 : (256 <= length cc1.2)%nat) by (rewrite L1; exact Htmp).
    destruct (count_color_spec m c2 cs' cc1.2 Htmp1) as [E2 L2].
    set (cc2 := count_color m c2 cs' cc1.2) in *.
    cbn [tmp colors st_sizes st_offsets colored].
    assert (Hcnt : forall c, 0 <= count_rows c cs' m).
    { intros c. apply count_rows_nonneg. }
    split; [rewrite L2; exact Htmp1 |].
    split; [unfold cs'; rewrite kernel_jpl_length; exact Hlen |].
    split; [rewrite length_app, Hls; cbn [length]; lia |].
    split; [rewrite length_app, Hlo; cbn [length]; lia |].
    split.
    { rewrite lookup_total_app_l by lia. exact H0. }
    split.
    { rewrite lookup_total_app_r by lia. rewrite Hlo.
      replace (2 * S k - (2 * k + 1))%nat with 1%nat by lia. reflexivity. }
    intros i Hi.
    destruct (Nat.lt_ge_cases i (2 * k)) as [Hlt|Hge].
    + rewrite (lookup_total_app_l (st_sizes st)) by lia.
      rewrite !(lookup_total_app_l (st_offsets st)) by lia.
      apply Hstep. exact Hlt.
    + rewrite (lookup_total_app_r (st_sizes st)) by lia. rewrite Hls.
      assert (Hi2 : i = (2 * k)%nat \/ i = (2 * k + 1)%nat) by lia.
      destruct Hi2 as [-> | ->].
      * rewrite (lookup_total_app_l (st_offsets st) _ (2 * k)) by lia.
        rewrite (lookup_total_app_r (st_offsets st) _ (S (2 * k))) by lia.
        rewrite Hlo, Hlast.
        replace (2 * k - 2 * k)%nat with 0%nat by lia.
        replace (S (2 * k) - (2 * k + 1))%nat with 0%nat by lia.
        change (0 <= cc1.1 /\ colored st + cc1.1 = colored st + cc1.1).
        split; [rewrite E1; apply Hcnt | reflexivity].
      * rewrite !(lookup_total_app_r (st_offsets st)) by lia. rewrite Hlo.
        replace (2 * k + 1 - 2 * k)%nat with 1%nat by lia.
        replace (S (2 * k + 1) - (2 * k + 1))%nat with 1%nat by lia.
        replace (2 * k + 1 - (2 * k + 1))%nat with 0%nat by lia.
        change (0 <= cc2.1
                /\ colored st + cc1.1 + cc2.1 = colored st + cc1.1 + cc2.1).
        split; [rewrite E2; apply Hcnt | reflexivity].
Qed.
End BlockTables.

Section ColouringResult.
Context {R : Type} `{Arith R}.
Variable rand : nat -> Z.
Variable MAX_COLORS : Z.

Lemma loop_exit_counter m nnz hash ind rounds : forall st st',
  jpl_loop rand MAX_COLORS m nnz hash ind rounds st = Exited st' ->
  colored st' = Z.of_nat m.
Proof.
  induction rounds as [|n IH]; intros st st' E; cbn [jpl_loop] in E.
  - destruct (Z.eqb_spec (colored st) (Z.of_nat m)); [| discriminate].
    injection E as <-. assumption.
  - destruct (Z.eqb_spec (colored st) (Z.of_nat m)).
    + injection E as <-. assumption.
    + destruct (st_nblocks st + 2 <? MAX_COLORS); [| discriminate].
      exact (IH _ _ E).
Qed.

(** X6.  When [JPLColoring] returns for a matrix with at least one row,
    its block tables tile the rows: [nblocks] is even and at least 2,
    [sizes] has [nblocks] entries, none negative, [offsets] has
    [nblocks + 1] entries starting at 0, each the sum of the one before
    and the size of its block, the last equal to [localNumberOfRows];
    [ublocks] is [nblocks - 2], or [nblocks - 1] under [HPCG_REFERENCE]. *)
Theorem JPLColoring_tables (reference : bool) (rounds : nat) (ws : list Z)
    (A A' : SparseMatrix R) :
  (0 < localNumberOfRows A)%nat ->
  (256 <= length ws)%nat ->
  JPLColoring rand MAX_COLORS reference rounds ws A = Some A' ->
  valid_layout A'
  /\ Z.even (nblocks A') = true /\ 2 <= nblocks A'
  /\ Z.of_nat (length (sizes A')) = nblocks A'
  /\ Z.of_nat (length (offsets A')) = nblocks A' + 1
  /\ ublocks A' = nblocks A' - (if reference then 1 else 2)
  /\ localNumberOfRows A' = localNumberOfRows A.
Proof.
  intros Hm Hws HJ. unfold JPLColoring in HJ.
  set (m := localNumberOfRows A) in *.
  destruct (jpl_loop rand MAX_COLORS m (numberOfNonzerosPerRow A) (d_rowHash A)
              (d_mtxIndL A) rounds (jpl_init m ws)) as [st|st|st] eqn:Hloop;
    [| discriminate | discriminate].
  pose proof (loop_exit_counter _ _ _ _ _ _ _ Hloop) as Hcol.
  destruct (loop_exit_iter _ _ _ _ _ _ _ _ _ Hloop) as (k & _ & Hst).
  destruct (iter_tables rand m (numberOfNonzerosPerRow A) (d_rowHash A) (d_mtxIndL A)
              ws k Hws) as (_ & _ & Hls & Hlo & H0 & Hlast & Hstep).
  destruct (iter_counters rand m (numberOfNonzerosPerRow A) (d_rowHash A) (d_mtxIndL A)
              k ws) as [Hnb _].
  cbn zeta in Hls, Hlo, H0, Hlast, Hstep. rewrite <- Hst in *. clear Hst.
  assert (Hk : (1 <= k)%nat).
  { destruct k as [|k]; [| lia]. cbn in Hlast. rewrite Hlast in H0. lia. }
  destruct (SortPairs (colors st) _ m 0 _) as [ks vals].
  injection HJ as <-.
  cbn [nblocks sizes offsets ublocks localNumberOfRows].
  split.
  - split; cbn [nblocks sizes offsets ublocks localNumberOfRows]; rewrite ?Hnb.
    + lia.
    + intros i Hi. apply Hstep. lia.
    + exact H0.
    + intros i Hi. apply Hstep. lia.
    + replace (Z.to_nat (2 * Z.of_nat k)) with (2 * k)%nat by lia.
      rewrite Hlast. exact Hcol.
    + destruct reference; [left | right]; lia.
  - rewrite Hnb, Hls, Hlo.
    split; [rewrite Z.even_mul; reflexivity |].
    split; [lia |]. split; [lia |]. split; [lia |].
    split; [destruct reference; lia | reflexivity].
Qed.
End ColouringResult.

Section RadixSort.
Implicit Types (kv : list (Z * Z)) (p q : Z * Z).

Lemma key_bits_succ (b key : Z) :
  0 <= b ->
  key_bits (b + 1) key = key_bits b key + (if Z.testbit key b then 2 ^ b else 0).
Proof.
  intros Hb. unfold key_bits.
  rewrite Z.pow_add_r, Z.pow_1_r by lia.
  rewrite Z.rem_mul_r by lia.
  rewrite Z.testbit_odd, Z.shiftr_div_pow2 by exact Hb.
  rewrite Zmod_odd. destruct (Z.odd (key / 2 ^ b)); lia.
Qed.

Lemma key_bits_range (b key : Z) : 0 <= b -> 0 <= key_bits b key < 2 ^ b.
Proof. intros Hb. unfold key_bits. apply Z.mod_pos_bound. lia. Qed.

Lemma StronglySorted_filter {X} (Rel : X -> X -> Prop) (P : X -> Prop)
    `{!forall x, Decision (P x)} (l : list X) :
  StronglySorted Rel l -> StronglySorted Rel (filter P l).
Proof.
  induction 1 as [|x l Hl IH Hx]; [constructor |].
  rewrite filter_cons. destruct (decide (P x)); [| exact IH].
  constructor; [exact IH |].
  rewrite Forall_forall in *. intros y Hy.
  apply list_elem_of_filter in Hy. apply Hx, Hy.
Qed.

Lemma StronglySorted_weaken {X} (Rel Rel' : X -> X -> Prop) (l : list X) :
  (forall x y, x ∈ l -> y ∈ l -> Rel x y -> Rel' x y) ->
  StronglySorted Rel l -> StronglySorted Rel' l.
Proof.
  intros Himp Hs. induction Hs as [|x l Hl IH Hx]; [constructor |].
  constructor.
  - apply IH. intros y z Hy Hz. apply Himp; right; assumption.
  - rewrite Forall_forall in *. intros y Hy.
    apply Himp; [left | right; exact Hy | apply Hx, Hy].
Qed.

Lemma radix_pass_perm (b : Z) kv : radix_pass b kv ≡ₚ kv.
Proof.
  unfold radix_pass.
  rewrite (list_filter_iff (fun p => Z.testbit p.1 b = true)
             (fun p => ~ Z.testbit p.1 b = false)).
  - apply filter_app_complement.
  - intros p. destruct (Z.testbit p.1 b); split; congruence.
Qed.

Lemma radix_pass_sorted (b : Z) kv :
  0 <= b ->
  StronglySorted (sorts_before b) kv ->
  StronglySorted (sorts_before (b + 1)) (radix_pass b kv).
Proof.
  intros Hb Hs. unfold radix_pass.
  apply StronglySorted_app. split; [| split].
  - intros p q Hp Hq. apply list_elem_of_filter in Hp, Hq.
    unfold sorts_before. rewrite !key_bits_succ by exact Hb.
    destruct Hp as [-> _], Hq as [-> _].
    pose proof (key_bits_range b p.1 Hb). pose proof (key_bits_range b q.1 Hb).
    left. lia.
  - apply (StronglySorted_weaken (sorts_before b)).
    + intros p q Hp Hq. apply list_elem_of_filter in Hp, Hq.
      unfold sorts_before. rewrite !key_bits_succ by exact Hb.
      destruct Hp as [-> _], Hq as [-> _]. lia.
    + apply StronglySorted_filter. exact Hs.
  - apply (StronglySorted_weaken (sorts_before b)).
    + intros p q Hp Hq. apply list_elem_of_filter in Hp, Hq.
      unfold sorts_before. rewrite !key_bits_succ by exact Hb.
      destruct Hp as [-> _], Hq as [-> _]. lia.
    + apply StronglySorted_filter. exact Hs.
Qed.

Lemma radix_passes (k : nat) : forall (s : Z) kv,
  0 <= s ->
  StronglySorted (sorts_before s) kv ->
  let kv' := fold_left (fun kv b => radix_pass b kv) (seqZ s (Z.of_nat k)) kv in
  StronglySorted (sorts_before (s + Z.of_nat k)) kv' /\ kv' ≡ₚ kv.
Proof.
  induction k as [|k IH]; intros s kv Hs Hsorted; cbn zeta.
  - cbn. rewrite Z.add_0_r. split; [exact Hsorted | reflexivity].
  - rewrite seqZ_cons by lia. cbn [fold_left].
    replace (Z.pred (Z.of_nat (S k))) with (Z.of_nat k) by lia.
    destruct (IH (Z.succ s) (radix_pass s kv) ltac:(lia)) as [S1 P1].
    { replace (Z.succ s) with (s + 1) by lia. apply radix_pass_sorted; assumption. }
    split.
    + replace (s + Z.of_nat (S k)) with (Z.succ s + Z.of_nat k) by lia. exact S1.
    + rewrite P1. apply radix_pass_perm.
Qed.

(** The pairs handed to the sort: row [i] with its colour. *)
Lemma zip_ids_sorted (keys : list Z) : forall (a k : nat),
  StronglySorted (sorts_before 0) (zip keys (Z.of_nat <$> seq a k)).
Proof.
  induction keys as [|c keys IH]; intros a k; [constructor |].
  destruct k as [|k]; [constructor |].
  cbn [seq fmap list_fmap zip zip_with]. constructor; [apply IH |].
  rewrite Forall_forall. intros [c' v] Hin.
  apply elem_of_zip_r, list_elem_of_fmap in Hin.
  destruct Hin as (j & -> & Hj). apply elem_of_seq in Hj.
  right. unfold key_bits. cbn [fst snd]. rewrite Z.pow_0_r, !Z.mod_1_r. lia.
Qed.
End RadixSort.

Section Permutation.
Implicit Types (inp out vals keys : list Z) (kv : list (Z * Z)).

Lemma create_perm_lookup (threads size : nat) inp out (g : nat) :
  (size <= threads)%nat -> (g < size)%nat ->
  (Z.to_nat (inp !!! g) < length out)%nat ->
  (forall g', (g' < size)%nat ->
     Z.to_nat (inp !!! g') = Z.to_nat (inp !!! g) -> g' = g) ->
  kernel_create_perm threads size inp out !!! Z.to_nat (inp !!! g) = Z.of_nat g.
Proof.
  intros Hth Hg Hout Hinj. unfold kernel_create_perm.
  apply (launch_lookup_stored _ _ _ g); [lia | exact Hout | |].
  - destruct (Nat.leb_spec size g); [lia | reflexivity].
  - intros g' v' _ E. destruct (Nat.leb_spec size g'); [discriminate |].
    injection E as E _. apply Hinj; assumption.
Qed.

(** X7.  [kernel_create_perm] inverts its input: when the first [size]
    entries of [in] name different places of [out], the launch leaves
    [gid] at place [in[gid]] for every [gid < size], changes no other
    place, and keeps the length of [out]. *)
Theorem kernel_create_perm_inverse (threads size : nat) inp out :
  (size <= threads)%nat ->
  (forall g, (g < size)%nat -> (Z.to_nat (inp !!! g) < length out)%nat) ->
  (forall g g', (g < size)%nat -> (g' < size)%nat ->
     Z.to_nat (inp !!! g) = Z.to_nat (inp !!! g') -> g = g') ->
  let out' := kernel_create_perm threads size inp out in
  length out' = length out
  /\ (forall g, (g < size)%nat -> out' !!! Z.to_nat (inp !!! g) = Z.of_nat g)
  /\ (forall i, (forall g, (g < size)%nat -> Z.to_nat (inp !!! g) <> i) ->
        out' !!! i = out !!! i).
Proof.
  intros Hth Hrange Hinj. cbn zeta. split; [apply launch_length |]. split.
  - intros g Hg. apply create_perm_lookup; [exact Hth | exact Hg | apply Hrange, Hg |].
    intros g' Hg' E. apply Hinj; assumption.
  - intros i Hi. unfold kernel_create_perm. apply launch_lookup_other.
    intros gid v _ E. destruct (Nat.leb_spec size gid); [discriminate |].
    injection E as E _. apply (Hi gid); assumption.
Qed.

Lemma kernel_identity_seq (threads m : nat) :
  (m <= threads)%nat ->
  kernel_identity threads m (replicate m 0) = Z.of_nat <$> seq 0 m.
Proof.
  intros Hth. apply list_eq_total.
  - unfold kernel_identity. rewrite launch_length, length_replicate, length_fmap, length_seq.
    reflexivity.
  - unfold kernel_identity. rewrite launch_length, length_replicate. intros i Hi.
    rewrite (list_lookup_total_fmap _ (seq 0 m) i) by (rewrite length_seq; exact Hi).
    rewrite lookup_total_seq_lt by exact Hi. rewrite Nat.add_0_l.
    apply (launch_lookup_stored _ _ _ i); [lia | rewrite length_replicate; exact Hi | |].
    + destruct (Nat.leb_spec m i); [lia | reflexivity].
    + intros g' v' _ E. destruct (Nat.leb_spec m g'); [discriminate |].
      injection E as E _. exact E.
Qed.

Lemma StronglySorted_lookup {X} (Rel : X -> X -> Prop) (l : list X) :
  StronglySorted Rel l ->
  forall i j x y, (i < j)%nat -> l !! i = Some x -> l !! j = Some y -> Rel x y.
Proof.
  induction 1 as [|a l Hl IH Ha]; intros i j x y Hij Hx Hy; [discriminate |].
  destruct j as [|j]; [lia |]. cbn in Hy.
  destruct i as [|i]; cbn in Hx.
  - injection Hx as <-. rewrite Forall_forall in Ha.
    apply Ha. apply (list_elem_of_lookup_2 _ j). exact Hy.
  - apply (IH i j); [lia | assumption | assumption].
Qed.

Lemma sorts_before_asym (n : Z) (p q : Z * Z) :
  sorts_before n p q -> sorts_before n q p -> False.
Proof. unfold sorts_before. lia. Qed.

(** What [SortPairs] returns for the colours and the identity. *)
Lemma sorted_rows (keys : list Z) (m : nat) (n : Z) :
  length keys = m -> 0 <= n ->
  let res := SortPairs keys (Z.of_nat <$> seq 0 m) m 0 n in
  let kv := zip res.1 res.2 in
  length res.1 = m /\ length res.2 = m
  /\ StronglySorted (sorts_before n) kv
  /\ NoDup res.2
  /\ (forall g p, kv !! g = Some p ->
        exists r, (r < m)%nat /\ p = (keys !!! r, Z.of_nat r))
  /\ (forall r, (r < m)%nat ->
        exists g, (g < m)%nat /\ kv !! g = Some (keys !!! r, Z.of_nat r)).
Proof.
  intros Hlen Hn. cbn zeta. unfold SortPairs.
  rewrite (take_ge keys) by lia.
  rewrite (take_ge (Z.of_nat <$> seq 0 m)) by (rewrite length_fmap, length_seq; lia).
  set (kv0 := zip keys (Z.of_nat <$> seq 0 m)).
  replace (n - 0) with (Z.of_nat (Z.to_nat n)) by lia.
  destruct (radix_passes (Z.to_nat n) 0 kv0 ltac:(lia) (zip_ids_sorted keys 0 m))
    as [Hs Hp].
  set (kv := fold_left (fun kv b => radix_pass b kv) (seqZ 0 (Z.of_nat (Z.to_nat n))) kv0)
    in *.
  cbn [fst snd]. rewrite zip_fst_snd.
  replace (0 + Z.of_nat (Z.to_nat n)) with n in Hs by lia.
  assert (Hl0 : length kv0 = m).
  { unfold kv0. rewrite length_zip, length_fmap, length_seq. lia. }
  assert (Hl : length kv = m) by (rewrite Hp; exact Hl0).
  assert (Hin0 : forall p, p ∈ kv0 <->
            exists r, (r < m)%nat /\ p = (keys !!! r, Z.of_nat r)).
  { intros p. unfold kv0. split.
    - intros Hin. apply elem_of_lookup_zip_with in Hin.
      destruct Hin as (i & c & v & -> & Hc & Hv).
      rewrite list_lookup_fmap in Hv.
      destruct (seq 0 m !! i) as [j|] eqn:Ej; [| discriminate].
      injection Hv as <-. apply lookup_seq in Ej. destruct Ej as [-> Hi].
      exists i. split; [exact Hi |].
      rewrite (list_lookup_total_correct _ _ _ Hc). reflexivity.
    - intros (r & Hr & ->). apply elem_of_lookup_zip_with.
      exists r, (keys !!! r), (Z.of_nat r).
      split; [reflexivity |]. split.
      + apply list_lookup_lookup_total_lt. lia.
      + rewrite list_lookup_fmap.
        rewrite (proj2 (lookup_seq 0 m r r) ltac:(lia)). reflexivity. }
  split; [rewrite length_fmap; exact Hl |].
  split; [rewrite length_fmap; exact Hl |].
  split; [exact Hs |].
  split.
  { assert (E : kv.*2 ≡ₚ Z.of_nat <$> seq 0 m).
    { rewrite Hp. unfold kv0. rewrite snd_zip; [reflexivity |].
      rewrite length_fmap, length_seq. lia. }
    rewrite E. apply NoDup_fmap_2; [apply Nat2Z.inj' | apply NoDup_seq]. }
  split.
  - intros g p Hg. apply Hin0. rewrite <- Hp. apply (list_elem_of_lookup_2 _ g). exact Hg.
  - intros r Hr.
    assert (Hin : (keys !!! r, Z.of_nat r) ∈ kv).
    { rewrite Hp. apply Hin0. exists r. split; [exact Hr | reflexivity]. }
    apply list_elem_of_lookup_1 in Hin. destruct Hin as [g Hg].
    exists g. split; [| exact Hg].
    apply lookup_lt_Some in Hg. lia.
Qed.
End Permutation.

Section RowOrder.
Context {R : Type} `{Arith R}.
Variable rand : nat -> Z.
Variable MAX_COLORS : Z.

(** X8.  When [JPLColoring] returns for a matrix with at least one row,
    [perm] maps the rows one-to-one onto the places [0 .. m), in the
    order of the bits [0 .. 32 - clz(nblocks)) of their colours, rows with
    the same bits in the order of their indices.  (The sort is taken as
    [hipcub] documents it: stable, on the given bits of the key.) *)
Theorem JPLColoring_perm_order (reference : bool) (rounds : nat) (ws : list Z)
    (A A' : SparseMatrix R) :
  let m := localNumberOfRows A in
  (0 < m)%nat ->
  (256 <= length ws)%nat ->
  JPLColoring rand MAX_COLORS reference rounds ws A = Some A' ->
  exists st,
    jpl_loop rand MAX_COLORS m (numberOfNonzerosPerRow A) (d_rowHash A)
      (d_mtxIndL A) rounds (jpl_init m ws) = Exited st
    /\ (forall r, (r < m)%nat -> 0 <= perm A' !!! r < Z.of_nat m)
    /\ (forall r1 r2, (r1 < m)%nat -> (r2 < m)%nat ->
          sorts_before (32 - clz32 (st_nblocks st))
            (colors st !!! r1, Z.of_nat r1) (colors st !!! r2, Z.of_nat r2) ->
          perm A' !!! r1 < perm A' !!! r2)
    /\ (forall r1 r2, (r1 < m)%nat -> (r2 < m)%nat ->
          perm A' !!! r1 = perm A' !!! r2 -> r1 = r2).
Proof.
  intros m Hm Hws HJ. unfold JPLColoring in HJ. fold m in HJ.
  destruct (jpl_loop rand MAX_COLORS m (numberOfNonzerosPerRow A) (d_rowHash A)
              (d_mtxIndL A) rounds (jpl_init m ws)) as [st|st|st] eqn:Hloop;
    [| discriminate | discriminate].
  exists st. split; [reflexivity |].
  destruct (loop_exit_iter _ _ _ _ _ _ _ _ _ Hloop) as (k & _ & Hst).
  destruct (iter_tables rand m (numberOfNonzerosPerRow A) (d_rowHash A) (d_mtxIndL A)
              ws k Hws) as (_ & Hlen & _).
  cbn zeta in Hlen. rewrite <- Hst in Hlen. clear Hst k.
  assert (Hgrid : (m <= grid1d (Z.of_nat m) 1024)%nat).
  { pose proof (grid1d_ge (Z.of_nat m) 1024 ltac:(lia) ltac:(lia)). lia. }
  rewrite (kernel_identity_seq _ m Hgrid) in HJ.
  set (n := 32 - clz32 (st_nblocks st)) in *.
  assert (Hn : 0 <= n).
  { unfold n, clz32. pose proof (Z.log2_nonneg (st_nblocks st)). lia. }
  destruct (sorted_rows (colors st) m n Hlen Hn) as (Hlk & Hlv & Hs & Hnd & Hall & Hex).
  cbn zeta in Hlk, Hlv, Hs, Hnd, Hall, Hex.
  destruct (SortPairs (colors st) (Z.of_nat <$> seq 0 m) m 0 n) as [ks vals].
  cbn [fst snd] in Hlk, Hlv, Hs, Hnd, Hall, Hex.
  injection HJ as <-. cbn [perm].
  set (perm' := kernel_create_perm (grid1d (Z.of_nat m) 1024) m vals (colors st)).
  assert (Hplace : forall r, (r < m)%nat ->
            exists g, (g < m)%nat
                      /\ zip ks vals !! g = Some (colors st !!! r, Z.of_nat r)
                      /\ perm' !!! r = Z.of_nat g).
  { intros r Hr. destruct (Hex r Hr) as (g & Hg & Hkv).
    exists g. split; [exact Hg |]. split; [exact Hkv |].
    apply lookup_zip_with_Some in Hkv. destruct Hkv as (c & v & E & _ & Hv).
    injection E as _ <-.
    pose proof (list_lookup_total_correct _ _ _ Hv) as Ev.
    replace r with (Z.to_nat (vals !!! g)) at 1 by (rewrite Ev; lia).
    apply create_perm_lookup; [exact Hgrid | exact Hg | rewrite Ev; lia |].
    intros g' Hg' E.
    assert (Hv' : vals !! g' = Some (vals !!! g')).
    { apply list_lookup_lookup_total_lt. lia. }
    assert (Hkv' : exists c', zip ks vals !! g' = Some (c', vals !!! g')).
    { destruct (zip ks vals !! g') as [[c' v']|] eqn:Ez.
      - pose proof Ez as Ez'. apply lookup_zip_with_Some in Ez'.
        destruct Ez' as (c2 & v2 & E2 & _ & Hv2). injection E2 as -> ->.
        rewrite Hv' in Hv2. injection Hv2 as <-. exists c2. reflexivity.
      - apply lookup_ge_None in Ez. rewrite length_zip in Ez. lia. }
    destruct Hkv' as [c' Hkv']. destruct (Hall _ _ Hkv') as (r' & Hr' & E').
    injection E' as _ E'.
    apply (NoDup_lookup vals g' g (Z.of_nat r) Hnd); [| exact Hv].
    rewrite Hv'. f_equal. rewrite E', Ev in *. lia. }
  split; [| split].
  - intros r Hr. destruct (Hplace r Hr) as (g & Hg & _ & ->). lia.
  - intros r1 r2 Hr1 Hr2 Hbefore.
    destruct (Hplace r1 Hr1) as (g1 & Hg1 & Hk1 & ->).
    destruct (Hplace r2 Hr2) as (g2 & Hg2 & Hk2 & ->).
    destruct (Nat.lt_trichotomy g1 g2) as [Hlt|[->|Hgt]]; [lia | |].
    + rewrite Hk1 in Hk2. injection Hk2 as _ E. apply Nat2Z.inj in E. subst r2.
      exfalso. exact (sorts_before_asym _ _ _ Hbefore Hbefore).
    + exfalso. apply (sorts_before_asym _ _ _ Hbefore).
      apply (StronglySorted_lookup _ _ Hs g2 g1); assumption.
  - intros r1 r2 Hr1 Hr2 E.
    destruct (Hplace r1 Hr1) as (g1 & Hg1 & Hk1 & E1).
    destruct (Hplace r2 Hr2) as (g2 & Hg2 & Hk2 & E2).
    assert (g1 = g2) by lia. subst g2.
    rewrite Hk1 in Hk2. injection Hk2 as _ E'. lia.
Qed.
End RowOrder.

(** ** Further properties of the smoother *)

Section SweepFacts.
Context {R : Type} {HA : Arith R}.

Lemma layout_offset_nonneg (A : SparseMatrix R) (i : nat) :
  valid_layout A -> (i <= Z.to_nat (nblocks A))%nat -> 0 <= offsets A !!! i.
Proof.
  intros Hlayout Hi. induction i as [|i IH].
  - rewrite (layout_first A Hlayout). lia.
  - rewrite (layout_next A Hlayout i) by lia.
    pose proof (layout_sizes A Hlayout i ltac:(lia)).
    specialize (IH ltac:(lia)). lia.
Qed.

(** X9.  Sweeping a block a second time right after the first changes
    nothing, when no row of the block stores a column of the block. *)
Theorem sweep_block_again (A : SparseMatrix R) (r y : list R) (i : nat) :
  0 <= sizes A !!! i -> 0 <= offsets A !!! i ->
  (block_lo A i + block_len A i <= length y)%nat ->
  (forall row c,
     (block_lo A i <= row < block_lo A i + block_len A i)%nat ->
     (block_lo A i <= c < block_lo A i + block_len A i)%nat -> ~ stored A row c) ->
  sweep_block A r (sweep_block A r y i) i = sweep_block A r y i.
Proof.
  intros Hs Ho Hlen Hind. unfold sweep_block.
  rewrite !kernel_symgs_sweep_block by (try apply grid1d_ge; lia).
  apply (block_map_again A r); assumption.
Qed.

(** Rows outside the blocks of a list of block launches keep their
    values, and the vector keeps its length. *)
Lemma block_launches_frame (A : SparseMatrix R)
    (step : list R -> nat -> list R) (G : nat -> list R -> nat -> R)
    (blocks : list nat) :
  valid_layout A ->
  (forall i y, i ∈ blocks -> (localNumberOfRows A <= length y)%nat ->
     step y i = block_map (block_lo A i) (block_len A i) (G i) y) ->
  (forall i, i ∈ blocks -> (i < Z.to_nat (nblocks A))%nat) ->
  forall y, (localNumberOfRows A <= length y)%nat ->
    length (fold_left step blocks y) = length y
    /\ forall c, (localNumberOfRows A <= c)%nat ->
         fold_left step blocks y !!! c = y !!! c.
Proof.
  intros Hlayout Hstep Hlt.
  induction blocks as [|i blocks IH]; intros y Hlen; cbn [fold_left].
  - split; [reflexivity | intros; reflexivity].
  - pose proof (block_end_le A Hlayout i (Hlt i ltac:(left))) as Hend.
    rewrite (Hstep i y ltac:(left) Hlen).
    destruct (IH (fun j z Hj => Hstep j z ltac:(right; exact Hj))
                 (fun j Hj => Hlt j ltac:(right; exact Hj))
                 (block_map (block_lo A i) (block_len A i) (G i) y)
                 ltac:(rewrite block_map_length; exact Hlen)) as [L F].
    split; [rewrite L; apply block_map_length |].
    intros c Hc. rewrite (F c Hc).
    rewrite block_map_lookup by lia. rewrite decide_False by lia. reflexivity.
Qed.

(** X10.  Under a valid block layout [ComputeSYMGSZeroGuess] keeps the
    length of [x] and writes only the rows [0 .. m): the ghost entries
    of [x] are as they were; the same holds for [ComputeSYMGS] in a run on
    one process. *)
Theorem symgs_writes_local_rows (A : SparseMatrix R) (r x : list R)
    (exchange : list R -> list R -> list R) (c : nat) :
  valid_layout A ->
  (localNumberOfRows A <= length x)%nat ->
  (localNumberOfRows A <= c)%nat ->
  (length (ComputeSYMGSZeroGuess A r x) = length x
   /\ ComputeSYMGSZeroGuess A r x !!! c = x !!! c)
  /\ (geom_size A <= 1 ->
      length (ComputeSYMGS exchange A r x) = length x
      /\ ComputeSYMGS exchange A r x !!! c = x !!! c).
Proof.
  intros Hlayout Hlen Hc.
  pose proof (layout_nblocks A Hlayout) as Hnb.
  pose proof (layout_sizes A Hlayout 0%nat ltac:(lia)) as Hs0.
  pose proof (block_end_le A Hlayout 0%nat ltac:(lia)) as Hend0.
  pose proof (block_lo_0 A Hlayout) as Hlo0.
  assert (Hfw : forall i, i ∈ forward_blocks A -> (i < Z.to_nat (nblocks A))%nat).
  { intros i Hi. unfold forward_blocks in Hi. apply elem_of_seq in Hi. lia. }
  assert (Hbw : forall i, i ∈ backward_blocks A -> (i < Z.to_nat (nblocks A))%nat).
  { intros i Hi. unfold backward_blocks in Hi. apply elem_of_rev, elem_of_seq in Hi.
    destruct (layout_ublocks A Hlayout) as [E|E]; rewrite E in Hi; lia. }
  split.
  - unfold ComputeSYMGSZeroGuess, zero_guess_backward, zero_guess_forward.
    rewrite kernel_pointwise_mult_block by (try apply grid1d_ge; lia).
    fold (block_len A 0). set (x1 := block_map 0 (block_len A 0) _ x).
    assert (L1 : length x1 = length x) by apply block_map_length.
    assert (F1 : x1 !!! c = x !!! c).
    { unfold x1. rewrite block_map_lookup by lia. rewrite decide_False by lia.
      reflexivity. }
    destruct (block_launches_frame A
                (fun y i =>
                   kernel_forward_sweep_0 (grid1d (sizes A !!! i) 1024)
                     (localNumberOfRows A) (sizes A !!! i) (offsets A !!! i)
                     (ell_width A) (ell_col_ind A) (ell_val A) (diag_idx A) r y)
                (fun i => forward_value_0 (localNumberOfRows A) (offsets A !!! i)
                            (ell_col_ind A) (ell_val A) (diag_idx A) r)
                (forward_blocks A) Hlayout
                ltac:(intros i y Hi _; apply kernel_forward_sweep_0_block;
                      [apply (layout_sizes A Hlayout), Hfw, Hi
                      | apply layout_offset_nonneg; [exact Hlayout |];
                        specialize (Hfw i Hi); lia
                      | apply grid1d_ge;
                        [apply (layout_sizes A Hlayout), Hfw, Hi | lia]])
                Hfw x1 ltac:(lia)) as [L2 F2].
    set (x2 := fold_left _ (forward_blocks A) x1) in *.
    destruct (block_launches_frame A
                (fun y i =>
                   kernel_backward_sweep_0 (grid1d (sizes A !!! i) 1024)
                     (localNumberOfRows A) (sizes A !!! i) (offsets A !!! i)
                     (ell_width A) (ell_col_ind A) (ell_val A) (diag_idx A) y)
                (fun i => backward_value_0 (localNumberOfRows A) (offsets A !!! i)
                            (ell_width A) (ell_col_ind A) (ell_val A) (diag_idx A))
                (backward_blocks A) Hlayout
                ltac:(intros i y Hi _; apply kernel_backward_sweep_0_block;
                      [apply (layout_sizes A Hlayout), Hbw, Hi
                      | apply layout_offset_nonneg; [exact Hlayout |];
                        specialize (Hbw i Hi); lia
                      | apply grid1d_ge;
                        [apply (layout_sizes A Hlayout), Hbw, Hi | lia]])
                Hbw x2 ltac:(lia)) as [L3 F3].
    split; [lia |]. rewrite (F3 c Hc), (F2 c Hc). exact F1.
  - intros Hsingle. unfold ComputeSYMGS.
    destruct (Z.ltb_spec 1 (geom_size A)) as [Hmpi|_]; [lia |].
    rewrite kernel_symgs_interior_block by (try apply grid1d_ge; lia).
    fold (block_len A 0). set (x1 := block_map 0 (block_len A 0) _ x).
    assert (L1 : length x1 = length x) by apply block_map_length.
    assert (F1 : x1 !!! c = x !!! c).
    { unfold x1. rewrite block_map_lookup by lia. rewrite decide_False by lia.
      reflexivity. }
    assert (Hsw : forall i y, (i < Z.to_nat (nblocks A))%nat ->
              sweep_block A r y i
              = block_map (block_lo A i) (block_len A i)
                  (fun y0 row =>
                     sweep_value (localNumberOfRows A) (localNumberOfColumns A)
                       (ell_width A) (ell_col_ind A) (ell_val A) (inv_diag A) r y0 row)
                  y).
    { intros i y Hi. unfold sweep_block. apply kernel_symgs_sweep_block.
      - apply (layout_sizes A Hlayout), Hi.
      - apply layout_offset_nonneg; [exact Hlayout | lia].
      - apply grid1d_ge; [apply (layout_sizes A Hlayout), Hi | lia]. }
    destruct (block_launches_frame A (sweep_block A r) _ (forward_blocks A) Hlayout
                (fun i y Hi _ => Hsw i y (Hfw i Hi)) Hfw x1 ltac:(lia)) as [L2 F2].
    set (x2 := fold_left _ (forward_blocks A) x1) in *.
    destruct (block_launches_frame A (sweep_block A r) _ (backward_blocks A) Hlayout
                (fun i y Hi _ => Hsw i y (Hbw i Hi)) Hbw x2 ltac:(lia)) as [L3 F3].
    split; [lia |]. rewrite (F3 c Hc), (F2 c Hc). exact F1.
Qed.
End SweepFacts.

Section ClosedForms.
Context {R : Type} {HA : Arith R} {HE : ExactArith R}.

Add Ring exact_ring_R3 : exact_ring.

Lemma filter_none {X} (f : X -> bool) (l : list X) :
  (forall p, In p l -> f p = false) -> List.filter f l = [].
Proof.
  induction l as [|p l IH]; intros Hall; [reflexivity |].
  cbn [List.filter]. rewrite (Hall p) by (left; reflexivity).
  apply IH. intros q Hq. apply Hall. right. exact Hq.
Qed.

(** X11.  In exact arithmetic, the first launch of [ComputeSYMGS] gives
    every row of block 0 the value
    [(r[row] - sum of A[row,col] * x[col]) * invDiag[row]], the sum running
    over the stored off-diagonal columns in [0, m) only: ghost columns,
    those in [m, n), are left out; the other rows keep their values.  The
    rows of block 0 are taken not to store each other, so that no thread
    reads what another one of the launch writes. *)
Theorem interior_row (A : SparseMatrix R) (r x : list R) (row : nat) :
  0 <= sizes A !!! 0%nat ->
  (Z.to_nat (sizes A !!! 0%nat) <= length x)%nat ->
  (forall row' c, (row' < Z.to_nat (sizes A !!! 0%nat))%nat ->
     (c < Z.to_nat (sizes A !!! 0%nat))%nat -> ~ stored A row' c) ->
  kernel_symgs_interior (grid1d (sizes A !!! 0%nat) 1024) (localNumberOfRows A)
    (sizes A !!! 0%nat) (ell_width A) (ell_col_ind A) (ell_val A) (inv_diag A) r x
  !!! row
  = if decide (row < Z.to_nat (sizes A !!! 0%nat))%nat
    then mul (sub (r !!! row)
                (slot_dot (localNumberOfRows A) (ell_col_ind A) (ell_val A) x row
                   (local_offdiag_slots A row)))
             (inv_diag A !!! row)
    else x !!! row.
Proof.
  intros Hs Hlen _.
  rewrite kernel_symgs_interior_block by (try apply grid1d_ge; lia).
  rewrite block_map_lookup by lia.
  destruct (decide (0 <= row < 0 + Z.to_nat (sizes A !!! 0%nat))%nat) as [Hr|Hr].
  - rewrite decide_True by lia. unfold sweep_value. f_equal.
    unfold sweep_sum, slot_dot, local_offdiag_slots.
    apply (fold_fma_sub
             (fun p => let col := ell_col_ind A !!! (p * localNumberOfRows A + row)%nat in
                       (0 <=? col) && (col <? Z.of_nat (localNumberOfRows A))
                       && negb (col =? Z.of_nat row))
             (fun p => ell_val A !!! (p * localNumberOfRows A + row)%nat)
             (fun p => x !!! Z.to_nat
                               (ell_col_ind A !!! (p * localNumberOfRows A + row)%nat))).
  - rewrite decide_False by lia. reflexivity.
Qed.

Lemma backward_sum_0_closed (A : SparseMatrix R) off (x : list R) row :
  backward_sum_0 (localNumberOfRows A) off (ell_width A) (ell_col_ind A) (ell_val A)
    x (diag_idx A !!! row) row (diag_val A row)
  = sub (mul (x !!! row) (diag_val A row))
      (slot_dot (localNumberOfRows A) (ell_col_ind A) (ell_val A) x row
         (upper_slots A off row)).
Proof.
  unfold backward_sum_0, slot_dot, upper_slots.
  apply (fold_fma_sub
           (fun p => let col := ell_col_ind A !!! (p * localNumberOfRows A + row)%nat in
                     (off <=? col) && (col <? Z.of_nat (localNumberOfRows A)))
           (fun p => ell_val A !!! (p * localNumberOfRows A + row)%nat)
           (fun p => x !!! Z.to_nat
                             (ell_col_ind A !!! (p * localNumberOfRows A + row)%nat))).
Qed.

(** The value a launch of [kernel_backward_sweep_0] leaves in a row, in
    terms of the vector at the start of the launch. *)
Lemma backward_sweep_0_lookup (A : SparseMatrix R) (x : list R) (i row : nat) :
  0 <= sizes A !!! i -> 0 <= offsets A !!! i ->
  (block_lo A i + block_len A i <= length x)%nat ->
  kernel_backward_sweep_0 (grid1d (sizes A !!! i) 1024) (localNumberOfRows A)
    (sizes A !!! i) (offsets A !!! i) (ell_width A) (ell_col_ind A) (ell_val A)
    (diag_idx A) x
  !!! row
  = if decide (block_lo A i <= row < block_lo A i + block_len A i)%nat
    then div (sub (mul (x !!! row) (diag_val A row))
                (slot_dot (localNumberOfRows A) (ell_col_ind A) (ell_val A) x row
                   (upper_slots A (offsets A !!! i) row)))
             (diag_val A row)
    else x !!! row.
Proof.
  intros Hs Ho Hlen.
  rewrite kernel_backward_sweep_0_block by (try apply grid1d_ge; lia).
  fold (block_lo A i) (block_len A i).
  rewrite block_map_lookup by exact Hlen.
  destruct (decide _); [| reflexivity].
  unfold backward_value_0. fold (diag_val A row).
  rewrite backward_sum_0_closed. reflexivity.
Qed.

(** X12.  In exact arithmetic, the launch of [kernel_backward_sweep_0] for
    a block [i] none of whose rows stores a column of the block gives
    every row of the block the value
    [(x[row] * diag - sum of A[row,col] * x[col]) / diag], the sum running
    over the slots above the diagonal slot whose column lies in
    [offsets[i], m), with [x] the vector before the launch and [diag] the
    stored diagonal value; the other rows keep their values. *)
Theorem backward_sweep_0_row (A : SparseMatrix R) (x : list R) (i row : nat) :
  0 <= sizes A !!! i -> 0 <= offsets A !!! i ->
  (block_lo A i + block_len A i <= length x)%nat ->
  (forall row' c,
     (block_lo A i <= row' < block_lo A i + block_len A i)%nat ->
     (block_lo A i <= c < block_lo A i + block_len A i)%nat -> ~ stored A row' c) ->
  kernel_backward_sweep_0 (grid1d (sizes A !!! i) 1024) (localNumberOfRows A)
    (sizes A !!! i) (offsets A !!! i) (ell_width A) (ell_col_ind A) (ell_val A)
    (diag_idx A) x
  !!! row
  = if decide (block_lo A i <= row < block_lo A i + block_len A i)%nat
    then div (sub (mul (x !!! row) (diag_val A row))
                (slot_dot (localNumberOfRows A) (ell_col_ind A) (ell_val A) x row
                   (upper_slots A (offsets A !!! i) row)))
             (diag_val A row)
    else x !!! row.
Proof.
  intros Hs Ho Hlen _. apply backward_sweep_0_lookup; assumption.
Qed.

(** X13.  In exact arithmetic, the backward launch of the zero-guess
    variant leaves a block as it is when no row of the block stores a
    column of the block, the slots are ordered around the diagonal slot
    and the block is the last one: what the optimised build skips by
    lowering [ublocks] is a launch that changes nothing. *)
Theorem backward_sweep_0_last (A : SparseMatrix R) (x : list R) :
  valid_layout A -> independent_blocks A -> ell_ordered A ->
  (forall row, (row < localNumberOfRows A)%nat -> diag_val A row <> zero) ->
  (localNumberOfRows A <= length x)%nat ->
  let i := (Z.to_nat (nblocks A) - 1)%nat in
  kernel_backward_sweep_0 (grid1d (sizes A !!! i) 1024) (localNumberOfRows A)
    (sizes A !!! i) (offsets A !!! i) (ell_width A) (ell_col_ind A) (ell_val A)
    (diag_idx A) x
  = x.
Proof.
  intros Hlayout Hind Hord Hdiag Hlen i.
  pose proof (layout_nblocks A Hlayout) as Hnb.
  assert (Hi : (i < Z.to_nat (nblocks A))%nat) by (unfold i; lia).
  pose proof (layout_sizes A Hlayout i Hi) as Hs.
  pose proof (layout_offset_nonneg A i Hlayout ltac:(lia)) as Ho.
  pose proof (block_end_le A Hlayout i Hi) as Hend.
  assert (Hlast : (block_lo A i + block_len A i)%nat = localNumberOfRows A).
  { rewrite <- (block_lo_S A Hlayout i Hi).
    replace (S i) with (Z.to_nat (nblocks A)) by (unfold i; lia).
    apply block_lo_nb. exact Hlayout. }
  apply list_eq_total; [unfold kernel_backward_sweep_0; apply launch_length |].
  intros row _. rewrite backward_sweep_0_lookup by (try assumption; lia).
  destruct (decide _) as [Hrow|]; [| reflexivity].
  assert (Hrm : (row < localNumberOfRows A)%nat) by lia.
  assert (Hup : upper_slots A (offsets A !!! i) row = []).
  { unfold upper_slots.
    destruct (ord_diag A Hord row Hrm) as [Hd _].
    apply filter_none.
    intros p Hp. apply in_seq in Hp. cbn zeta.
    set (col := ell_col_ind A !!! (p * localNumberOfRows A + row)%nat).
    destruct ((offsets A !!! i <=? col) && (col <? Z.of_nat (localNumberOfRows A)))
      eqn:E; [| reflexivity].
    exfalso. apply andb_true_iff in E. destruct E as [E1 E2].
    apply Z.leb_le in E1. apply Z.ltb_lt in E2.
    destruct (ord_upper A Hord row p Hrm ltac:(lia)) as [Hneg|Hgt];
      fold col in Hneg || fold col in Hgt; [lia |].
    apply (Hind i row (Z.to_nat col) Hi Hrow).
    - unfold block_lo in *. lia.
    - split; [lia |]. exists p. split; [lia |]. fold col. lia. }
  rewrite Hup. unfold slot_dot, Rsum. cbn [map foldr].
  specialize (Hdiag row Hrm).
  rewrite exact_div.
  transitivity (mul (x !!! row) (mul (div one (diag_val A row)) (diag_val A row)));
    [ring |].
  rewrite exact_inv by exact Hdiag. ring.
Qed.
End ClosedForms.

Section ZeroGuessFacts.
Context {R : Type} {HA : Arith R}.
Variable A : SparseMatrix R.
Variable r : list R.
Hypothesis Hlayout : valid_layout A.

#[local] Abbreviation m := (localNumberOfRows A).
#[local] Abbreviation nb := (Z.to_nat (nblocks A)).

(** Every row below the start of block [b] lies in an earlier block. *)
Lemma row_block (b row : nat) :
  (b <= nb)%nat -> (row < block_lo A b)%nat ->
  exists b', (b' < b)%nat
             /\ (block_lo A b' <= row < block_lo A b' + block_len A b')%nat.
Proof.
  intros Hb Hrow. induction b as [|b IH].
  - rewrite (block_lo_0 A Hlayout) in Hrow. lia.
  - rewrite (block_lo_S A Hlayout b) in Hrow by lia.
    destruct (Nat.lt_ge_cases row (block_lo A b)) as [Hlt|Hge].
    + destruct (IH ltac:(lia) Hlt) as (b' & Hb' & Hin). exists b'. split; [lia | exact Hin].
    + exists b. split; [lia | lia].
Qed.

Lemma zero_guess_forward_frame (x : list R) :
  (m <= length x)%nat ->
  length (zero_guess_forward A r x) = length x
  /\ forall c, (m <= c)%nat -> zero_guess_forward A r x !!! c = x !!! c.
Proof.
  intros Hlen.
  pose proof (layout_nblocks A Hlayout) as Hnb.
  pose proof (layout_sizes A Hlayout 0%nat ltac:(lia)) as Hs0.
  pose proof (block_end_le A Hlayout 0%nat ltac:(lia)) as Hend0.
  pose proof (block_lo_0 A Hlayout) as Hlo0.
  assert (Hfw : forall i, i ∈ forward_blocks A -> (i < nb)%nat).
  { intros i Hi. unfold forward_blocks in Hi. apply elem_of_seq in Hi. lia. }
  unfold zero_guess_forward.
  rewrite kernel_pointwise_mult_block by (try apply grid1d_ge; lia).
  fold (block_len A 0). set (x1 := block_map 0 (block_len A 0) _ x).
  assert (L1 : length x1 = length x) by apply block_map_length.
  destruct (block_launches_frame A
              (fun y i =>
                 kernel_forward_sweep_0 (grid1d (sizes A !!! i) 1024)
                   m (sizes A !!! i) (offsets A !!! i)
                   (ell_width A) (ell_col_ind A) (ell_val A) (diag_idx A) r y)
              (fun i => forward_value_0 m (offsets A !!! i)
                          (ell_col_ind A) (ell_val A) (diag_idx A) r)
              (forward_blocks A) Hlayout
              ltac:(intros i y Hi _; apply kernel_forward_sweep_0_block;
                    [apply (layout_sizes A Hlayout), Hfw, Hi
                    | apply layout_offset_nonneg; [exact Hlayout |];
                      specialize (Hfw i Hi); lia
                    | apply grid1d_ge;
                      [apply (layout_sizes A Hlayout), Hfw, Hi | lia]])
              Hfw x1 ltac:(lia)) as [L2 F2].
  split; [lia |]. intros c Hc. rewrite (F2 c Hc).
  unfold x1. rewrite block_map_lookup by lia. rewrite decide_False by lia.
  reflexivity.
Qed.

(** X14.  [ComputeSYMGSZeroGuess] does not read the local part of [x]:
    two calls whose vectors have the same length and the same ghost
    entries return the same vector. *)
Theorem zero_guess_ignores_guess (x x' : list R) :
  (m <= length x)%nat -> length x' = length x ->
  (forall c, (m <= c)%nat -> x !!! c = x' !!! c) ->
  ComputeSYMGSZeroGuess A r x = ComputeSYMGSZeroGuess A r x'.
Proof.
  intros Hlen Hlen' Hghost. unfold ComputeSYMGSZeroGuess. f_equal.
  destruct (zero_guess_forward_frame x Hlen) as [L F].
  destruct (zero_guess_forward_frame x' ltac:(lia)) as [L' F'].
  pose proof (zero_guess_forward_done A r Hlayout x Hlen) as D.
  pose proof (zero_guess_forward_done A r Hlayout x' ltac:(lia)) as D'.
  set (X := zero_guess_forward A r x) in *.
  set (X' := zero_guess_forward A r x') in *.
  assert (Hblocks : forall k, (k <= nb)%nat ->
            forall b row, (b < k)%nat ->
              (block_lo A b <= row < block_lo A b + block_len A b)%nat ->
              X !!! row = X' !!! row).
  { induction k as [|k IH]; intros Hk b row Hb Hrow; [lia |].
    destruct (Nat.eq_dec b k) as [->|Hne]; [| apply (IH ltac:(lia) b); [lia | exact Hrow]].
    rewrite (D k row ltac:(lia) Hrow), (D' k row ltac:(lia) Hrow).
    destruct (decide (k = 0%nat)); [reflexivity |].
    unfold forward_value_0. f_equal. apply forward_sum_0_ext.
    intros c Hc.
    pose proof (layout_offset_nonneg A k Hlayout ltac:(lia)).
    destruct (row_block k c ltac:(lia) ltac:(unfold block_lo; lia)) as (b' & Hb' & Hin).
    apply (IH ltac:(lia) b' c Hb' Hin). }
  apply list_eq_total; [lia |].
  intros c _. destruct (Nat.lt_ge_cases c m) as [Hc|Hc].
  - rewrite <- (block_lo_nb A Hlayout) in Hc.
    destruct (row_block nb c ltac:(lia) Hc) as (b & Hb & Hin).
    apply (Hblocks nb ltac:(lia) b c Hb Hin).
  - rewrite (F c Hc), (F' c Hc). apply Hghost. exact Hc.
Qed.
End ZeroGuessFacts.

Section LowerSolve.
Context {R : Type} {HA : Arith R} {HE : ExactArith R}.

Add Ring exact_ring_R4 : exact_ring.

Lemma filter_same {X} (f g : X -> bool) (l : list X) :
  (forall p, In p l -> f p = g p) -> List.filter f l = List.filter g l.
Proof.
  induction l as [|p l IH]; intros Hall; [reflexivity |].
  cbn [List.filter]. rewrite (Hall p) by (left; reflexivity).
  rewrite IH by (intros q Hq; apply Hall; right; exact Hq). reflexivity.
Qed.

(** X15.  In exact arithmetic the forward sweep of
    [ComputeSYMGSZeroGuess] solves the lower triangular system: for every
    row, [diag * x[row] + sum of A[row,col] * x[col]] over the entries
    stored below the diagonal slot equals [r[row]], when the blocks tile
    the rows, no block holds two rows that store each other, the slots
    are ordered around the diagonal slot and [inv_diag] holds the
    reciprocals of the nonzero diagonal. *)
Theorem forward_solves_lower (A : SparseMatrix R) (r x : list R) (row : nat) :
  valid_layout A -> independent_blocks A -> ell_ordered A -> reciprocal_diag A ->
  (localNumberOfRows A <= length x)%nat ->
  (row < localNumberOfRows A)%nat ->
  let X := zero_guess_forward A r x in
  add (mul (diag_val A row) (X !!! row))
      (slot_dot (localNumberOfRows A) (ell_col_ind A) (ell_val A) X row
         (below_diag_slots A row))
  = r !!! row.
Proof.
  intros Hlayout Hind Hord Hrec Hlen Hrow. cbn zeta.
  pose proof (layout_nblocks A Hlayout) as Hnb.
  rewrite <- (block_lo_nb A Hlayout) in Hrow.
  destruct (row_block A Hlayout (Z.to_nat (nblocks A)) row ltac:(lia) Hrow)
    as (b & Hb & Hin).
  rewrite (block_lo_nb A Hlayout) in Hrow.
  pose proof (block_end_le A Hlayout b Hb) as Hend.
  pose proof (layout_offset_nonneg A b Hlayout ltac:(lia)) as Ho.
  destruct (Hrec row Hrow) as [Hd Einv].
  assert (Hslots : below_diag_slots A row = lower_slots A (offsets A !!! b) row).
  { unfold below_diag_slots, lower_slots. apply filter_same.
    intros p Hp. apply in_seq in Hp. cbn zeta.
    set (col := ell_col_ind A !!! (p * localNumberOfRows A + row)%nat).
    destruct (Z.leb_spec 0 col) as [Hc0|]; [| reflexivity].
    cbn [andb]. symmetry. apply Z.ltb_lt.
    pose proof (ord_lower A Hord row p Hrow ltac:(lia)) as Hlow. fold col in Hlow.
    destruct (Z.lt_ge_cases col (offsets A !!! b)) as [|Hge]; [assumption |].
    exfalso. apply (Hind b row (Z.to_nat col) Hb Hin).
    - unfold block_lo in *. lia.
    - split; [lia |]. exists p. split; [| fold col; lia].
      destruct (ord_diag A Hord row Hrow) as [Hdi _]. lia. }
  rewrite Hslots.
  rewrite (zero_guess_forward_done A r Hlayout x Hlen b row Hb Hin) at 1.
  destruct (decide (b = 0%nat)) as [->|Hb0].
  - assert (Hnil : lower_slots A (offsets A !!! 0%nat) row = []).
    { unfold lower_slots. apply filter_none. intros p _. cbn zeta.
      rewrite (layout_first A Hlayout).
      destruct (Z.leb_spec 0 (ell_col_ind A !!! (p * localNumberOfRows A + row)%nat));
        [| reflexivity].
      cbn [andb]. apply Z.ltb_ge. assumption. }
    rewrite Hnil. unfold slot_dot, Rsum. cbn [map foldr].
    rewrite Einv.
    transitivity (mul (r !!! row) (mul (div one (diag_val A row)) (diag_val A row)));
      [ring |].
    rewrite exact_inv by exact Hd. ring.
  - unfold forward_value_0. fold (diag_val A row).
    rewrite forward_sum_0_closed.
    set (s := slot_dot _ _ _ _ row _).
    rewrite exact_div.
    transitivity (add (mul (sub (r !!! row) s)
                         (mul (div one (diag_val A row)) (diag_val A row))) s);
      [ring |].
    rewrite exact_inv by exact Hd. ring.
Qed.
End LowerSolve.

Section UpperSolve.
Context {R : Type} {HA : Arith R} {HE : ExactArith R}.
Variable A : SparseMatrix R.
Hypothesis Hlayout : valid_layout A.
Hypothesis Hind : independent_blocks A.
Hypothesis Hord : ell_ordered A.
Hypothesis Hdiag : forall row, (row < localNumberOfRows A)%nat -> diag_val A row <> zero.

Add Ring exact_ring_R5 : exact_ring.

#[local] Abbreviation m := (localNumberOfRows A).
#[local] Abbreviation nb := (Z.to_nat (nblocks A)).
#[local] Abbreviation in_block b row :=
  (block_lo A b <= row < block_lo A b + block_len A b)%nat (only parsing).
#[local] Abbreviation bstep :=
  (fun (y : list R) i =>
     kernel_backward_sweep_0 (grid1d (sizes A !!! i) 1024) m
       (sizes A !!! i) (offsets A !!! i) (ell_width A) (ell_col_ind A) (ell_val A)
       (diag_idx A) y).
#[local] Abbreviation upper_eq X Y row :=
  (add (mul (diag_val A row) (Y%list !!! row%nat))
       (slot_dot m (ell_col_ind A) (ell_val A) Y row (upper_slots A 0 row))
   = mul (diag_val A row) (X%list !!! row%nat)) (only parsing).

Lemma slot_dot_ext (y y' : list R) row slots :
  (forall p, In p slots ->
     y !!! Z.to_nat (ell_col_ind A !!! (p * m + row)%nat)
     = y' !!! Z.to_nat (ell_col_ind A !!! (p * m + row)%nat)) ->
  slot_dot m (ell_col_ind A) (ell_val A) y row slots
  = slot_dot m (ell_col_ind A) (ell_val A) y' row slots.
Proof.
  intros E. unfold slot_dot. f_equal. apply map_ext_in.
  intros p Hp. rewrite (E p Hp). reflexivity.
Qed.

(** The columns of the upper slots of a row of block [b] are local rows
    of later blocks. *)
Lemma upper_slot_col b row p :
  (b < nb)%nat -> in_block b row -> In p (upper_slots A 0 row) ->
  let col := ell_col_ind A !!! (p * m + row)%nat in
  Z.of_nat (block_lo A b + block_len A b) <= col < Z.of_nat m.
Proof.
  intros Hb Hrow Hp. cbn zeta.
  pose proof (block_end_le A Hlayout b Hb) as Hend.
  assert (Hrm : (row < m)%nat) by lia.
  unfold upper_slots in Hp. apply filter_In in Hp. destruct Hp as [Hp E].
  apply in_seq in Hp. cbn zeta in E.
  set (col := ell_col_ind A !!! (p * m + row)%nat) in *.
  apply andb_true_iff in E. destruct E as [E1 E2].
  apply Z.leb_le in E1. apply Z.ltb_lt in E2.
  destruct (ord_diag A Hord row Hrm) as [Hd _].
  destruct (ord_upper A Hord row p Hrm ltac:(lia)) as [Hneg|Hgt];
    fold col in Hneg || fold col in Hgt; [lia |].
  split; [| exact E2].
  destruct (Z.lt_ge_cases col (Z.of_nat (block_lo A b + block_len A b))) as [Hlt|];
    [| assumption].
  exfalso. apply (Hind b row (Z.to_nat col) Hb Hrow); [lia |].
  split; [lia |]. exists p. split; [lia | fold col; lia].
Qed.

Lemma upper_slots_offset b row :
  (b < nb)%nat -> in_block b row ->
  upper_slots A (offsets A !!! b) row = upper_slots A 0 row.
Proof.
  intros Hb Hrow. unfold upper_slots. apply filter_same.
  intros p Hp. apply in_seq in Hp. cbn zeta.
  pose proof (block_end_le A Hlayout b Hb) as Hend.
  pose proof (layout_offset_nonneg A b Hlayout ltac:(lia)) as Ho.
  assert (Hrm : (row < m)%nat) by lia.
  set (col := ell_col_ind A !!! (p * m + row)%nat).
  destruct (ord_diag A Hord row Hrm) as [Hd _].
  destruct (ord_upper A Hord row p Hrm ltac:(lia)) as [Hneg|Hgt];
    fold col in Hneg || fold col in Hgt.
  - destruct (Z.leb_spec (offsets A !!! b) col); [lia |].
    destruct (Z.leb_spec 0 col); [lia | reflexivity].
  - destruct (Z.leb_spec (offsets A !!! b) col); [| unfold block_lo in *; lia].
    destruct (Z.leb_spec 0 col); [reflexivity | lia].
Qed.

(** The state of the backward loop before block [k - 1]: the blocks
    from [k] on satisfy the upper equation, the blocks before [k] are
    as the forward sweep left them. *)
Lemma backward_steps (X : list R) (j : nat) : forall (k : nat) (Y : list R),
  (k + j <= nb)%nat -> (m <= length Y)%nat ->
  (forall b row, (b < k + j)%nat -> in_block b row -> Y !!! row = X !!! row) ->
  (forall b row, (k + j <= b < nb)%nat -> in_block b row -> upper_eq X Y row) ->
  let Y' := fold_left bstep (rev (seq k j)) Y in
  (m <= length Y')%nat
  /\ (forall b row, (b < k)%nat -> in_block b row -> Y' !!! row = X !!! row)
  /\ (forall b row, (k <= b < nb)%nat -> in_block b row -> upper_eq X Y' row).
Proof.
  induction j as [|j IH]; intros k Y Hk Hlen Hold Hnew; cbn zeta.
  - cbn [seq rev fold_left]. rewrite Nat.add_0_r in *.
    split; [exact Hlen |]. split; assumption.
  - rewrite seq_S, rev_app_distr. cbn [rev app fold_left].
    set (i := (k + j)%nat).
    assert (Hi : (i < nb)%nat) by (unfold i; lia).
    pose proof (layout_sizes A Hlayout i Hi) as Hs.
    pose proof (layout_offset_nonneg A i Hlayout ltac:(lia)) as Ho.
    pose proof (block_end_le A Hlayout i Hi) as Hend.
    assert (Hrow_i : forall row,
              bstep Y i !!! row
              = if decide (in_block i row)
                then div (sub (mul (Y !!! row) (diag_val A row))
                            (slot_dot m (ell_col_ind A) (ell_val A) Y row
                               (upper_slots A (offsets A !!! i) row)))
                         (diag_val A row)
                else Y !!! row).
    { intros row. apply backward_sweep_0_lookup; [exact Hs | exact Ho | lia]. }
    assert (Hother : forall b c, (b < nb)%nat -> b <> i -> in_block b c ->
              bstep Y i !!! c = Y !!! c).
    { intros b c Hb Hne Hc. rewrite Hrow_i. rewrite decide_False; [reflexivity |].
      intros Hci.
      destruct (Nat.lt_ge_cases b i) as [Hlt|Hge].
      - pose proof (block_lo_mono A Hlayout (S b) i ltac:(lia)) as Hm.
        rewrite (block_lo_S A Hlayout b Hb) in Hm. lia.
      - pose proof (block_lo_mono A Hlayout (S i) b ltac:(lia)) as Hm.
        rewrite (block_lo_S A Hlayout i Hi) in Hm. lia. }
    assert (Hdot : forall b row, (i <= b < nb)%nat -> in_block b row ->
              slot_dot m (ell_col_ind A) (ell_val A) (bstep Y i) row
                (upper_slots A 0 row)
              = slot_dot m (ell_col_ind A) (ell_val A) Y row (upper_slots A 0 row)).
    { intros b row Hb Hrow. apply slot_dot_ext. intros p Hp.
      pose proof (upper_slot_col b row p ltac:(lia) Hrow Hp) as Hcol.
      cbn zeta in Hcol.
      set (col := ell_col_ind A !!! (p * m + row)%nat) in *.
      rewrite Hrow_i. rewrite decide_False; [reflexivity |].
      pose proof (block_lo_mono A Hlayout (S i) (S b) ltac:(lia)) as Hm.
      rewrite (block_lo_S A Hlayout i Hi), (block_lo_S A Hlayout b) in Hm by lia.
      lia. }
    apply (IH k (bstep Y i)).
    + lia.
    + unfold kernel_backward_sweep_0. rewrite launch_length. exact Hlen.
    + intros b row Hb Hrow. rewrite (Hother b row ltac:(lia) ltac:(unfold i; lia) Hrow).
      apply (Hold b); [lia | exact Hrow].
    + fold i. intros b row Hb Hrow.
      rewrite (Hdot b row ltac:(lia) Hrow).
      destruct (Nat.eq_dec b i) as [->|Hne].
      * rewrite Hrow_i, decide_True by exact Hrow.
        rewrite (upper_slots_offset i row Hi Hrow).
        rewrite (Hold i row ltac:(lia) Hrow).
        set (s := slot_dot _ _ _ Y row _).
        assert (Hd : diag_val A row <> zero) by (apply Hdiag; lia).
        rewrite exact_div.
        transitivity (add (mul (sub (mul (X !!! row) (diag_val A row)) s)
                             (mul (div one (diag_val A row)) (diag_val A row))) s);
          [ring |].
        rewrite exact_inv by exact Hd. ring.
      * rewrite (Hother b row ltac:(lia) Hne Hrow).
        apply (Hnew b); [unfold i in *; lia | exact Hrow].
Qed.

(** X16.  In exact arithmetic [ComputeSYMGSZeroGuess] ends with the upper
    triangular solve: for every row,
    [diag * x[row] + sum of A[row,col] * x[col]] over the local entries
    stored above the diagonal slot equals [diag * y[row]], where [y] is
    the vector the forward sweep left; this holds for [ublocks] equal to
    [nblocks - 1] and to [nblocks - 2]. *)
Theorem zero_guess_solves_upper (r x : list R) (row : nat) :
  (m <= length x)%nat -> (row < m)%nat ->
  let y := zero_guess_forward A r x in
  let x' := ComputeSYMGSZeroGuess A r x in
  add (mul (diag_val A row) (x' !!! row))
      (slot_dot m (ell_col_ind A) (ell_val A) x' row (upper_slots A 0 row))
  = mul (diag_val A row) (y !!! row).
Proof.
  intros Hlen Hrow. cbn zeta.
  pose proof (layout_nblocks A Hlayout) as Hnb.
  unfold ComputeSYMGSZeroGuess, zero_guess_backward, backward_blocks.
  set (X := zero_guess_forward A r x).
  assert (HX : (m <= length X)%nat).
  { unfold X. destruct (zero_guess_forward_frame A r Hlayout x Hlen) as [L _]. lia. }
  set (j := Z.to_nat (ublocks A + 1)).
  assert (Hj : (j <= nb)%nat /\ (nb - 1 <= j)%nat).
  { unfold j. destruct (layout_ublocks A Hlayout) as [E|E]; rewrite E; lia. }
  destruct (backward_steps X j 0 X ltac:(lia) HX ltac:(reflexivity))
    as (_ & _ & Hfinal).
  { intros b row' Hb Hrow'. cbn [Nat.add] in Hb.
    assert (b = (nb - 1)%nat) by lia. subst b.
    assert (Hup : upper_slots A 0 row' = []).
    { destruct (upper_slots A 0 row') as [|p l] eqn:E; [reflexivity |].
      exfalso.
      pose proof (upper_slot_col (nb - 1) row' p ltac:(lia) Hrow'
                    ltac:(rewrite E; left; reflexivity)) as Hcol.
      cbn zeta in Hcol.
      pose proof (block_lo_S A Hlayout (nb - 1) ltac:(lia)) as HS.
      replace (S (nb - 1)) with nb in HS by lia.
      rewrite (block_lo_nb A Hlayout) in HS. lia. }
    rewrite Hup. unfold slot_dot, Rsum. cbn [map foldr]. ring. }
  cbn zeta in Hfinal.
  rewrite <- (block_lo_nb A Hlayout) in Hrow.
  destruct (row_block A Hlayout nb row ltac:(lia) Hrow) as (b & Hb & Hin).
  apply (Hfinal b row ltac:(lia) Hin).
Qed.
End UpperSolve.

Section HaloFrame.
Context {R : Type} {HA : Arith R}.

(** X17.  The launch of [kernel_symgs_halo] keeps the length of the
    vector and changes no entry other than those at the permuted
    positions, below [sizes[0]], of halo rows. *)
Theorem halo_corrector_frame (A : SparseMatrix R) (r y : list R) (c : nat) :
  (forall h, (h < halo_rows A)%nat ->
     let pidx := perm A !!! Z.to_nat (halo_row_ind A !!! h) in
     pidx < sizes A !!! 0%nat -> Z.to_nat pidx <> c) ->
  let y' := kernel_symgs_halo (grid1d (Z.of_nat (halo_rows A)) 128)
              (halo_rows A) (localNumberOfColumns A) (sizes A !!! 0%nat)
              (ell_width A) (halo_row_ind A) (halo_col_ind A) (halo_val A)
              (inv_diag A) (perm A) r y in
  length y' = length y /\ y' !!! c = y !!! c.
Proof.
  intros Hc. cbn zeta. unfold kernel_symgs_halo.
  split; [apply launch_length |].
  apply launch_lookup_other. intros gid v _ E.
  destruct (Nat.leb_spec (halo_rows A) gid) as [|Hgid]; [discriminate |].
  destruct (Z.leb_spec (sizes A !!! 0%nat)
              (perm A !!! Z.to_nat (halo_row_ind A !!! gid))) as [|Hlt];
    [discriminate |].
  injection E as E _. exact (Hc gid Hgid Hlt E).
Qed.
End HaloFrame.

(** ** The further properties at the examples *)

Section FurtherExamples.
Import Examples.

#[local] Ltac by_eval := first [ cbn; lia | vm_compute; lia ].

Lemma kernel_jpl_keeps_colours_witness :
  let cs := [0; -1; -1; 7] in
  let cs' := kernel_jpl (jpl_grid_rows 4 3) 4 grid_hash 1 2 3 grid_ind cs in
  length cs' = length cs
  /\ (cs !!! 0%nat <> -1 -> cs' !!! 0%nat = cs !!! 0%nat)
  /\ (cs' !!! 0%nat = cs !!! 0%nat \/ cs' !!! 0%nat = 1 \/ cs' !!! 0%nat = 2).
Proof.
  exact (kernel_jpl_keeps_colours 4 3 grid_hash grid_ind (jpl_grid_rows 4 3) 1 2
           [0; -1; -1; 7] 0 ltac:(by_eval) eq_refl).
Defined.

Lemma JPLColoring_tables_witness :
  valid_layout grid_coloured
  /\ Z.even (nblocks grid_coloured) = true /\ 2 <= nblocks grid_coloured
  /\ Z.of_nat (length (sizes grid_coloured)) = nblocks grid_coloured
  /\ Z.of_nat (length (offsets grid_coloured)) = nblocks grid_coloured + 1
  /\ ublocks grid_coloured = nblocks grid_coloured - 2
  /\ localNumberOfRows grid_coloured = localNumberOfRows grid_uncoloured.
Proof.
  exact (JPLColoring_tables palette_order 128 false 2 workspace0
           grid_uncoloured grid_coloured ltac:(by_eval) workspace0_length
           JPLColoring_grid).
Defined.

Lemma kernel_create_perm_inverse_witness :
  let inp := [2; 0; 1] in
  let out := [9; 9; 9] in
  let out' := kernel_create_perm 4 3 inp out in
  length out' = length out
  /\ (forall g, (g < 3)%nat -> out' !!! Z.to_nat (inp !!! g) = Z.of_nat g)
  /\ (forall i, (forall g, (g < 3)%nat -> Z.to_nat (inp !!! g) <> i) ->
        out' !!! i = out !!! i).
Proof.
  exact (kernel_create_perm_inverse 4 3 [2; 0; 1] [9; 9; 9] ltac:(lia)
           ltac:(intros [|[|[|g]]] Hg; [cbn; lia | cbn; lia | cbn; lia | lia])
           ltac:(intros [|[|[|g]]] [|[|[|g']]] Hg Hg' E; cbn in E; lia)).
Defined.

Lemma JPLColoring_perm_order_witness :
  exists st,
    jpl_loop palette_order 128 4 3 grid_hash grid_ind 2 (jpl_init 4 workspace0)
    = Exited st
    /\ (forall r, (r < 4)%nat -> 0 <= perm grid_coloured !!! r < Z.of_nat 4)
    /\ (forall r1 r2, (r1 < 4)%nat -> (r2 < 4)%nat ->
          sorts_before (32 - clz32 (st_nblocks st))
            (colors st !!! r1, Z.of_nat r1) (colors st !!! r2, Z.of_nat r2) ->
          perm grid_coloured !!! r1 < perm grid_coloured !!! r2)
    /\ (forall r1 r2, (r1 < 4)%nat -> (r2 < 4)%nat ->
          perm grid_coloured !!! r1 = perm grid_coloured !!! r2 -> r1 = r2).
Proof.
  exact (JPLColoring_perm_order palette_order 128 false 2 workspace0
           grid_uncoloured grid_coloured ltac:(by_eval) workspace0_length
           JPLColoring_grid).
Defined.

Lemma grid_blocked_diag (row : nat) :
  (row < localNumberOfRows grid_blocked)%nat -> diag_val grid_blocked row <> zero.
Proof. intros Hrow. apply grid_blocked_reciprocal. exact Hrow. Qed.

Lemma sweep_block_again_witness :
  sweep_block grid_blocked ones (sweep_block grid_blocked ones ones 2) 2
  = sweep_block grid_blocked ones ones 2.
Proof.
  exact (sweep_block_again grid_blocked ones ones 2 ltac:(by_eval) ltac:(by_eval)
           ltac:(unfold block_lo, block_len; cbn; lia)
           (fun row c => grid_blocked_independent 2%nat row c ltac:(by_eval))).
Defined.

Lemma symgs_writes_local_rows_witness :
  let x := q <$> [1; 1; 1; 1; 5] in
  (length (ComputeSYMGSZeroGuess grid_blocked ones x) = length x
   /\ ComputeSYMGSZeroGuess grid_blocked ones x !!! 4%nat = x !!! 4%nat)
  /\ (geom_size grid_blocked <= 1 ->
      length (ComputeSYMGS (fun _ y => y) grid_blocked ones x) = length x
      /\ ComputeSYMGS (fun _ y => y) grid_blocked ones x !!! 4%nat = x !!! 4%nat).
Proof.
  refine (symgs_writes_local_rows grid_blocked ones (q <$> [1; 1; 1; 1; 5])
            (fun _ y => y) 4 grid_blocked_layout _ _); by_eval.
Defined.

Lemma interior_row_witness :
  let A := grid_blocked in
  kernel_symgs_interior (grid1d (sizes A !!! 0%nat) 1024) (localNumberOfRows A)
    (sizes A !!! 0%nat) (ell_width A) (ell_col_ind A) (ell_val A) (inv_diag A)
    ones ones
  !!! 0%nat
  = if decide (0 < Z.to_nat (sizes A !!! 0%nat))%nat
    then mul (sub (ones !!! 0%nat)
                (slot_dot (localNumberOfRows A) (ell_col_ind A) (ell_val A) ones 0
                   (local_offdiag_slots A 0)))
             (inv_diag A !!! 0%nat)
    else ones !!! 0%nat.
Proof.
  exact (interior_row grid_blocked ones ones 0 ltac:(by_eval) ltac:(by_eval)
           (fun row c Hrow Hc =>
              grid_blocked_independent 0%nat row c ltac:(by_eval)
                ltac:(unfold block_lo, block_len; cbn in *; lia)
                ltac:(unfold block_lo, block_len; cbn in *; lia))).
Defined.

Lemma backward_sweep_0_row_witness :
  let A := grid_blocked in
  kernel_backward_sweep_0 (grid1d (sizes A !!! 1%nat) 1024) (localNumberOfRows A)
    (sizes A !!! 1%nat) (offsets A !!! 1%nat) (ell_width A) (ell_col_ind A)
    (ell_val A) (diag_idx A) ones
  !!! 1%nat
  = if decide (block_lo A 1 <= 1 < block_lo A 1 + block_len A 1)%nat
    then div (sub (mul (ones !!! 1%nat) (diag_val A 1))
                (slot_dot (localNumberOfRows A) (ell_col_ind A) (ell_val A) ones 1
                   (upper_slots A (offsets A !!! 1%nat) 1)))
             (diag_val A 1)
    else ones !!! 1%nat.
Proof.
  exact (backward_sweep_0_row grid_blocked ones 1 1 ltac:(by_eval) ltac:(by_eval)
           ltac:(unfold block_lo, block_len; cbn; lia)
           (fun row c => grid_blocked_independent 1%nat row c ltac:(by_eval))).
Defined.

Lemma backward_sweep_0_last_witness :
  let A := grid_blocked in
  let i := (Z.to_nat (nblocks A) - 1)%nat in
  kernel_backward_sweep_0 (grid1d (sizes A !!! i) 1024) (localNumberOfRows A)
    (sizes A !!! i) (offsets A !!! i) (ell_width A) (ell_col_ind A) (ell_val A)
    (diag_idx A) ones
  = ones.
Proof.
  exact (backward_sweep_0_last grid_blocked ones grid_blocked_layout
           grid_blocked_independent grid_blocked_ordered grid_blocked_diag
           ltac:(by_eval)).
Defined.

Lemma zero_guess_ignores_guess_witness :
  ComputeSYMGSZeroGuess grid_blocked ones ones
  = ComputeSYMGSZeroGuess grid_blocked ones zeros.
Proof.
  exact (zero_guess_ignores_guess grid_blocked ones grid_blocked_layout ones zeros
           ltac:(by_eval) eq_refl
           ltac:(intros c Hc; cbn in Hc;
                 rewrite !list_lookup_total_alt, !lookup_ge_None_2
                   by (cbn; lia); reflexivity)).
Defined.

Lemma forward_solves_lower_witness :
  let A := grid_blocked in
  let X := zero_guess_forward A ones zeros in
  add (mul (diag_val A 1) (X !!! 1%nat))
      (slot_dot (localNumberOfRows A) (ell_col_ind A) (ell_val A) X 1
         (below_diag_slots A 1))
  = ones !!! 1%nat.
Proof.
  exact (forward_solves_lower grid_blocked ones zeros 1 grid_blocked_layout
           grid_blocked_independent grid_blocked_ordered grid_blocked_reciprocal
           ltac:(by_eval) ltac:(by_eval)).
Defined.

Lemma zero_guess_solves_upper_witness :
  let A := grid_blocked in
  let y := zero_guess_forward A ones zeros in
  let x' := ComputeSYMGSZeroGuess A ones zeros in
  add (mul (diag_val A 1) (x' !!! 1%nat))
      (slot_dot (localNumberOfRows A) (ell_col_ind A) (ell_val A) x' 1
         (upper_slots A 0 1))
  = mul (diag_val A 1) (y !!! 1%nat).
Proof.
  exact (zero_guess_solves_upper grid_blocked grid_blocked_layout
           grid_blocked_independent grid_blocked_ordered grid_blocked_diag
           ones zeros 1 ltac:(by_eval) ltac:(by_eval)).
Defined.

Lemma halo_corrector_frame_witness :
  let A := halo_matrix 0 in
  let y' := kernel_symgs_halo (grid1d (Z.of_nat (halo_rows A)) 128)
              (halo_rows A) (localNumberOfColumns A) (sizes A !!! 0%nat)
              (ell_width A) (halo_row_ind A) (halo_col_ind A) (halo_val A)
              (inv_diag A) (perm A) ones halo_x in
  length y' = length halo_x /\ y' !!! 1%nat = halo_x !!! 1%nat.
Proof.
  exact (halo_corrector_frame (halo_matrix 0) ones halo_x 1
           ltac:(intros [|h] Hh; [vm_compute; lia | cbn in Hh; lia])).
Defined.
End FurtherExamples.

